(** * ImageResizer: a shallow embedding of Utils.cpp and ImageResize.cpp

    Conventions of the embedding.

    - C [int] is modelled by [Z].  Signed overflow is undefined in C and the
      driver keeps every dimension within [MIN_WIDTH..MAX_WIDTH]; no
      wrap-around is written for [int].
    - [PIXEL] is [unsigned char]: a [Z] in [0, 255].  Conversions to [PIXEL]
      are written out ([PIXEL_of_int], [PIXEL_of_double]).
    - C [double] is modelled by [Q] in the per-pixel colour conversion,
      which only adds, multiplies and divides and therefore still computes,
      and by [R] wherever the source calls [sin] or [pow] or stores samples
      in a [double] plane.  The colour conversion truncates the value of a
      [double] expression to a [PIXEL], and there the rounding of the
      expression decides the result when its exact value is an integer;
      the rows of the conversion therefore carry their rounding error
      ([RowRounding]).  Elsewhere the arithmetic is exact.
    - A three-plane buffer [T ***] is a total map from (plane, row, column)
      to samples; a NULL buffer is [None].
    - Functions that write through a pointer return the updated object. *)

From Stdlib Require Import ZArith QArith Qround Qabs Reals Machin List Bool
  Lia Lra Psatz.
Import ListNotations.

Local Open Scope Z_scope.

(** ** Utils.h: macros and constants *)

(** [<] of the C expression language, for each arithmetic type in use. *)
Class CLess (A : Type) := cless : A -> A -> bool.

#[export] Instance CLess_Z : CLess Z := Z.ltb.
#[export] Instance CLess_Q : CLess Q :=
  fun x y => if Qlt_le_dec x y then true else false.
#[export] Instance CLess_R : CLess R :=
  fun x y => if Rlt_dec x y then true else false.

(** [#define CLAMP(x,a,b) ((x)<(a) ? (a) : (x)>(b) ? (b) : (x))] *)
Definition CLAMP {A : Type} `{CLess A} (x a b : A) : A :=
  if cless x a then a else if cless b x then b else x.

Definition PIXMAX : Z := 255.
Definition FWD_GAMMA_LUTSIZE : Z := 256.
Definition BWD_GAMMA_LUTSIZE : Z := 4096.

Inductive ColorSpaces := RGB | YUV444 | YUV422 | YUV420.
Inductive EdgeMethod := REPEAT | MIRROR | NOCONTRIB.
Inductive PixelPrecision := BPP8 | DOUBLE.

Definition ColorSpaces_eqb (a b : ColorSpaces) : bool :=
  match a, b with
  | RGB, RGB | YUV444, YUV444 | YUV422, YUV422 | YUV420, YUV420 => true
  | _, _ => false
  end.

Definition EdgeMethod_eqb (a b : EdgeMethod) : bool :=
  match a, b with
  | REPEAT, REPEAT | MIRROR, MIRROR | NOCONTRIB, NOCONTRIB => true
  | _, _ => false
  end.

(** [enum RGBPlanes] and [enum YUVPlanes] share their numbering. *)
Definition R_PLANE : Z := 0.
Definition G_PLANE : Z := 1.
Definition B_PLANE : Z := 2.
Definition Y_PLANE : Z := 0.
Definition U_PLANE : Z := 1.
Definition V_PLANE : Z := 2.

(** ** Three-plane sample buffers *)

Module Array3.

Definition t (A : Type) : Type := Z -> Z -> Z -> A.

Definition make {A} (a : A) : t A := fun _ _ _ => a.

Definition get {A} (m : t A) (plane y x : Z) : A := m plane y x.

Definition set {A} (m : t A) (plane y x : Z) (v : A) : t A :=
  fun p r c =>
    if (p =? plane) && (r =? y) && (c =? x) then v else m p r c.

End Array3.

(** [typedef struct { ... } IMAGE;] *)
Record IMAGE := mkIMAGE {
  colorSpace : ColorSpaces;
  height : Z;
  width : Z;
  precision : PixelPrecision;
  pixArray : option (Array3.t Z);
  dblPixArray : option (Array3.t R)
}.

Definition with_pixArray (im : IMAGE) (a : Array3.t Z) : IMAGE :=
  mkIMAGE (colorSpace im) (height im) (width im) (precision im)
          (Some a) (dblPixArray im).

Definition with_dblPixArray (im : IMAGE) (a : Array3.t R) : IMAGE :=
  mkIMAGE (colorSpace im) (height im) (width im) (precision im)
          (pixArray im) (Some a).

(** [CreateImage]: [calloc] zero-fills the buffer of the requested kind.
    The source exits when the allocation fails; the model takes it to
    succeed. *)
Definition CreateImage (cs : ColorSpaces) (w h : Z) (prec : PixelPrecision)
  : IMAGE :=
  match prec with
  | BPP8 => mkIMAGE cs h w BPP8 (Some (Array3.make 0)) None
  | DOUBLE => mkIMAGE cs h w DOUBLE None (Some (Array3.make 0%R))
  end.

(** ** Edge handling and chroma addressing *)

Definition HandleEdgeCase (i imageDimMax : Z) (edgeMethod : EdgeMethod) : Z :=
  let xy := i in
  let xy :=
    match edgeMethod with
    | MIRROR =>
        let xy := if xy <? 0 then - xy else xy in
        if xy >=? imageDimMax then imageDimMax * 2 - xy - 2 else xy
    | _ => xy
    end in
  CLAMP xy 0 (imageDimMax - 1).

(** [HandleColorspaceAddress] updates [*x] and [*y]; the pair returned is
    [(x, y)].  Integer division in C truncates towards zero. *)
Definition HandleColorspaceAddress (x y : Z) (cs : ColorSpaces) : Z * Z :=
  match cs with
  | YUV422 => (Z.quot x 2, y)
  | YUV420 => (Z.quot x 2, Z.quot y 2)
  | _ => (x, y)
  end.

Definition in_bounds (im : IMAGE) (y x : Z) : bool :=
  (y >=? 0) && (x >=? 0) && (y <? height im) && (x <? width im).

(** Reads and writes of one sample, [pImage->pixArray[plane][y][x]] and
    [pImage->dblPixArray[plane][y][x]].  The source dereferences the buffer
    without a check; on a missing buffer the model reads 0 and writes
    nothing.  For the double buffer these total accessors serve to state
    properties of images that hold one; the resampler, which dereferences
    [dblPixArray] of images of either precision, is modelled with
    [read_dbl] and [write_dbl] below. *)
Definition pix (im : IMAGE) (plane y x : Z) : Z :=
  match pixArray im with
  | Some a => Array3.get a plane y x
  | None => 0
  end.

Definition set_pix (im : IMAGE) (plane y x : Z) (v : Z) : IMAGE :=
  match pixArray im with
  | Some a => with_pixArray im (Array3.set a plane y x v)
  | None => im
  end.

Definition dbl (im : IMAGE) (plane y x : Z) : R :=
  match dblPixArray im with
  | Some a => Array3.get a plane y x
  | None => 0%R
  end.

Definition set_dbl (im : IMAGE) (plane y x : Z) (v : R) : IMAGE :=
  match dblPixArray im with
  | Some a => with_dblPixArray im (Array3.set a plane y x v)
  | None => im
  end.

(** ** Dereferencing a buffer that may be NULL *)

(** A function that dereferences a buffer without a check has no defined
    result on a NULL buffer.  Such functions are written in the error
    monad: [None] stands for the dereference of NULL, after which nothing
    else is executed. *)
Definition bind {A B : Type} (m : option A) (k : A -> option B) : option B :=
  match m with
  | Some a => k a
  | None => None
  end.

Notation "x <- m ;; k" := (bind m (fun x => k))
  (at level 61, m at next level, right associativity).

(** [pImage->dblPixArray[plane][y][x]], read and assigned. *)
Definition read_dbl (im : IMAGE) (plane y x : Z) : option R :=
  match dblPixArray im with
  | Some a => Some (Array3.get a plane y x)
  | None => None
  end.

Definition write_dbl (im : IMAGE) (plane y x : Z) (v : R) : option IMAGE :=
  match dblPixArray im with
  | Some a => Some (with_dblPixArray im (Array3.set a plane y x v))
  | None => None
  end.

(** [GetSubPixel] with edge handling. *)
Definition GetSubPixel (im : IMAGE) (y x : Z) (edgeMethod : EdgeMethod)
  (plane : Z) : Z :=
  let x := HandleEdgeCase x (width im) edgeMethod in
  let y := HandleEdgeCase y (height im) edgeMethod in
  let '(x, y) :=
    if (plane =? U_PLANE) || (plane =? V_PLANE)
    then HandleColorspaceAddress x y (colorSpace im) else (x, y) in
  pix im plane y x.

Definition SetSubPixel (im : IMAGE) (y x : Z) (plane : Z) (pixVal : Z)
  : IMAGE :=
  if negb (in_bounds im y x) then im
  else
    let '(x, y) :=
      if (plane =? U_PLANE) || (plane =? V_PLANE)
      then HandleColorspaceAddress x y (colorSpace im) else (x, y) in
    set_pix im plane y x pixVal.

(** A three-sample pixel [PIXEL pixel[3]]. *)
Definition Pixel : Type := Z * Z * Z.

(** [GetPixel] for 8-bit images: the flag is the returned [bool]. *)
Definition GetPixel (im : IMAGE) (y x : Z) (edgeMethod : EdgeMethod)
  : bool * Pixel :=
  match pixArray im with
  | None => (false, (0, 0, 0))
  | Some _ =>
      let x := HandleEdgeCase x (width im) edgeMethod in
      let y := HandleEdgeCase y (height im) edgeMethod in
      let p0 := pix im Y_PLANE y x in
      let '(x, y) := HandleColorspaceAddress x y (colorSpace im) in
      (true, (p0, pix im U_PLANE y x, pix im V_PLANE y x))
  end.

Definition SetPixel (im : IMAGE) (y x : Z) (pixel : Pixel) : IMAGE :=
  if negb (in_bounds im y x) then im
  else
    let '(p0, p1, p2) := pixel in
    let im := set_pix im Y_PLANE y x p0 in
    let '(x, y) := HandleColorspaceAddress x y (colorSpace im) in
    let im := set_pix im U_PLANE y x p1 in
    set_pix im V_PLANE y x p2.

(** What [CreateImage] establishes: the buffer that [precision] names is
    there and the other one is NULL. *)
Definition allocated (im : IMAGE) : Prop :=
  match precision im with
  | BPP8 => pixArray im <> None /\ dblPixArray im = None
  | DOUBLE => pixArray im = None /\ dblPixArray im <> None
  end.

(** ** Conversions between arithmetic types *)

(** Conversion of a [double] to an integer type truncates towards zero. *)
Class CTrunc (A : Type) := ctrunc : A -> Z.

#[export] Instance CTrunc_Q : CTrunc Q :=
  fun v => if Qlt_le_dec v 0 then Qceiling v else Qfloor v.

(** On [R], [Int_part] is the floor. *)
#[export] Instance CTrunc_R : CTrunc R :=
  fun v => if Rlt_dec v 0 then (- Int_part (- v)) else Int_part v.

(** Conversion of an [int] to [unsigned char] reduces modulo 256. *)
Definition PIXEL_of_int (z : Z) : Z := z mod 256.

(** [(PIXEL)(v)] for a [double] [v]. *)
Definition PIXEL_of_double {A : Type} `{CTrunc A} (v : A) : Z :=
  PIXEL_of_int (ctrunc v).

(** ** Utils.cpp: per-pixel colour conversion *)

Definition RGBtoYUV601 : list (list Q) :=
  [ [ 65.738;  129.057;  25.064;  16 ];
    [ -37.946; -74.494;  112.439; 128 ];
    [ 112.439; -94.154;  -18.285; 128 ] ]%Q.

Definition YUV601toRGB : list (list Q) :=
  [ [ 298.082; 0;        408.583;  -16 ];
    [ 298.082; -100.291; -208.120; -128 ];
    [ 298.082; 516.411;  0;        -128 ] ]%Q.

(** [m[i][j]] for a coefficient table. *)
Definition coef (m : list (list Q)) (i j : nat) : Q :=
  nth j (nth i m []) 0%Q.

(** The [double] value of a conversion row is the exact value of the row
    expression plus the rounding error of its evaluation.  [RowRounding]
    gives that error for each input pixel and each row [k], for either
    conversion. *)
Record RowRounding := mkRowRounding {
  RGB2YUV_error : Pixel -> nat -> Q;
  YUV2RGB_error : Pixel -> nat -> Q
}.

(** The exact value of a row is a multiple of 1/512000 (the coefficients
    have three decimals, a row is divided by 256 and one half is added).
    A rounding is accurate when every error is smaller than this spacing;
    the error of a binary64 evaluation is below 1e-10. *)
Definition accurate (fl : RowRounding) : Prop :=
  forall (p : Pixel) (k : nat),
    (Qabs (RGB2YUV_error fl p k) < 1 # 512000)%Q /\
    (Qabs (YUV2RGB_error fl p k) < 1 # 512000)%Q.

(** Evaluation without rounding error. *)
Definition exact_rows : RowRounding :=
  mkRowRounding (fun _ _ => 0%Q) (fun _ _ => 0%Q).

(** The value of row [k] of [YUVPixel2RGB] before clamping: the offsets are
    removed first, then the matrix is applied and one half is added. *)
Definition YUVPixel2RGB_row (fl : RowRounding) (yuvPixel : Pixel) (k : nat)
  : Q :=
  let '(y, u, v) := yuvPixel in
  let t0 := (inject_Z y + coef YUV601toRGB 0 3)%Q in
  let t1 := (inject_Z u + coef YUV601toRGB 1 3)%Q in
  let t2 := (inject_Z v + coef YUV601toRGB 2 3)%Q in
  ((coef YUV601toRGB k 0 * t0 +
    coef YUV601toRGB k 1 * t1 +
    coef YUV601toRGB k 2 * t2) / 256 + 0.5
   + YUV2RGB_error fl yuvPixel k)%Q.

Definition YUVPixel2RGB (fl : RowRounding) (yuvPixel : Pixel) : Pixel :=
  let row (k : nat) : Z :=
    PIXEL_of_double
      (CLAMP (YUVPixel2RGB_row fl yuvPixel k) 0%Q (inject_Z PIXMAX)) in
  (row 0%nat, row 1%nat, row 2%nat).

(** The YUV pixels that [YUVPixel2RGB] converts without clamping. *)
Definition unclamped (fl : RowRounding) (yuvPixel : Pixel) : Prop :=
  forall k : nat, (k < 3)%nat ->
    (0 <= YUVPixel2RGB_row fl yuvPixel k <= inject_Z PIXMAX)%Q.

Definition RGBPixel2YUV (fl : RowRounding) (rgbPixel : Pixel) : Pixel :=
  let '(r, g, b) := rgbPixel in
  let row (k : nat) : Z :=
    PIXEL_of_double
      (CLAMP ((coef RGBtoYUV601 k 0 * inject_Z r +
               coef RGBtoYUV601 k 1 * inject_Z g +
               coef RGBtoYUV601 k 2 * inject_Z b) / 256
              + coef RGBtoYUV601 k 3 + 0.5
              + RGB2YUV_error fl (r, g, b) k)%Q
             0%Q (inject_Z PIXMAX)) in
  (row 0%nat, row 1%nat, row 2%nat).

(** A pixel whose three samples are 8-bit values. *)
Definition is_pixel (p : Pixel) : Prop :=
  let '(a, b, c) := p in
  0 <= a <= 255 /\ 0 <= b <= 255 /\ 0 <= c <= 255.

(** Each channel of [q] is within [d] of the same channel of [p]. *)
Definition within (d : Z) (p q : Pixel) : Prop :=
  let '(a, b, c) := p in
  let '(a', b', c') := q in
  Z.abs (a' - a) <= d /\ Z.abs (b' - b) <= d /\ Z.abs (c' - c) <= d.

(** Numerator, over 512000, of a conversion row with coefficients
    [n0/1000], [n1/1000], [n2/1000] and offset-plus-rounding [off2/2]. *)
Definition row_num (n0 n1 n2 off2 a b c : Z) : Z :=
  2 * (n0 * a + n1 * b + n2 * c) + off2 * 256000.

(** The samples that a row with exact value [n / 512000] can yield under an
    accurate rounding: the clamp bounds, or an integer [q] with
    [q <= n / 512000 <= q + 1].  Both ends are admitted because the rounded
    value of a row whose exact value is an integer may fall on either side
    of it. *)
Definition row_sample (n q : Z) : Prop :=
  (n <= 0 /\ q = 0) \/
  (256 * 512000 <= n /\ q = 255) \/
  (0 <= q <= 255 /\ 512000 * q <= n <= 512000 * q + 512000).

(** ** Loops *)

(** [n] iterations of a body that sees the loop variable, which starts at
    [i] and grows by [step]. *)
Fixpoint for_iter {S : Type} (n : nat) (i step : Z) (body : Z -> S -> S)
  (s : S) : S :=
  match n with
  | O => s
  | Datatypes.S n' => for_iter n' (i + step) step body (body i s)
  end.

(** [for (i = lo; i < hi; i += step) body], for [step >= 1]. *)
Definition for_loop {S : Type} (lo hi step : Z) (body : Z -> S -> S) (s : S)
  : S :=
  for_iter (Z.to_nat ((hi - lo + step - 1) / step)) lo step body s.

(** The same loop with a body that can fail: the first failure ends the
    run. *)
Definition for_loop_err {S : Type} (lo hi step : Z)
  (body : Z -> S -> option S) (s : S) : option S :=
  for_loop lo hi step (fun i m => s <- m ;; body i s) (Some s).

(** An array filled by [for (i = 0; i < n; ++i) a[i] = f(i)]. *)
Definition LUT {A : Type} (n : Z) (f : Z -> A) : list A :=
  map (fun k => f (Z.of_nat k)) (seq 0 (Z.to_nat n)).

(** [a[i]] for an array held as a list. *)
Definition index {A : Type} (a : list A) (i : Z) (d : A) : A :=
  nth (Z.to_nat i) a d.

(** ** ImageResize.cpp: gamma tables built in [main] *)

(** [pow] of <math.h> on the arguments the tables give it: a base that is
    not negative, and an exponent that is positive when the base is 0. *)
Definition pow (x y : R) : R :=
  if Req_dec_T y 0 then 1%R
  else if Req_dec_T x 0 then 0%R
  else Rpower x y.

Definition make_fwdGamma (gamma : R) : list R :=
  LUT FWD_GAMMA_LUTSIZE (fun i => pow (IZR i / IZR PIXMAX) gamma).

Definition make_bwdGamma (gamma : R) : list Z :=
  let invGamma := (1 / gamma)%R in
  LUT BWD_GAMMA_LUTSIZE
    (fun i =>
       PIXEL_of_double
         (CLAMP (IZR PIXMAX * pow (IZR i / IZR BWD_GAMMA_LUTSIZE) invGamma
                 + 0.5)%R
                0%R (IZR PIXMAX))).

(** The entry that the specification gives for index [i]. *)
Definition bwdGamma_spec (gamma : R) (i : Z) : Z :=
  PIXEL_of_double
    (CLAMP (255 * pow (IZR i / 4095) (1 / gamma) + 0.5)%R 0%R 255%R).

(** ** Utils.cpp: gamma removal and gamma correction *)

Definition DegammaImage (pImageIn pImageOut : IMAGE) (fwdGamma : list R)
  : bool * IMAGE :=
  if negb (width pImageIn =? width pImageOut)
     || negb (height pImageIn =? height pImageOut)
  then (false, pImageOut)
  else
    match pixArray pImageIn with
    | None => (false, pImageOut)
    | Some src =>
        match dblPixArray pImageOut with
        | None => (false, pImageOut)
        | Some dst =>
            if negb (ColorSpaces_eqb (colorSpace pImageIn)
                       (colorSpace pImageOut))
            then (false, pImageOut)
            else
              let rows (plane : Z) (cell : Z -> R) (dst : Array3.t R) :=
                for_loop 0 (height pImageIn) 1 (fun y dst =>
                  for_loop 0 (width pImageIn) 1 (fun x dst =>
                    let pixval :=
                      CLAMP (Array3.get src plane y x) 0
                            (FWD_GAMMA_LUTSIZE - 1) in
                    Array3.set dst plane y x (cell pixval)) dst) dst in
              let lut (pixval : Z) : R := index fwdGamma pixval 0%R in
              let dst :=
                if ColorSpaces_eqb (colorSpace pImageIn) RGB
                then
                  for_loop R_PLANE (B_PLANE + 1) 1
                    (fun plane dst => rows plane lut dst) dst
                else
                  let dst := rows Y_PLANE lut dst in
                  for_loop U_PLANE (V_PLANE + 1) 1
                    (fun plane dst =>
                       rows plane
                         (fun pixval =>
                            (IZR pixval / IZR (FWD_GAMMA_LUTSIZE - 1))%R)
                         dst) dst in
              (true, with_dblPixArray pImageOut dst)
        end
    end.

Definition GammaImage (pImageIn pImageOut : IMAGE) (bwdGamma : list Z)
  : bool * IMAGE :=
  if negb (width pImageIn =? width pImageOut)
     || negb (height pImageIn =? height pImageOut)
  then (false, pImageOut)
  else
    match dblPixArray pImageIn with
    | None => (false, pImageOut)
    | Some src =>
        match pixArray pImageOut with
        | None => (false, pImageOut)
        | Some dst =>
            if negb (ColorSpaces_eqb (colorSpace pImageIn)
                       (colorSpace pImageOut))
            then (false, pImageOut)
            else
              let rows (plane : Z) (cell : R -> Z) (dst : Array3.t Z) :=
                for_loop 0 (height pImageIn) 1 (fun y dst =>
                  for_loop 0 (width pImageIn) 1 (fun x dst =>
                    Array3.set dst plane y x
                      (cell (Array3.get src plane y x))) dst) dst in
              let lut (v : R) : Z :=
                let pixval : Z :=
                  ctrunc (CLAMP (v * IZR (BWD_GAMMA_LUTSIZE - 1) + 0.5)%R
                                0%R (IZR (BWD_GAMMA_LUTSIZE - 1))) in
                index bwdGamma pixval 0 in
              let dst :=
                if ColorSpaces_eqb (colorSpace pImageIn) RGB
                then
                  for_loop R_PLANE (B_PLANE + 1) 1
                    (fun plane dst => rows plane lut dst) dst
                else
                  let dst := rows Y_PLANE lut dst in
                  for_loop U_PLANE (V_PLANE + 1) 1
                    (fun plane dst =>
                       rows plane
                         (fun v =>
                            PIXEL_of_double
                              (CLAMP
                                 (v * IZR (FWD_GAMMA_LUTSIZE - 1) + 0.5)%R
                                 0%R (IZR (FWD_GAMMA_LUTSIZE - 1))))
                         dst) dst in
              (true, with_pixArray pImageOut dst)
        end
    end.

(** The four checks that both gamma stages make on their arguments; the
    first buffer is the one read, the second the one written. *)
Definition gamma_args_ok {A B : Type} (pImageIn pImageOut : IMAGE)
  (src : option A) (dst : option B) : Prop :=
  width pImageIn = width pImageOut /\
  height pImageIn = height pImageOut /\
  src <> None /\ dst <> None /\
  colorSpace pImageIn = colorSpace pImageOut.

(** ** ImageResize.cpp: the Lanczos-2 kernel *)

Definition M_PI : R := 3.14159265358979323846.
Definition EPSILON : R := 0.0000125.
Definition LANCZOS2_NUMTAPS : R := 2.0.

Definition sinc (x : R) : R :=
  let x := (x * M_PI)%R in
  if cless x EPSILON && cless (- EPSILON)%R x
  then (1 + x * x * (-1 / 6 + x * x / 120))%R
  else (sin x / x)%R.

Definition fabsThresh (x thresh : R) : R :=
  if cless (Rabs x) thresh then 0%R else x.

Definition lanczos2Filter (t : R) : R :=
  let R := LANCZOS2_NUMTAPS in
  let t := if cless t 0%R then (- t)%R else t in
  if cless t R
  then fabsThresh (sinc t * sinc (t / R)) EPSILON
  else 0%R.

(** ** ImageResize.cpp: contribution tables *)

(** [a[i] = v] and [a[i][k] = v] on arrays held as total maps. *)
Definition upd1 {A : Type} (a : Z -> A) (i : Z) (v : A) : Z -> A :=
  fun i' => if i' =? i then v else a i'.

Definition upd2 {A : Type} (a : Z -> Z -> A) (i k : Z) (v : A)
  : Z -> Z -> A :=
  fun i' k' => if (i' =? i) && (k' =? k) then v else a i' k'.

(** [floor] and [ceil] of <math.h>, followed by the conversion to [int]. *)
Definition floor (x : R) : Z := Int_part x.
Definition ceil (x : R) : Z := (- Int_part (- x))%Z.

(** [typedef struct { ... } ContribTable;] *)
Record ContribTable := mkContribTable {
  filterWeights : Z -> Z -> R;
  contribPixPos : Z -> Z -> Z;
  numContribPixels : Z -> Z;
  weightsSum : Z -> R
}.

(** The table as [calloc] leaves it. *)
Definition empty_ContribTable : ContribTable :=
  mkContribTable (fun _ _ => 0%R) (fun _ _ => 0) (fun _ => 0) (fun _ => 0%R).

(** The body of the loop over the candidate source index [j], for the
    target index [i]. *)
Definition contrib_step (inDimSize : Z) (edgeMethod : EdgeMethod)
  (center filterScale : R) (i j : Z) (t : ContribTable) : ContribTable :=
  if EdgeMethod_eqb edgeMethod NOCONTRIB && ((j <? 0) || (j >? inDimSize))
  then t
  else
    let weight := lanczos2Filter ((center - IZR j) * filterScale)%R in
    if Req_dec_T weight 0 then t
    else
      let x := HandleEdgeCase j inDimSize edgeMethod in
      let n := numContribPixels t i in
      mkContribTable
        (upd2 (filterWeights t) i n weight)
        (upd2 (contribPixPos t) i n x)
        (upd1 (numContribPixels t) i (n + 1))
        (upd1 (weightsSum t) i (weightsSum t i + weight)%R).

(** [MakeContribTable]; the storage is taken to be allocated, so the table
    is returned where the source returns TRUE.  Rows are total maps: the
    capacity [maxTaps] of a row is not part of the model. *)
Definition MakeContribTable (inDimSize outDimSize : Z)
  (edgeMethod : EdgeMethod) : ContribTable :=
  let scaleRatio := (IZR outDimSize / IZR inDimSize)%R in
  let '(filterScale, scaledHalfTaps) :=
    if cless 1%R scaleRatio
    then (1%R, LANCZOS2_NUMTAPS)
    else (scaleRatio, (LANCZOS2_NUMTAPS / scaleRatio)%R) in
  for_loop 0 outDimSize 1
    (fun i t =>
       let center := ((IZR i + 0.5) / scaleRatio - 0.5)%R in
       let left := floor (center - scaledHalfTaps) in
       let right := ceil (center + scaledHalfTaps) in
       for_loop left (right + 1) 1
         (contrib_step inDimSize edgeMethod center filterScale i) t)
    empty_ContribTable.

(** The sum of the first [n] entries of a row, accumulated in index order
    from 0, as [weightsSum[i] += weight] accumulates it. *)
Definition sum_first (n : Z) (a : Z -> R) : R :=
  for_loop 0 n 1 (fun k acc => (acc + a k)%R) 0%R.

(** Every row's stored sum is the sum of its stored weights. *)
Definition sums_agree (t : ContribTable) : Prop :=
  forall r : Z,
    0 <= numContribPixels t r /\
    weightsSum t r = sum_first (numContribPixels t r) (filterWeights t r).

(** Every stored source index lies inside the source dimension. *)
Definition positions_inside (inDimSize : Z) (t : ContribTable) : Prop :=
  forall r : Z,
    0 <= numContribPixels t r /\
    forall k : Z, 0 <= k < numContribPixels t r ->
      0 <= contribPixPos t r k <= inDimSize - 1.

(** Row [r] holds the single contributor [r] with weight 1. *)
Definition identity_row (t : ContribTable) (r : Z) : Prop :=
  numContribPixels t r = 1 /\
  contribPixPos t r 0 = r /\
  filterWeights t r 0 = 1%R /\
  weightsSum t r = (0 + 1)%R.

(** Row [r] is as [calloc] left it. *)
Definition empty_row (t : ContribTable) (r : Z) : Prop :=
  numContribPixels t r = 0 /\ weightsSum t r = 0%R.

(** ** Utils.cpp: whole-image colour conversion and copy *)

Definition PixelPrecision_eqb (a b : PixelPrecision) : bool :=
  match a, b with
  | BPP8, BPP8 | DOUBLE, DOUBLE => true
  | _, _ => false
  end.

(** The loop of [RGBImage2YUV] that converts every pixel of [pImageIn] into
    [dst], over the [w] by [h] pixels of the output. *)
Definition RGB2YUV444_loop (fl : RowRounding) (pImageIn dst : IMAGE)
  (w h : Z) : IMAGE :=
  for_loop 0 h 1 (fun y dst =>
    for_loop 0 w 1 (fun x dst =>
      let rgbPixel := snd (GetPixel pImageIn y x REPEAT) in
      let yuvPixel := RGBPixel2YUV fl rgbPixel in
      SetPixel dst y x yuvPixel) dst) dst.

(** [(a + 2 * b + c + 2) / 4] stored into a [PIXEL]. *)
Definition avg_121 (a b c : Z) : Z := PIXEL_of_int (Z.quot (a + 2 * b + c + 2) 4).

(** [(a + b + c + d + 2) / 4] stored into a [PIXEL]. *)
Definition avg_4 (a b c d : Z) : Z := PIXEL_of_int (Z.quot (a + b + c + d + 2) 4).

(** [case YUV422:] of the downsampling switch. *)
Definition Downsample422 (tempImage pImageOut : IMAGE) : IMAGE :=
  for_loop 0 (height pImageOut) 1 (fun y out =>
    for_loop 0 (width pImageOut) 2 (fun x out =>
      let u := avg_121 (GetSubPixel tempImage y (x - 1) REPEAT U_PLANE)
                       (GetSubPixel tempImage y x REPEAT U_PLANE)
                       (GetSubPixel tempImage y (x + 1) REPEAT U_PLANE) in
      let v := avg_121 (GetSubPixel tempImage y (x - 1) REPEAT V_PLANE)
                       (GetSubPixel tempImage y x REPEAT V_PLANE)
                       (GetSubPixel tempImage y (x + 1) REPEAT V_PLANE) in
      let y0 := GetSubPixel tempImage y x REPEAT Y_PLANE in
      let out := SetPixel out y x (y0, u, v) in
      SetSubPixel out y (x + 1) Y_PLANE
        (GetSubPixel tempImage y (x + 1) REPEAT Y_PLANE)) out) pImageOut.

(** The body of the [case YUV420:] loops, for the block at [(y, x)]. *)
Definition Downsample420_block (tempImage : IMAGE) (y x : Z) (out : IMAGE)
  : IMAGE :=
  let u := avg_4 (GetSubPixel tempImage y x REPEAT U_PLANE)
                 (GetSubPixel tempImage y (x + 1) REPEAT U_PLANE)
                 (GetSubPixel tempImage (y + 1) x REPEAT U_PLANE)
                 (GetSubPixel tempImage (y + 1) (x + 1) REPEAT U_PLANE) in
  let v := avg_4 (GetSubPixel tempImage y x REPEAT V_PLANE)
                 (GetSubPixel tempImage y (x + 1) REPEAT V_PLANE)
                 (GetSubPixel tempImage (y + 1) x REPEAT V_PLANE)
                 (GetSubPixel tempImage (y + 1) (x + 1) REPEAT V_PLANE) in
  let y0 := GetSubPixel tempImage y x REPEAT Y_PLANE in
  let out := SetPixel out y x (y0, u, v) in
  let out := SetSubPixel out y (x + 1) Y_PLANE
               (GetSubPixel tempImage y (x + 1) REPEAT Y_PLANE) in
  let out := SetSubPixel out (y + 1) x Y_PLANE
               (GetSubPixel tempImage (y + 1) x REPEAT Y_PLANE) in
  SetSubPixel out (y + 1) (x + 1) Y_PLANE
    (GetSubPixel tempImage (y + 1) (x + 1) REPEAT Y_PLANE).

(** [case YUV420:] of the downsampling switch. *)
Definition Downsample420 (tempImage pImageOut : IMAGE) : IMAGE :=
  for_loop 0 (height pImageOut) 2 (fun y out =>
    for_loop 0 (width pImageOut) 2 (fun x out =>
      Downsample420_block tempImage y x out) out) pImageOut.

(** The full-resolution YUV444 image that [RGBImage2YUV] builds before it
    downsamples. *)
Definition RGBImage2YUV_temp (fl : RowRounding) (pImageIn pImageOut : IMAGE)
  : IMAGE :=
  RGB2YUV444_loop fl pImageIn
    (CreateImage YUV444 (width pImageOut) (height pImageOut) BPP8)
    (width pImageOut) (height pImageOut).

Definition RGBImage2YUV (fl : RowRounding) (pImageIn pImageOut : IMAGE)
  : bool * IMAGE :=
  if negb (ColorSpaces_eqb (colorSpace pImageOut) YUV444)
     && negb (ColorSpaces_eqb (colorSpace pImageOut) YUV422)
     && negb (ColorSpaces_eqb (colorSpace pImageOut) YUV420)
  then (false, pImageOut)
  else if negb (PixelPrecision_eqb (precision pImageIn) BPP8)
          || negb (PixelPrecision_eqb (precision pImageOut) BPP8)
  then (false, pImageOut)
  else if ColorSpaces_eqb (colorSpace pImageOut) YUV444
  then (true, RGB2YUV444_loop fl pImageIn pImageOut
                (width pImageOut) (height pImageOut))
  else
    let tempImage := RGBImage2YUV_temp fl pImageIn pImageOut in
    match colorSpace pImageOut with
    | YUV422 => (true, Downsample422 tempImage pImageOut)
    | YUV420 => (true, Downsample420 tempImage pImageOut)
    | _ => (true, pImageOut)
    end.

(** [memcpy] of the [3 * h * w] samples of a buffer. *)
Definition memcpy3 {A : Type} (dst src : Array3.t A) (h w : Z) : Array3.t A :=
  fun p y x =>
    if (0 <=? p) && (p <? 3) && (0 <=? y) && (y <? h)
       && (0 <=? x) && (x <? w)
    then src p y x else dst p y x.

Definition is_some {A : Type} (o : option A) : bool :=
  match o with Some _ => true | None => false end.

Definition CopyImage (pImageIn pImageOut : IMAGE) : bool * IMAGE :=
  if negb (width pImageIn =? width pImageOut)
     || negb (height pImageIn =? height pImageOut)
  then (false, pImageOut)
  else if negb ((is_some (pixArray pImageIn) && is_some (pixArray pImageOut))
                || (is_some (dblPixArray pImageIn)
                    && is_some (dblPixArray pImageOut)))
  then (false, pImageOut)
  else
    let copied : option IMAGE :=
      match pixArray pImageIn, dblPixArray pImageIn with
      | Some src, _ =>
          match pixArray pImageOut with
          | Some dst =>
              Some (with_pixArray pImageOut
                      (memcpy3 dst src (height pImageIn) (width pImageIn)))
          | None => Some pImageOut
          end
      | None, Some src =>
          match dblPixArray pImageOut with
          | Some dst =>
              Some (with_dblPixArray pImageOut
                      (memcpy3 dst src (height pImageIn) (width pImageIn)))
          | None => Some pImageOut
          end
      | None, None => None
      end in
    match copied with
    | None => (false, pImageOut)
    | Some out =>
        (true, mkIMAGE (colorSpace pImageIn) (height out) (width out)
                 (precision pImageIn) (pixArray out) (dblPixArray out))
    end.

(** ** ImageResize.cpp: the separable resampler *)

Definition Filter1DHorz (pImageIn pImageOut : IMAGE) (x y plane : Z)
  (edgeMethod : EdgeMethod) (contribs : ContribTable) : option IMAGE :=
  tmpResult <-
    for_loop_err 0 (numContribPixels contribs x) 1
      (fun k tmpResult =>
         tmpPixel <- read_dbl pImageIn plane y (contribPixPos contribs x k) ;;
         Some (tmpResult + filterWeights contribs x k * tmpPixel)%R) 0%R ;;
  let tmpResult := (tmpResult / weightsSum contribs x)%R in
  let outPixel := CLAMP tmpResult 0%R 1.0%R in
  write_dbl pImageOut plane y x outPixel.

Definition Filter1DVert (pImageIn pImageOut : IMAGE) (x y plane : Z)
  (edgeMethod : EdgeMethod) (contribs : ContribTable) : option IMAGE :=
  tmpResult <-
    for_loop_err 0 (numContribPixels contribs y) 1
      (fun k tmpResult =>
         tmpPixel <- read_dbl pImageIn plane (contribPixPos contribs y k) x ;;
         Some (tmpResult + filterWeights contribs y k * tmpPixel)%R) 0%R ;;
  let tmpResult := (tmpResult / weightsSum contribs y)%R in
  let outPixel := CLAMP tmpResult 0%R 1.0%R in
  write_dbl pImageOut plane y x outPixel.

(** [xinc] and [yinc] of [ResizeImage]. *)
Definition chroma_inc (cs : ColorSpaces) : Z * Z :=
  match cs with
  | YUV420 => (2, 2)
  | YUV422 => (2, 1)
  | _ => (1, 1)
  end.

(** The horizontal half of [ResizeImage]: the image [imageTmp] as it
    stands when the vertical half begins. *)
Definition ResizeImage_horizontal (pImageIn : IMAGE) (outWidth : Z)
  (edgeMethod : EdgeMethod) : option IMAGE :=
  let '(xinc, yinc) := chroma_inc (colorSpace pImageIn) in
  let imageTmp :=
    CreateImage (colorSpace pImageIn) outWidth (height pImageIn) DOUBLE in
  let contribs := MakeContribTable (width pImageIn) outWidth edgeMethod in
  let contribsUV :=
    match colorSpace pImageIn with
    | YUV420 | YUV422 =>
        MakeContribTable (Z.quot (width pImageIn) 2) (Z.quot outWidth 2)
          edgeMethod
    | _ => contribs
    end in
  imageTmp <-
    for_loop_err 0 (height pImageIn) 1 (fun y tmp =>
      for_loop_err 0 outWidth 1 (fun x tmp =>
        Filter1DHorz pImageIn tmp x y Y_PLANE edgeMethod contribs) tmp)
      imageTmp ;;
  let UVwidth := Z.quot outWidth xinc in
  let UVheight := Z.quot (height pImageIn) yinc in
  for_loop_err U_PLANE (V_PLANE + 1) 1 (fun plane tmp =>
    for_loop_err 0 UVheight 1 (fun y tmp =>
      for_loop_err 0 UVwidth 1 (fun x tmp =>
        Filter1DHorz pImageIn tmp x y plane edgeMethod contribsUV) tmp) tmp)
    imageTmp.

(** The vertical half of [ResizeImage], from [imageTmp] into the output. *)
Definition ResizeImage_vertical (pImageIn imageTmp pImageOut : IMAGE)
  (edgeMethod : EdgeMethod) : option IMAGE :=
  let '(xinc, yinc) := chroma_inc (colorSpace pImageIn) in
  let contribs :=
    MakeContribTable (height pImageIn) (height pImageOut) edgeMethod in
  let contribsUV :=
    match colorSpace pImageIn with
    | YUV420 =>
        MakeContribTable (Z.quot (height pImageIn) 2)
          (Z.quot (height pImageOut) 2) edgeMethod
    | _ => contribs
    end in
  out <-
    for_loop_err 0 (height pImageOut) 1 (fun y out =>
      for_loop_err 0 (width pImageOut) 1 (fun x out =>
        Filter1DVert imageTmp out x y Y_PLANE edgeMethod contribs) out)
      pImageOut ;;
  let UVwidth := Z.quot (width pImageOut) xinc in
  let UVheight := Z.quot (height pImageOut) yinc in
  for_loop_err U_PLANE (V_PLANE + 1) 1 (fun plane out =>
    for_loop_err 0 UVheight 1 (fun y out =>
      for_loop_err 0 UVwidth 1 (fun x out =>
        Filter1DVert imageTmp out x y plane edgeMethod contribsUV) out) out)
    out.

(** [ResizeImage]: [Some (b, out)] when it returns [b] with the output
    image [out], [None] when it dereferences a NULL buffer. *)
Definition ResizeImage (pImageIn pImageOut : IMAGE) (edgeMethod : EdgeMethod)
  : option (bool * IMAGE) :=
  if (width pImageIn =? width pImageOut)
     && (height pImageIn =? height pImageOut)
  then Some (true, snd (CopyImage pImageIn pImageOut))
  else
    imageTmp <-
      ResizeImage_horizontal pImageIn (width pImageOut) edgeMethod ;;
    if height pImageIn =? height pImageOut
    then Some (true, snd (CopyImage imageTmp pImageOut))
    else
      out <- ResizeImage_vertical pImageIn imageTmp pImageOut edgeMethod ;;
      Some (true, out).

(** The samples of an image: three planes over its width and height. *)
Definition sample_at (im : IMAGE) (plane y x : Z) : Prop :=
  0 <= plane < 3 /\ 0 <= y < height im /\ 0 <= x < width im.

(** The second image has the fields of the first and holds the same kinds
    of buffer. *)
Definition same_frame (a b : IMAGE) : Prop :=
  colorSpace b = colorSpace a /\ height b = height a /\ width b = width a /\
  precision b = precision a /\
  is_some (pixArray b) = is_some (pixArray a) /\
  is_some (dblPixArray b) = is_some (dblPixArray a).

(** The value that block [(r, c)] of chroma plane [p] receives. *)
Definition block_average (tempImage : IMAGE) (p r c : Z) : Z :=
  avg_4 (GetSubPixel tempImage (2 * r) (2 * c) REPEAT p)
        (GetSubPixel tempImage (2 * r) (2 * c + 1) REPEAT p)
        (GetSubPixel tempImage (2 * r + 1) (2 * c) REPEAT p)
        (GetSubPixel tempImage (2 * r + 1) (2 * c + 1) REPEAT p).

(** Every sample is an 8-bit value. *)
Definition samples_are_pixels (im : IMAGE) : Prop :=
  forall p r c : Z, 0 <= pix im p r c <= 255.

(** A 2x2 YUV444 image whose U samples are 10, 20, 30 and 40. *)
Definition example_block : IMAGE :=
  let im := CreateImage YUV444 2 2 BPP8 in
  let im := set_pix im U_PLANE 0 0 10 in
  let im := set_pix im U_PLANE 0 1 20 in
  let im := set_pix im U_PLANE 1 0 30 in
  set_pix im U_PLANE 1 1 40.

(** The samples that the horizontal pass writes: the whole first plane,
    and the two other planes over the subsampled grid. *)
Definition filtered_sample (cs : ColorSpaces) (h w : Z) (p y x : Z) : Prop :=
  (p = Y_PLANE /\ 0 <= y < h /\ 0 <= x < w) \/
  ((p = U_PLANE \/ p = V_PLANE) /\
   0 <= y < Z.quot h (snd (chroma_inc cs)) /\
   0 <= x < Z.quot w (fst (chroma_inc cs))).

(** The linear-light value that [DegammaImage] stores for the 8-bit sample
    [v] of plane [p]: through the table for every RGB plane and for luma,
    [v / 255] for the chroma of a YUV image. *)
Definition degamma_sample (cs : ColorSpaces) (fwdGamma : list R) (p v : Z)
  : R :=
  let pixval := CLAMP v 0 (FWD_GAMMA_LUTSIZE - 1) in
  if ColorSpaces_eqb cs RGB || (p =? Y_PLANE)
  then index fwdGamma pixval 0%R
  else (IZR pixval / IZR (FWD_GAMMA_LUTSIZE - 1))%R.

(** The 8-bit value that [GammaImage] stores for the linear-light sample
    [v] of plane [p]. *)
Definition gamma_sample (cs : ColorSpaces) (bwdGamma : list Z) (p : Z) (v : R)
  : Z :=
  if ColorSpaces_eqb cs RGB || (p =? Y_PLANE)
  then index bwdGamma
         (ctrunc (CLAMP (v * IZR (BWD_GAMMA_LUTSIZE - 1) + 0.5)%R
                        0%R (IZR (BWD_GAMMA_LUTSIZE - 1)))) 0
  else PIXEL_of_double
         (CLAMP (v * IZR (FWD_GAMMA_LUTSIZE - 1) + 0.5)%R
                0%R (IZR (FWD_GAMMA_LUTSIZE - 1))).

(** ** Utils.cpp: the accessor without edge handling *)

(** [GetSubPixel] without edge handling. *)
Definition GetSubPixel_unchecked (im : IMAGE) (y x : Z) (plane : Z) : Z :=
  let '(x, y) :=
    if (plane =? U_PLANE) || (plane =? V_PLANE)
    then HandleColorspaceAddress x y (colorSpace im) else (x, y) in
  pix im plane y x.

(** The chroma cell [(row, column)] that holds the chroma of pixel
    [(y, x)]. *)
Definition chroma_cell (cs : ColorSpaces) (y x : Z) : Z * Z :=
  let '(cx, cy) := HandleColorspaceAddress x y cs in (cy, cx).

(** ** ImageResize.cpp: the capacity of a table row *)


(** Every double sample of the image lies in [0, 1]. *)
Definition unit_samples (im : IMAGE) : Prop :=
  forall p y x : Z, (0 <= dbl im p y x <= 1)%R.

(** ** Utils.cpp: YUV to RGB for whole images *)

(** [GetPixel], [YUVPixel2RGB], [SetPixel] for the pixel at [(y, x)]. *)
Definition YUV2RGB_at (fl : RowRounding) (pImageIn : IMAGE) (y x : Z)
  (out : IMAGE) : IMAGE :=
  let yuvPixel := snd (GetPixel pImageIn y x REPEAT) in
  let rgbPixel := YUVPixel2RGB fl yuvPixel in
  SetPixel out y x rgbPixel.

Definition YUVImage2RGB (fl : RowRounding) (pImageIn pImageOut : IMAGE)
  : bool * IMAGE :=
  if negb (ColorSpaces_eqb (colorSpace pImageIn) YUV444)
     && negb (ColorSpaces_eqb (colorSpace pImageIn) YUV422)
     && negb (ColorSpaces_eqb (colorSpace pImageIn) YUV420)
  then (false, pImageOut)
  else if negb (PixelPrecision_eqb (precision pImageIn) BPP8)
          || negb (PixelPrecision_eqb (precision pImageOut) BPP8)
  then (false, pImageOut)
  else
    match colorSpace pImageIn with
    | YUV444 =>
        (true,
         for_loop 0 (height pImageOut) 1 (fun y out =>
           for_loop 0 (width pImageOut) 1 (fun x out =>
             YUV2RGB_at fl pImageIn y x out) out) pImageOut)
    | YUV422 =>
        (true,
         for_loop 0 (height pImageOut) 1 (fun y out =>
           for_loop 0 (width pImageOut) 2 (fun x out =>
             let out := YUV2RGB_at fl pImageIn y x out in
             YUV2RGB_at fl pImageIn y (x + 1) out) out) pImageOut)
    | YUV420 =>
        (true,
         for_loop 0 (height pImageOut) 2 (fun y out =>
           for_loop 0 (width pImageOut) 2 (fun x out =>
             let out := YUV2RGB_at fl pImageIn y x out in
             let out := YUV2RGB_at fl pImageIn y (x + 1) out in
             let out := YUV2RGB_at fl pImageIn (y + 1) x out in
             YUV2RGB_at fl pImageIn (y + 1) (x + 1) out) out) pImageOut)
    | _ => (false, pImageOut)
    end.

(** The three samples stored at row [y], column [x] of the three planes. *)
Definition pixel_at (im : IMAGE) (y x : Z) : Pixel :=
  (pix im Y_PLANE y x, pix im U_PLANE y x, pix im V_PLANE y x).

(** ** Utils.cpp: colour space conversion of whole images *)

Definition is_YUV (cs : ColorSpaces) : bool :=
  ColorSpaces_eqb cs YUV422 || ColorSpaces_eqb cs YUV444
  || ColorSpaces_eqb cs YUV420.

Definition ConvertImage (fl : RowRounding) (pImageIn pImageOut : IMAGE)
  : bool * IMAGE :=
  if negb (width pImageIn =? width pImageOut)
     || negb (height pImageIn =? height pImageOut)
  then (false, pImageOut)
  else if ColorSpaces_eqb (colorSpace pImageIn) RGB
          && is_YUV (colorSpace pImageOut)
  then
    let r := RGBImage2YUV fl pImageIn pImageOut in
    if negb (fst r) then (false, snd r) else (true, snd r)
  else if is_YUV (colorSpace pImageIn)
          && ColorSpaces_eqb (colorSpace pImageOut) RGB
  then
    let r := YUVImage2RGB fl pImageIn pImageOut in
    if negb (fst r) then (false, snd r) else (true, snd r)
  else if ColorSpaces_eqb (colorSpace pImageIn) (colorSpace pImageOut)
  then
    let r := CopyImage pImageIn pImageOut in
    if negb (fst r) then (false, snd r) else (true, snd r)
  else (false, pImageOut).

(** The condition under which the pixel writers return at once. *)
Definition out_of_bounds (im : IMAGE) (y x : Z) : Prop :=
  y < 0 \/ x < 0 \/ y >= height im \/ x >= width im.

(** * Properties *)

(** ** Buffers *)

Lemma Array3_get_set_same {A} (m : Array3.t A) p y x v :
  Array3.get (Array3.set m p y x v) p y x = v.
Proof. unfold Array3.get, Array3.set. now rewrite !Z.eqb_refl. Qed.

Lemma Array3_get_set_other {A} (m : Array3.t A) p y x v p' y' x' :
  (p', y', x') <> (p, y, x) ->
  Array3.get (Array3.set m p y x v) p' y' x' = Array3.get m p' y' x'.
Proof.
  intros Hne. unfold Array3.get, Array3.set.
  destruct (Z.eqb_spec p' p), (Z.eqb_spec y' y), (Z.eqb_spec x' x);
    simpl; try reflexivity.
  subst. now elim Hne.
Qed.

(** ** Properties of the edge resolver and of the pixel writers *)

Lemma CLAMP_Z_range (x a b : Z) : a <= b -> a <= CLAMP x a b <= b.
Proof.
  intros Hab. unfold CLAMP, cless, CLess_Z.
  destruct (Z.ltb_spec x a); [lia|].
  destruct (Z.ltb_spec b x); lia.
Qed.

Lemma CLAMP_Z_id (x a b : Z) : a <= x <= b -> CLAMP x a b = x.
Proof.
  intros Hx. unfold CLAMP, cless, CLess_Z.
  destruct (Z.ltb_spec x a); [lia|].
  destruct (Z.ltb_spec b x); lia.
Qed.

Lemma HandleEdgeCase_range (i dim : Z) (m : EdgeMethod) :
  1 <= dim -> 0 <= HandleEdgeCase i dim m <= dim - 1.
Proof. intros Hd. unfold HandleEdgeCase. apply CLAMP_Z_range. lia. Qed.

Lemma HandleEdgeCase_inside (i dim : Z) (m : EdgeMethod) :
  0 <= i < dim -> HandleEdgeCase i dim m = i.
Proof.
  intros Hi. unfold HandleEdgeCase.
  destruct m; try (apply CLAMP_Z_id; lia).
  destruct (Z.ltb_spec i 0); [lia|].
  destruct (Z.geb_spec i dim); [lia|].
  apply CLAMP_Z_id; lia.
Qed.

(** C5: for every dimension [dim >= 1], MIRROR sends coordinate -1 to the
    index it gives coordinate +1, REPEAT sends -1 to index 0, and every
    policy resolves every coordinate to an index in [0, dim-1]. *)
Theorem HandleEdgeCase_policies (dim : Z) (Hdim : 1 <= dim) :
  HandleEdgeCase (-1) dim MIRROR = HandleEdgeCase 1 dim MIRROR /\
  HandleEdgeCase (-1) dim REPEAT = 0 /\
  HandleEdgeCase (-1) dim REPEAT = HandleEdgeCase 0 dim REPEAT /\
  forall (i : Z) (m : EdgeMethod), 0 <= HandleEdgeCase i dim m <= dim - 1.
Proof.
  split; [reflexivity|].
  assert (H0 : HandleEdgeCase (-1) dim REPEAT = 0).
  { unfold HandleEdgeCase, CLAMP, cless, CLess_Z. reflexivity. }
  split; [exact H0|].
  split.
  - rewrite H0. symmetry. apply HandleEdgeCase_inside. lia.
  - intros i m. now apply HandleEdgeCase_range.
Qed.

Lemma HandleEdgeCase_policies_witness :
  1 <= 4 /\
  HandleEdgeCase (-1) 4 MIRROR = HandleEdgeCase 1 4 MIRROR /\
  HandleEdgeCase (-1) 4 REPEAT = 0 /\
  HandleEdgeCase (-1) 4 REPEAT = HandleEdgeCase 0 4 REPEAT /\
  forall (i : Z) (m : EdgeMethod), 0 <= HandleEdgeCase i 4 m <= 4 - 1.
Proof. split; [lia | apply (HandleEdgeCase_policies 4); lia]. Defined.

Lemma in_bounds_false (im : IMAGE) (y x : Z) :
  out_of_bounds im y x -> in_bounds im y x = false.
Proof.
  unfold out_of_bounds, in_bounds. intros H.
  destruct (Z.geb_spec y 0), (Z.geb_spec x 0),
    (Z.ltb_spec y (height im)), (Z.ltb_spec x (width im));
    simpl; try reflexivity; lia.
Qed.

(** C9: a write at a coordinate outside the image returns the image as it
    was, for [SetPixel] and for [SetSubPixel] on every plane. *)
Theorem Set_out_of_bounds_noop (im : IMAGE) (y x : Z)
  (Hout : out_of_bounds im y x) :
  (forall pixel, SetPixel im y x pixel = im) /\
  (forall plane pixVal, SetSubPixel im y x plane pixVal = im).
Proof.
  split; intros; unfold SetPixel, SetSubPixel;
    now rewrite (in_bounds_false _ _ _ Hout).
Qed.

Lemma Set_out_of_bounds_noop_witness :
  let im := CreateImage YUV420 4 2 BPP8 in
  out_of_bounds im 2 1 /\
  (forall pixel, SetPixel im 2 1 pixel = im) /\
  (forall plane pixVal, SetSubPixel im 2 1 plane pixVal = im).
Proof.
  intro im.
  assert (H : out_of_bounds im 2 1) by (right; right; left; simpl; lia).
  split; [exact H | exact (Set_out_of_bounds_noop im 2 1 H)].
Defined.

(** ** Colour conversion *)

Lemma PIXEL_of_clamped (q : Q) :
  PIXEL_of_double (CLAMP q 0%Q (inject_Z PIXMAX)) = CLAMP (Qfloor q) 0 255.
Proof.
  unfold PIXEL_of_double, PIXEL_of_int, CLAMP, cless, CLess_Q, CLess_Z,
    ctrunc, CTrunc_Q, PIXMAX.
  destruct (Qlt_le_dec q 0) as [Hneg | Hpos].
  - assert (Qfloor q < 0).
    { destruct (Z.ltb_spec (Qfloor q) 0) as [|Hge]; [assumption|].
      exfalso. apply (Qlt_not_le _ _ Hneg).
      apply Qle_trans with (inject_Z (Qfloor q)); [|apply Qfloor_le].
      change 0%Q with (inject_Z 0). now rewrite <- Zle_Qle. }
    destruct (Z.ltb_spec (Qfloor q) 0); [reflexivity | lia].
  - assert (H0 : 0 <= Qfloor q).
    { change 0 with (Qfloor (inject_Z 0)). now apply Qfloor_resp_le. }
    destruct (Z.ltb_spec (Qfloor q) 0); [lia|].
    destruct (Qlt_le_dec (inject_Z 255) q) as [Hbig | Hsmall].
    + assert (255 <= Qfloor q).
      { change 255 with (Qfloor (inject_Z 255)).
        apply Qfloor_resp_le. now apply Qlt_le_weak. }
      destruct (Qlt_le_dec (inject_Z 255) 0) as [Habs|_]; [discriminate Habs|].
      simpl.
      destruct (Z.ltb_spec 255 (Qfloor q)); [reflexivity | ].
      change (255 = Qfloor q). lia.
    + assert (Qfloor q <= 255).
      { change 255 with (Qfloor (inject_Z 255)). now apply Qfloor_resp_le. }
      destruct (Qlt_le_dec q 0) as [Habs|_];
        [exfalso; exact (Qlt_not_le _ _ Habs Hpos)|].
      destruct (Z.ltb_spec 255 (Qfloor q)); [lia|].
      apply Z.mod_small. lia.
Qed.

(** The floor of a value within 1/512000 of [n / 512000]. *)
Lemma floor_window (v e : Q) (n : Z) :
  (v == (n # 512000) + e)%Q -> (Qabs e < 1 # 512000)%Q ->
  512000 * Qfloor v <= n <= 512000 * Qfloor v + 512000.
Proof.
  intros Hv He.
  apply Qabs_Qlt_condition in He. destruct He as [He1 He2].
  pose proof (Qfloor_le v) as Hlo. pose proof (Qlt_floor v) as Hhi.
  set (f := Qfloor v) in *. clearbody f.
  assert (Hn : (n # 512000 == inject_Z n * (1 # 512000))%Q).
  { unfold Qeq, Qmult, inject_Z. simpl. lia. }
  rewrite Hv, Hn in Hlo, Hhi. rewrite inject_Z_plus in Hhi.
  change (inject_Z 1) with 1%Q in Hhi.
  assert (H1 : (inject_Z (512000 * f) < inject_Z (n + 1))%Q).
  { rewrite inject_Z_mult, inject_Z_plus.
    change (inject_Z 512000) with 512000%Q. change (inject_Z 1) with 1%Q.
    lra. }
  assert (H2 : (inject_Z (n - 1) < inject_Z (512000 * f + 512000))%Q).
  { unfold Z.sub. rewrite !inject_Z_plus, inject_Z_mult.
    change (inject_Z 512000) with 512000%Q.
    change (inject_Z (- (1))) with (-1)%Q.
    lra. }
  rewrite <- Zlt_Qlt in H1, H2. lia.
Qed.

(** Clamping and truncating a row value. *)
Lemma clamped_row_sample (v e : Q) (n : Z) :
  (v == (n # 512000) + e)%Q -> (Qabs e < 1 # 512000)%Q ->
  row_sample n (PIXEL_of_double (CLAMP v 0%Q (inject_Z PIXMAX))).
Proof.
  intros Hv He. rewrite PIXEL_of_clamped.
  pose proof (floor_window v e n Hv He) as Hw.
  unfold row_sample, CLAMP, cless, CLess_Z.
  destruct (Z.ltb_spec (Qfloor v) 0); [left; lia|].
  destruct (Z.ltb_spec 255 (Qfloor v)); [right; left; lia|].
  right; right; lia.
Qed.

Lemma RGB_row_value (c0 c1 c2 off e : Q) (n0 n1 n2 off2 a b c : Z) :
  (c0 == n0 # 1000)%Q -> (c1 == n1 # 1000)%Q -> (c2 == n2 # 1000)%Q ->
  (off + 0.5 == off2 # 2)%Q ->
  ((c0 * inject_Z a + c1 * inject_Z b + c2 * inject_Z c) / 256
   + off + 0.5 + e
   == (row_num n0 n1 n2 off2 a b c # 512000) + e)%Q.
Proof.
  intros H0 H1 H2 H3.
  apply Qplus_comp; [|reflexivity].
  rewrite <- Qplus_assoc, H0, H1, H2, H3.
  unfold Qeq, Qplus, Qmult, Qdiv, Qinv, inject_Z. simpl.
  unfold row_num. ring.
Qed.

(** Under an accurate rounding, the three samples of [RGBPixel2YUV] are
    samples of the three exact rows. *)
Lemma RGBPixel2YUV_rows (fl : RowRounding) (r g b : Z) :
  accurate fl ->
  exists Y U V : Z,
    RGBPixel2YUV fl (r, g, b) = (Y, U, V) /\
    row_sample (row_num 65738 129057 25064 33 r g b) Y /\
    row_sample (row_num (-37946) (-74494) 112439 257 r g b) U /\
    row_sample (row_num 112439 (-94154) (-18285) 257 r g b) V.
Proof.
  intros Hfl. unfold RGBPixel2YUV.
  do 3 eexists. split; [reflexivity|].
  unfold coef, RGBtoYUV601; simpl nth.
  split; [|split].
  - apply (clamped_row_sample _ (RGB2YUV_error fl (r, g, b) 0));
      [|apply Hfl].
    apply (RGB_row_value _ _ _ _ _ 65738 129057 25064 33); reflexivity.
  - apply (clamped_row_sample _ (RGB2YUV_error fl (r, g, b) 1));
      [|apply Hfl].
    apply (RGB_row_value _ _ _ _ _ (-37946) (-74494) 112439 257);
      reflexivity.
  - apply (clamped_row_sample _ (RGB2YUV_error fl (r, g, b) 2));
      [|apply Hfl].
    apply (RGB_row_value _ _ _ _ _ 112439 (-94154) (-18285) 257);
      reflexivity.
Qed.

Lemma YUVPixel2RGB_row_Z (fl : RowRounding) (y u v : Z) (k : nat)
  (n0 n1 n2 : Z) :
  (coef YUV601toRGB k 0 == n0 # 1000)%Q ->
  (coef YUV601toRGB k 1 == n1 # 1000)%Q ->
  (coef YUV601toRGB k 2 == n2 # 1000)%Q ->
  (YUVPixel2RGB_row fl (y, u, v) k ==
   (row_num n0 n1 n2 1 (y - 16) (u - 128) (v - 128) # 512000)
   + YUV2RGB_error fl (y, u, v) k)%Q.
Proof.
  intros H0 H1 H2. unfold YUVPixel2RGB_row.
  apply Qplus_comp; [|reflexivity].
  rewrite H0, H1, H2.
  unfold coef, YUV601toRGB; simpl nth.
  unfold Qeq, Qplus, Qmult, Qdiv, Qinv, inject_Z. simpl.
  unfold row_num. ring.
Qed.

(** Under an accurate rounding, the three samples of [YUVPixel2RGB] are
    samples of the three exact rows. *)
Lemma YUVPixel2RGB_rows (fl : RowRounding) (y u v : Z) :
  accurate fl ->
  exists R G B : Z,
    YUVPixel2RGB fl (y, u, v) = (R, G, B) /\
    row_sample (row_num 298082 0 408583 1 (y - 16) (u - 128) (v - 128)) R /\
    row_sample
      (row_num 298082 (-100291) (-208120) 1 (y - 16) (u - 128) (v - 128)) G /\
    row_sample (row_num 298082 516411 0 1 (y - 16) (u - 128) (v - 128)) B.
Proof.
  intros Hfl. unfold YUVPixel2RGB.
  do 3 eexists. split; [reflexivity|].
  split; [|split].
  - apply (clamped_row_sample _ (YUV2RGB_error fl (y, u, v) 0));
      [|apply Hfl].
    apply YUVPixel2RGB_row_Z; reflexivity.
  - apply (clamped_row_sample _ (YUV2RGB_error fl (y, u, v) 1));
      [|apply Hfl].
    apply YUVPixel2RGB_row_Z; reflexivity.
  - apply (clamped_row_sample _ (YUV2RGB_error fl (y, u, v) 2));
      [|apply Hfl].
    apply YUVPixel2RGB_row_Z; reflexivity.
Qed.

Lemma RGB_YUV_RGB_bounds (fl : RowRounding) (r g b : Z) :
  accurate fl -> is_pixel (r, g, b) ->
  let '(r', g', b') := YUVPixel2RGB fl (RGBPixel2YUV fl (r, g, b)) in
  Z.abs (r' - r) <= 1 /\ Z.abs (g' - g) <= 1 /\ Z.abs (b' - b) <= 2.
Proof.
  intros Hfl (Hr & Hg & Hb).
  destruct (RGBPixel2YUV_rows fl r g b Hfl) as (Y & U & V & -> & HY & HU & HV).
  destruct (YUVPixel2RGB_rows fl Y U V Hfl)
    as (r' & g' & b' & -> & HR & HG & HB).
  unfold row_sample, row_num in *. repeat split; lia.
Qed.

Lemma unclamped_Z (fl : RowRounding) (y u v : Z) :
  accurate fl -> unclamped fl (y, u, v) ->
  0 <= row_num 298082 0 408583 1 (y - 16) (u - 128) (v - 128)
    <= 255 * 512000 /\
  0 <= row_num 298082 (-100291) (-208120) 1 (y - 16) (u - 128) (v - 128)
    <= 255 * 512000 /\
  0 <= row_num 298082 516411 0 1 (y - 16) (u - 128) (v - 128)
    <= 255 * 512000.
Proof.
  intros Hfl H.
  assert (Hrow : forall (k : nat) (n : Z),
             (k < 3)%nat ->
             (YUVPixel2RGB_row fl (y, u, v) k ==
              (n # 512000) + YUV2RGB_error fl (y, u, v) k)%Q ->
             0 <= n <= 255 * 512000).
  { intros k n Hk Hv. specialize (H k Hk). rewrite Hv in H.
    destruct (Hfl (y, u, v) k) as [_ He].
    apply Qabs_Qlt_condition in He. destruct He as [He1 He2].
    assert (Hn : (n # 512000 == inject_Z n * (1 # 512000))%Q).
    { unfold Qeq, Qmult, inject_Z. simpl. lia. }
    rewrite Hn in H. destruct H as [Hlo Hhi].
    change (inject_Z PIXMAX) with 255%Q in Hhi.
    assert (H1 : (inject_Z (- (1)) < inject_Z n)%Q).
    { change (inject_Z (- (1))) with (-1)%Q. lra. }
    assert (H2 : (inject_Z n < inject_Z (255 * 512000 + 1))%Q).
    { change (inject_Z (255 * 512000 + 1)) with 130560001%Q. lra. }
    rewrite <- Zlt_Qlt in H1, H2. lia. }
  split; [|split].
  - apply (Hrow 0%nat); [lia|]. apply YUVPixel2RGB_row_Z; reflexivity.
  - apply (Hrow 1%nat); [lia|]. apply YUVPixel2RGB_row_Z; reflexivity.
  - apply (Hrow 2%nat); [lia|]. apply YUVPixel2RGB_row_Z; reflexivity.
Qed.

Lemma YUV_RGB_YUV_exact (fl : RowRounding) (y u v : Z) :
  accurate fl -> is_pixel (y, u, v) -> unclamped fl (y, u, v) ->
  RGBPixel2YUV fl (YUVPixel2RGB fl (y, u, v)) = (y, u, v).
Proof.
  intros Hfl (Hy & Hu & Hv) Hgamut.
  apply unclamped_Z in Hgamut; [|exact Hfl].
  destruct Hgamut as (GR & GG & GB).
  destruct (YUVPixel2RGB_rows fl y u v Hfl) as (r & g & b & -> & HR & HG & HB).
  destruct (RGBPixel2YUV_rows fl r g b Hfl)
    as (y' & u' & v' & -> & HY & HU & HV).
  unfold row_sample, row_num in *.
  f_equal; [f_equal|]; lia.
Qed.

Lemma accurate_exact_rows : accurate exact_rows.
Proof. intros p k. split; reflexivity. Qed.

(** C2, as stated, fails in both directions, whatever the rounding: the
    RGB pixel (0, 1, 20) comes back as (0, 1, 18), and the YUV pixel
    (0, 0, 0), which lies outside the RGB gamut and is clamped to
    (0, 136, 0), comes back as (85, 88, 78).  No row of these conversions
    has an integer value, so the rounding has no part in the results. *)
Lemma roundtrip_within_1_fails :
  (forall fl : RowRounding, accurate fl ->
     RGBPixel2YUV fl (0, 1, 20) = (18, 136, 126) /\
     YUVPixel2RGB fl (18, 136, 126) = (0, 1, 18) /\
     ~ within 1 (0, 1, 20) (YUVPixel2RGB fl (RGBPixel2YUV fl (0, 1, 20)))) /\
  (forall fl : RowRounding, accurate fl ->
     YUVPixel2RGB fl (0, 0, 0) = (0, 136, 0) /\
     RGBPixel2YUV fl (0, 136, 0) = (85, 88, 78) /\
     ~ within 1 (0, 0, 0) (RGBPixel2YUV fl (YUVPixel2RGB fl (0, 0, 0)))) /\
  RGBPixel2YUV exact_rows (0, 1, 20) = (18, 136, 126) /\
  YUVPixel2RGB exact_rows (0, 0, 0) = (0, 136, 0).
Proof.
  assert (Hfwd : forall fl r g b Y U V, accurate fl ->
            (forall Y' U' V',
               row_sample (row_num 65738 129057 25064 33 r g b) Y' ->
               row_sample (row_num (-37946) (-74494) 112439 257 r g b) U' ->
               row_sample (row_num 112439 (-94154) (-18285) 257 r g b) V' ->
               Y' = Y /\ U' = U /\ V' = V) ->
            RGBPixel2YUV fl (r, g, b) = (Y, U, V)).
  { intros fl r g b Y U V Hfl Huniq.
    destruct (RGBPixel2YUV_rows fl r g b Hfl)
      as (Y' & U' & V' & -> & HY & HU & HV).
    destruct (Huniq Y' U' V' HY HU HV) as (-> & -> & ->). reflexivity. }
  assert (Hbwd : forall fl y u v R G B, accurate fl ->
            (forall R' G' B',
               row_sample
                 (row_num 298082 0 408583 1 (y - 16) (u - 128) (v - 128)) R' ->
               row_sample
                 (row_num 298082 (-100291) (-208120) 1
                    (y - 16) (u - 128) (v - 128)) G' ->
               row_sample
                 (row_num 298082 516411 0 1 (y - 16) (u - 128) (v - 128)) B' ->
               R' = R /\ G' = G /\ B' = B) ->
            YUVPixel2RGB fl (y, u, v) = (R, G, B)).
  { intros fl y u v R G B Hfl Huniq.
    destruct (YUVPixel2RGB_rows fl y u v Hfl)
      as (R' & G' & B' & -> & HR & HG & HB).
    destruct (Huniq R' G' B' HR HG HB) as (-> & -> & ->). reflexivity. }
  assert (H1 : forall fl, accurate fl ->
            RGBPixel2YUV fl (0, 1, 20) = (18, 136, 126)).
  { intros fl Hfl. apply Hfwd; [exact Hfl|].
    unfold row_sample, row_num. intros Y' U' V'. lia. }
  assert (H2 : forall fl, accurate fl ->
            YUVPixel2RGB fl (18, 136, 126) = (0, 1, 18)).
  { intros fl Hfl. apply Hbwd; [exact Hfl|].
    unfold row_sample, row_num. intros R' G' B'. lia. }
  assert (H3 : forall fl, accurate fl ->
            YUVPixel2RGB fl (0, 0, 0) = (0, 136, 0)).
  { intros fl Hfl. apply Hbwd; [exact Hfl|].
    unfold row_sample, row_num. intros R' G' B'. lia. }
  assert (H4 : forall fl, accurate fl ->
            RGBPixel2YUV fl (0, 136, 0) = (85, 88, 78)).
  { intros fl Hfl. apply Hfwd; [exact Hfl|].
    unfold row_sample, row_num. intros Y' U' V'. lia. }
  split; [|split; [|split]].
  - intros fl Hfl. split; [now apply H1|]. split; [now apply H2|].
    rewrite (H1 fl Hfl), (H2 fl Hfl). unfold within. lia.
  - intros fl Hfl. split; [now apply H3|]. split; [now apply H4|].
    rewrite (H3 fl Hfl), (H4 fl Hfl). unfold within. lia.
  - apply H1, accurate_exact_rows.
  - apply H3, accurate_exact_rows.
Qed.

(** C2 (amended): under every accurate rounding, for every 8-bit RGB pixel,
    RGB -> YUV444 -> RGB returns red and green within 1 and blue within 2
    of the original; for every 8-bit YUV444 pixel that [YUVPixel2RGB]
    converts without clamping, YUV444 -> RGB -> YUV444 returns the original
    pixel. *)
Theorem roundtrip_bounds (fl : RowRounding) (rgb yuv : Pixel)
  (Hfl : accurate fl)
  (Hrgb : is_pixel rgb) (Hyuv : is_pixel yuv) (Hgamut : unclamped fl yuv) :
  (let '(r, g, b) := rgb in
   let '(r', g', b') := YUVPixel2RGB fl (RGBPixel2YUV fl rgb) in
   Z.abs (r' - r) <= 1 /\ Z.abs (g' - g) <= 1 /\ Z.abs (b' - b) <= 2) /\
  RGBPixel2YUV fl (YUVPixel2RGB fl yuv) = yuv /\
  within 1 yuv (RGBPixel2YUV fl (YUVPixel2RGB fl yuv)).
Proof.
  destruct rgb as [[r g] b], yuv as [[y u] v].
  split; [now apply RGB_YUV_RGB_bounds|].
  rewrite (YUV_RGB_YUV_exact fl y u v Hfl Hyuv Hgamut).
  split; [reflexivity|].
  unfold within. rewrite !Z.sub_diag. simpl. lia.
Qed.

Lemma roundtrip_bounds_witness :
  accurate exact_rows /\
  is_pixel (0, 1, 20) /\ is_pixel (120, 130, 140) /\
  unclamped exact_rows (120, 130, 140) /\
  (let '(r', g', b') :=
     YUVPixel2RGB exact_rows (RGBPixel2YUV exact_rows (0, 1, 20)) in
   Z.abs (r' - 0) <= 1 /\ Z.abs (g' - 1) <= 1 /\ Z.abs (b' - 20) <= 2) /\
  RGBPixel2YUV exact_rows (YUVPixel2RGB exact_rows (120, 130, 140))
    = (120, 130, 140) /\
  within 1 (120, 130, 140)
    (RGBPixel2YUV exact_rows (YUVPixel2RGB exact_rows (120, 130, 140))).
Proof.
  assert (H0 : accurate exact_rows) by (intros p k; split; reflexivity).
  assert (H1 : is_pixel (0, 1, 20)) by (simpl; lia).
  assert (H2 : is_pixel (120, 130, 140)) by (simpl; lia).
  assert (H3 : unclamped exact_rows (120, 130, 140)).
  { intros k Hk.
    destruct k as [|[|[|k]]]; [| | | lia]; vm_compute; split; discriminate. }
  split; [exact H0|]. split; [exact H1|]. split; [exact H2|].
  split; [exact H3|].
  exact (roundtrip_bounds exact_rows (0, 1, 20) (120, 130, 140) H0 H1 H2 H3).
Defined.

(** ** Gamma stages: validation precedes mutation *)

Lemma ColorSpaces_eqb_spec (a b : ColorSpaces) :
  reflect (a = b) (ColorSpaces_eqb a b).
Proof. destruct a, b; simpl; constructor; congruence. Qed.

Lemma DegammaImage_checks (pImageIn pImageOut : IMAGE) (fwdGamma : list R) :
  (gamma_args_ok pImageIn pImageOut
     (pixArray pImageIn) (dblPixArray pImageOut) /\
   fst (DegammaImage pImageIn pImageOut fwdGamma) = true) \/
  (~ gamma_args_ok pImageIn pImageOut
       (pixArray pImageIn) (dblPixArray pImageOut) /\
   DegammaImage pImageIn pImageOut fwdGamma = (false, pImageOut)).
Proof.
  unfold DegammaImage, gamma_args_ok.
  destruct (Z.eqb_spec (width pImageIn) (width pImageOut)) as [Hw|Hw];
    [|right; simpl; intuition].
  destruct (Z.eqb_spec (height pImageIn) (height pImageOut)) as [Hh|Hh];
    [|right; simpl; intuition].
  simpl.
  destruct (pixArray pImageIn) as [src|]; [|right; intuition].
  destruct (dblPixArray pImageOut) as [dst|]; [|right; intuition].
  destruct (ColorSpaces_eqb_spec (colorSpace pImageIn) (colorSpace pImageOut))
    as [Hc|Hc]; simpl; [left | right; intuition].
  repeat split; auto; discriminate.
Qed.

Lemma GammaImage_checks (pImageIn pImageOut : IMAGE) (bwdGamma : list Z) :
  (gamma_args_ok pImageIn pImageOut
     (dblPixArray pImageIn) (pixArray pImageOut) /\
   fst (GammaImage pImageIn pImageOut bwdGamma) = true) \/
  (~ gamma_args_ok pImageIn pImageOut
       (dblPixArray pImageIn) (pixArray pImageOut) /\
   GammaImage pImageIn pImageOut bwdGamma = (false, pImageOut)).
Proof.
  unfold GammaImage, gamma_args_ok.
  destruct (Z.eqb_spec (width pImageIn) (width pImageOut)) as [Hw|Hw];
    [|right; simpl; intuition].
  destruct (Z.eqb_spec (height pImageIn) (height pImageOut)) as [Hh|Hh];
    [|right; simpl; intuition].
  simpl.
  destruct (dblPixArray pImageIn) as [src|]; [|right; intuition].
  destruct (pixArray pImageOut) as [dst|]; [|right; intuition].
  destruct (ColorSpaces_eqb_spec (colorSpace pImageIn) (colorSpace pImageOut))
    as [Hc|Hc]; simpl; [left | right; intuition].
  repeat split; auto; discriminate.
Qed.

(** C7: [DegammaImage] and [GammaImage] report success exactly when the two
    images agree in width and height, the input holds the buffer that is
    read (8-bit for de-gamma, double for gamma), the output holds the buffer
    that is written, and the colour spaces agree; otherwise they report
    failure and return the destination image as it was. *)
Theorem gamma_stages_validate (pImageIn pImageOut : IMAGE)
  (fwdGamma : list R) (bwdGamma : list Z) :
  (fst (DegammaImage pImageIn pImageOut fwdGamma) = true <->
   gamma_args_ok pImageIn pImageOut
     (pixArray pImageIn) (dblPixArray pImageOut)) /\
  (~ gamma_args_ok pImageIn pImageOut
       (pixArray pImageIn) (dblPixArray pImageOut) ->
   DegammaImage pImageIn pImageOut fwdGamma = (false, pImageOut)) /\
  (fst (GammaImage pImageIn pImageOut bwdGamma) = true <->
   gamma_args_ok pImageIn pImageOut
     (dblPixArray pImageIn) (pixArray pImageOut)) /\
  (~ gamma_args_ok pImageIn pImageOut
       (dblPixArray pImageIn) (pixArray pImageOut) ->
   GammaImage pImageIn pImageOut bwdGamma = (false, pImageOut)).
Proof.
  destruct (DegammaImage_checks pImageIn pImageOut fwdGamma)
    as [[Hd Hd']|[Hd Hd']];
  destruct (GammaImage_checks pImageIn pImageOut bwdGamma)
    as [[Hg Hg']|[Hg Hg']];
  (split; [|split; [|split]]);
  try (split; intros H); try intros H; try tauto;
    try (rewrite Hd' in H; discriminate H);
    try (rewrite Hg' in H; discriminate H).
Qed.

(** ** Evaluating the real-valued model *)

Lemma LUT_index {A : Type} (n : Z) (f : Z -> A) (i : Z) (d : A) :
  0 <= i < n -> index (LUT n f) i d = f i.
Proof.
  intros Hi. unfold index, LUT.
  rewrite (nth_indep _ d (f (Z.of_nat 0))).
  - rewrite (map_nth (fun k => f (Z.of_nat k))).
    rewrite seq_nth by lia. simpl. now rewrite Z2Nat.id by lia.
  - rewrite length_map, length_seq. lia.
Qed.

Lemma pow_1 (x : R) : (0 < x)%R -> pow x 1 = x.
Proof.
  intros Hx. unfold pow.
  destruct (Req_dec_T 1 0) as [H|_]; [lra|].
  destruct (Req_dec_T x 0) as [H|_]; [lra|].
  now apply Rpower_1.
Qed.

Lemma ctrunc_R_floor (v : R) (k : Z) :
  (0 <= v)%R -> (IZR k <= v < IZR k + 1)%R -> ctrunc v = k.
Proof.
  intros H0 Hk. unfold ctrunc, CTrunc_R.
  destruct (Rlt_dec v 0) as [H|_]; [lra|].
  symmetry. apply Int_part_spec. lra.
Qed.

Lemma CLAMP_R_id (v a b : R) : (a <= v <= b)%R -> CLAMP v a b = v.
Proof.
  intros Hv. unfold CLAMP, cless, CLess_R.
  destruct (Rlt_dec v a); [lra|].
  destruct (Rlt_dec b v); [lra|reflexivity].
Qed.

Lemma CLAMP_R_hi (v a b : R) : (a <= b < v)%R -> CLAMP v a b = b.
Proof.
  intros Hv. unfold CLAMP, cless, CLess_R.
  destruct (Rlt_dec v a); [lra|].
  destruct (Rlt_dec b v); [reflexivity|lra].
Qed.

(** ** The backward gamma table *)

(** C1: every entry of the table built in [main] is the clamped, rounded
    value of 255 * (i / 4096) ^ (1 / gamma): the index is divided by 4096,
    not by 4095 as specified.  At gamma 1.0 the table holds 254 at index
    4087, where the specified formula gives 255.  The last entry is 255
    under both. *)
Theorem bwdGamma_divides_by_4096 :
  (forall (gamma : R) (i : Z), 0 <= i <= 4095 ->
     index (make_bwdGamma gamma) i 0 =
     PIXEL_of_double
       (CLAMP (255 * pow (IZR i / 4096) (1 / gamma) + 0.5)%R 0%R 255%R)) /\
  index (make_bwdGamma 1) 4087 0 = 254 /\
  bwdGamma_spec 1 4087 = 255 /\
  index (make_bwdGamma 1) 4095 0 = 255 /\
  bwdGamma_spec 1 4095 = 255.
Proof.
  split.
  { intros gamma i Hi. unfold make_bwdGamma.
    rewrite LUT_index by (unfold BWD_GAMMA_LUTSIZE; lia). reflexivity. }
  unfold make_bwdGamma, bwdGamma_spec.
  rewrite !LUT_index by (unfold BWD_GAMMA_LUTSIZE; lia).
  unfold BWD_GAMMA_LUTSIZE, PIXMAX, PIXEL_of_double, PIXEL_of_int.
  replace (1 / 1)%R with 1%R by lra.
  rewrite !pow_1 by lra.
  repeat split.
  - rewrite CLAMP_R_id by lra.
    rewrite (ctrunc_R_floor _ 254); [reflexivity | lra | lra].
  - rewrite CLAMP_R_hi by lra.
    rewrite (ctrunc_R_floor _ 255); [reflexivity | lra | lra].
  - rewrite CLAMP_R_hi by lra.
    rewrite (ctrunc_R_floor _ 255); [reflexivity | lra | lra].
  - rewrite CLAMP_R_hi by lra.
    rewrite (ctrunc_R_floor _ 255); [reflexivity | lra | lra].
Qed.

(** ** The Lanczos-2 kernel at integer offsets *)

Lemma PI_bounds : (3.14159 < PI < 3.14160)%R.
Proof.
  pose proof (PI_2_3_7_ineq 2) as H.
  unfold sum_f_R0, tg_alt, PI_2_3_7_tg, Ratan_seq in H.
  simpl in H. lra.
Qed.

Lemma cless_R_true (x y : R) : (x < y)%R -> cless x y = true.
Proof.
  intros H. unfold cless, CLess_R. destruct (Rlt_dec x y); [reflexivity|lra].
Qed.

Lemma cless_R_false (x y : R) : (y <= x)%R -> cless x y = false.
Proof.
  intros H. unfold cless, CLess_R. destruct (Rlt_dec x y); [lra|reflexivity].
Qed.

Lemma sinc_0 : sinc 0 = 1%R.
Proof.
  unfold sinc, EPSILON. rewrite Rmult_0_l.
  rewrite !cless_R_true by lra. simpl. lra.
Qed.

(** The sine of the constant [M_PI], which is not quite pi, is small. *)
Lemma sin_M_PI_small : (Rabs (sin M_PI) < 0.00001)%R.
Proof.
  pose proof PI_bounds as HPI.
  rewrite <- sin_PI_x.
  assert (Hd : (-0.00001 < PI - M_PI < 0.00001)%R) by (unfold M_PI; lra).
  destruct (Rtotal_order (PI - M_PI) 0) as [Hneg | [Hz | Hpos]].
  - pose proof (sin_gt_x _ Hneg).
    assert (sin (PI - M_PI) < 0)%R by (apply sin_lt_0_var; lra).
    apply Rabs_def1; lra.
  - rewrite Hz, sin_0, Rabs_R0. lra.
  - pose proof (sin_lt_x _ Hpos).
    assert (0 < sin (PI - M_PI))%R by (apply sin_gt_0; lra).
    apply Rabs_def1; lra.
Qed.

Lemma lanczos2Filter_1 : lanczos2Filter 1 = 0%R.
Proof.
  unfold lanczos2Filter, LANCZOS2_NUMTAPS.
  rewrite (cless_R_false 1 0) by lra.
  rewrite (cless_R_true 1 2.0) by lra.
  unfold fabsThresh. rewrite cless_R_true; [reflexivity|].
  unfold sinc.
  rewrite (cless_R_false (1 * M_PI) EPSILON) by (unfold M_PI, EPSILON; lra).
  rewrite (cless_R_false (1 / 2.0 * M_PI) EPSILON)
    by (unfold M_PI, EPSILON; lra).
  simpl andb. cbv zeta.
  pose proof sin_M_PI_small as Hs.
  pose proof (SIN_bound (1 / 2.0 * M_PI)) as Hb.
  assert (HM : (3.14 < M_PI < 3.15)%R) by (unfold M_PI; lra).
  rewrite Rmult_1_l.
  unfold Rdiv. rewrite !Rabs_mult.
  rewrite (Rabs_inv M_PI), (Rabs_inv (1 * / 2.0 * M_PI)).
  rewrite (Rabs_pos_eq M_PI) by lra.
  rewrite (Rabs_pos_eq (1 * / 2.0 * M_PI)) by lra.
  assert (H1 : (0 <= Rabs (sin M_PI))%R) by apply Rabs_pos.
  assert (H2 : (Rabs (sin (1 * / 2.0 * M_PI)) <= 1)%R)
    by (apply Rabs_le; exact Hb).
  assert (H3 : (0 <= Rabs (sin (1 * / 2.0 * M_PI)))%R) by apply Rabs_pos.
  assert (H4 : (0 < / M_PI < 1)%R).
  { split; [apply Rinv_0_lt_compat; lra|].
    rewrite <- Rinv_1. apply Rinv_lt_contravar; lra. }
  assert (H5 : (0 < / (1 * / 2.0 * M_PI) < 1)%R).
  { split; [apply Rinv_0_lt_compat; lra|].
    rewrite <- Rinv_1. apply Rinv_lt_contravar; lra. }
  unfold EPSILON.
  assert (Ha : (Rabs (sin M_PI) * / M_PI <= 0.00001)%R) by nra.
  assert (Hc : (0 <= Rabs (sin M_PI) * / M_PI)%R) by nra.
  assert (Hd : (0 <= Rabs (sin (1 * / 2.0 * M_PI)) * / (1 * / 2.0 * M_PI) <= 1)%R)
    by nra.
  nra.
Qed.

Lemma lanczos2Filter_even (t : R) : lanczos2Filter (- t) = lanczos2Filter t.
Proof.
  unfold lanczos2Filter.
  destruct (Rtotal_order t 0) as [Hneg | [Hz | Hpos]].
  - rewrite (cless_R_false (- t) 0), (cless_R_true t 0) by lra. reflexivity.
  - subst t. now rewrite !Ropp_0.
  - rewrite (cless_R_true (- t) 0), (cless_R_false t 0) by lra.
    now rewrite Ropp_involutive.
Qed.

Lemma lanczos2Filter_0 : lanczos2Filter 0 = 1%R.
Proof.
  unfold lanczos2Filter, LANCZOS2_NUMTAPS.
  rewrite (cless_R_false 0 0) by lra.
  rewrite (cless_R_true 0 2.0) by lra.
  replace (0 / 2.0)%R with 0%R by lra.
  rewrite sinc_0, Rmult_1_l.
  unfold fabsThresh, EPSILON. rewrite Rabs_R1.
  now rewrite cless_R_false by lra.
Qed.

Lemma lanczos2Filter_outside (t : R) :
  (2 <= Rabs t)%R -> lanczos2Filter t = 0%R.
Proof.
  intros Ht. unfold lanczos2Filter, LANCZOS2_NUMTAPS.
  destruct (Rlt_dec t 0) as [Hneg | Hpos].
  - rewrite (cless_R_true t 0) by lra.
    rewrite Rabs_left in Ht by lra. now rewrite cless_R_false by lra.
  - rewrite (cless_R_false t 0) by lra.
    rewrite Rabs_pos_eq in Ht by lra. now rewrite cless_R_false by lra.
Qed.

(** C6: the kernel is 1 at offset 0, 0 at the nonzero integer offsets
    inside its support (1 and -1, where the product of the two sinc values
    falls below the threshold), and 0 wherever |t| >= 2. *)
Theorem lanczos2Filter_integer_offsets :
  lanczos2Filter 0 = 1%R /\
  lanczos2Filter 1 = 0%R /\
  lanczos2Filter (-1) = 0%R /\
  forall t : R, (2 <= Rabs t)%R -> lanczos2Filter t = 0%R.
Proof.
  split; [exact lanczos2Filter_0|].
  split; [exact lanczos2Filter_1|].
  split; [replace (-1)%R with (- (1))%R by lra;
          rewrite lanczos2Filter_even; exact lanczos2Filter_1|].
  exact lanczos2Filter_outside.
Qed.

(** ** Loops *)

Lemma for_iter_snoc {S : Type} (n : nat) (i step : Z) (body : Z -> S -> S)
  (s : S) :
  for_iter (Datatypes.S n) i step body s =
  body (i + Z.of_nat n * step) (for_iter n i step body s).
Proof.
  revert i s. induction n as [|n IH]; intros i s.
  - simpl. now rewrite Z.add_0_r.
  - change (for_iter (Datatypes.S (Datatypes.S n)) i step body s)
      with (for_iter (Datatypes.S n) (i + step) step body (body i s)).
    rewrite IH. simpl for_iter. f_equal. rewrite Nat2Z.inj_succ. ring.
Qed.

Lemma for_iter_ind {S : Type} (Inv : nat -> S -> Prop) (n : nat)
  (i step : Z) (body : Z -> S -> S) (s : S) :
  Inv 0%nat s ->
  (forall k s, (k < n)%nat -> Inv k s ->
     Inv (Datatypes.S k) (body (i + Z.of_nat k * step) s)) ->
  Inv n (for_iter n i step body s).
Proof.
  intros H0 Hstep. induction n as [|n IH].
  - exact H0.
  - rewrite for_iter_snoc. apply Hstep; [lia|].
    apply IH. intros k s' Hk. apply Hstep. lia.
Qed.

Lemma for_loop_count_1 {S : Type} (lo hi : Z) (body : Z -> S -> S) (s : S) :
  for_loop lo hi 1 body s = for_iter (Z.to_nat (hi - lo)) lo 1 body s.
Proof.
  unfold for_loop. f_equal. f_equal. rewrite Z.div_1_r. lia.
Qed.

(** Invariant rule for [for (i = lo; i < hi; i++)]. *)
Lemma for_loop_ind {S : Type} (Inv : Z -> S -> Prop) (lo hi : Z)
  (body : Z -> S -> S) (s : S) :
  lo <= hi ->
  Inv lo s ->
  (forall i s, lo <= i < hi -> Inv i s -> Inv (i + 1) (body i s)) ->
  Inv hi (for_loop lo hi 1 body s).
Proof.
  intros Hle H0 Hstep. rewrite for_loop_count_1.
  replace hi with (lo + Z.of_nat (Z.to_nat (hi - lo))) at 1 by lia.
  apply (for_iter_ind (fun k s => Inv (lo + Z.of_nat k) s)).
  - now rewrite Z.add_0_r.
  - intros k s' Hk HI.
    replace (lo + Z.of_nat (Datatypes.S k)) with (lo + Z.of_nat k + 1) by lia.
    rewrite Z.mul_1_r. apply Hstep; [lia | exact HI].
Qed.

(** Rule for an invariant that does not depend on the loop variable. *)
Lemma for_loop_preserves {S : Type} (Inv : S -> Prop) (lo hi step : Z)
  (body : Z -> S -> S) (s : S) :
  Inv s -> (forall i s, Inv s -> Inv (body i s)) ->
  Inv (for_loop lo hi step body s).
Proof.
  intros H0 Hstep. unfold for_loop.
  apply (for_iter_ind (fun _ s => Inv s)); auto.
Qed.

Lemma for_loop_empty {S : Type} (lo hi : Z) (body : Z -> S -> S) (s : S) :
  hi <= lo -> for_loop lo hi 1 body s = s.
Proof.
  intros H. rewrite for_loop_count_1.
  replace (Z.to_nat (hi - lo)) with 0%nat by lia. reflexivity.
Qed.

Lemma for_loop_last {S : Type} (lo hi : Z) (body : Z -> S -> S) (s : S) :
  lo <= hi ->
  for_loop lo (hi + 1) 1 body s = body hi (for_loop lo hi 1 body s).
Proof.
  intros H. rewrite !for_loop_count_1.
  replace (Z.to_nat (hi + 1 - lo)) with (Datatypes.S (Z.to_nat (hi - lo)))
    by lia.
  rewrite for_iter_snoc. f_equal. lia.
Qed.

Lemma for_loop_first {S : Type} (lo hi : Z) (body : Z -> S -> S) (s : S) :
  lo < hi ->
  for_loop lo hi 1 body s = for_loop (lo + 1) hi 1 body (body lo s).
Proof.
  intros H. rewrite !for_loop_count_1.
  replace (Z.to_nat (hi - lo)) with (Datatypes.S (Z.to_nat (hi - (lo + 1))))
    by lia.
  reflexivity.
Qed.

(** ** Contribution tables *)

Lemma sum_first_succ (n : Z) (a : Z -> R) :
  0 <= n -> sum_first (n + 1) a = (sum_first n a + a n)%R.
Proof. intros Hn. unfold sum_first. now rewrite for_loop_last. Qed.

Lemma sum_first_ext (n : Z) (a b : Z -> R) :
  (forall k, 0 <= k < n -> a k = b k) -> sum_first n a = sum_first n b.
Proof.
  intros Hab. destruct (Z.le_gt_cases 0 n) as [Hn | Hn].
  - unfold sum_first.
    apply (for_loop_ind
             (fun i acc => i <= n -> acc = for_loop 0 i 1
                                     (fun k acc => (acc + b k)%R) 0%R));
      [exact Hn | | | lia].
    + intros _. now rewrite for_loop_empty by lia.
    + intros i acc Hi HI _. rewrite for_loop_last by lia.
      rewrite HI by lia. now rewrite Hab.
  - unfold sum_first. now rewrite !for_loop_empty by lia.
Qed.

(** What a table row must satisfy for the stored sum to be the sum of the
    stored weights. *)
Lemma upd1_same {A : Type} (a : Z -> A) i v : upd1 a i v i = v.
Proof. unfold upd1. now rewrite Z.eqb_refl. Qed.

Lemma upd1_other {A : Type} (a : Z -> A) i v r : r <> i -> upd1 a i v r = a r.
Proof. intros H. unfold upd1. now destruct (Z.eqb_spec r i). Qed.

Lemma upd2_same {A : Type} (a : Z -> Z -> A) i k v : upd2 a i k v i k = v.
Proof. unfold upd2. now rewrite !Z.eqb_refl. Qed.

Lemma upd2_other {A : Type} (a : Z -> Z -> A) i k v r c :
  r <> i \/ c <> k -> upd2 a i k v r c = a r c.
Proof.
  intros H. unfold upd2.
  destruct (Z.eqb_spec r i), (Z.eqb_spec c k); simpl; try reflexivity. lia.
Qed.

(** A step of the inner loop leaves the table alone, or appends one
    contributor with a nonzero weight to row [i]. *)
Lemma contrib_step_cases (inDimSize : Z) (edgeMethod : EdgeMethod)
  (center filterScale : R) (i j : Z) (t : ContribTable) :
  contrib_step inDimSize edgeMethod center filterScale i j t = t \/
  exists weight : R,
    weight <> 0%R /\
    weight = lanczos2Filter ((center - IZR j) * filterScale)%R /\
    contrib_step inDimSize edgeMethod center filterScale i j t =
    mkContribTable
      (upd2 (filterWeights t) i (numContribPixels t i) weight)
      (upd2 (contribPixPos t) i (numContribPixels t i)
            (HandleEdgeCase j inDimSize edgeMethod))
      (upd1 (numContribPixels t) i (numContribPixels t i + 1))
      (upd1 (weightsSum t) i (weightsSum t i + weight)%R).
Proof.
  unfold contrib_step.
  destruct (EdgeMethod_eqb edgeMethod NOCONTRIB
            && ((j <? 0) || (j >? inDimSize))); [now left|].
  destruct (Req_dec_T _ 0) as [Hz | Hnz]; [now left|].
  right. eexists. split; [exact Hnz|]. split; reflexivity.
Qed.

Lemma contrib_step_sums_agree inDimSize edgeMethod center filterScale i j t :
  sums_agree t ->
  sums_agree (contrib_step inDimSize edgeMethod center filterScale i j t).
Proof.
  intros Hinv.
  destruct (contrib_step_cases inDimSize edgeMethod center filterScale i j t)
    as [-> | (w & _ & _ & ->)]; [exact Hinv|].
  intros r. simpl. destruct (Hinv r) as [Hn Hs].
  destruct (Z.eq_dec r i) as [-> | Hne].
  - rewrite !upd1_same. split; [lia|].
    rewrite sum_first_succ by exact Hn.
    rewrite upd2_same. f_equal. rewrite Hs.
    apply sum_first_ext. intros k Hk.
    rewrite upd2_other by lia. reflexivity.
  - rewrite !upd1_other by exact Hne. split; [exact Hn|].
    rewrite Hs. apply sum_first_ext. intros k Hk.
    rewrite upd2_other by lia. reflexivity.
Qed.

Lemma contrib_step_positions_inside inDimSize edgeMethod center filterScale
  i j t :
  1 <= inDimSize ->
  positions_inside inDimSize t ->
  positions_inside inDimSize
    (contrib_step inDimSize edgeMethod center filterScale i j t).
Proof.
  intros Hdim Hinv.
  destruct (contrib_step_cases inDimSize edgeMethod center filterScale i j t)
    as [-> | (w & _ & _ & ->)]; [exact Hinv|].
  intros r. simpl. destruct (Hinv r) as [Hn Hp].
  destruct (Z.eq_dec r i) as [-> | Hne].
  - rewrite !upd1_same. split; [lia|]. intros k Hk.
    destruct (Z.eq_dec k (numContribPixels t i)) as [-> | Hk'].
    + rewrite upd2_same. now apply HandleEdgeCase_range.
    + rewrite upd2_other by lia. apply Hp. lia.
  - rewrite !upd1_other by exact Hne. split; [exact Hn|]. intros k Hk.
    rewrite upd2_other by lia. now apply Hp.
Qed.

Lemma MakeContribTable_preserves (Inv : ContribTable -> Prop)
  (inDimSize outDimSize : Z) (edgeMethod : EdgeMethod) :
  Inv empty_ContribTable ->
  (forall center filterScale i j t,
      Inv t ->
      Inv (contrib_step inDimSize edgeMethod center filterScale i j t)) ->
  Inv (MakeContribTable inDimSize outDimSize edgeMethod).
Proof.
  intros H0 Hstep. unfold MakeContribTable.
  destruct (cless 1%R (IZR outDimSize / IZR inDimSize)%R);
    apply for_loop_preserves; try exact H0;
    intros i t Ht; apply for_loop_preserves; auto.
Qed.

Lemma MakeContribTable_sums_agree inDimSize outDimSize edgeMethod :
  sums_agree (MakeContribTable inDimSize outDimSize edgeMethod).
Proof.
  apply MakeContribTable_preserves.
  - intros r. simpl. split; [lia | reflexivity].
  - intros. now apply contrib_step_sums_agree.
Qed.

Lemma MakeContribTable_positions_inside inDimSize outDimSize edgeMethod :
  1 <= inDimSize ->
  positions_inside inDimSize
    (MakeContribTable inDimSize outDimSize edgeMethod).
Proof.
  intros Hdim. apply MakeContribTable_preserves.
  - intros r. simpl. split; [lia | intros; lia].
  - intros. now apply contrib_step_positions_inside.
Qed.

(** *** The table of a pass that keeps the dimension *)

Lemma floor_IZR (z : Z) : floor (IZR z) = z.
Proof. unfold floor. symmetry. apply Int_part_spec. lra. Qed.

Lemma ceil_IZR (z : Z) : ceil (IZR z) = z.
Proof.
  unfold ceil. rewrite <- opp_IZR.
  change (Int_part (IZR (- z))) with (floor (IZR (- z))).
  rewrite floor_IZR. lia.
Qed.

Lemma contrib_step_skip inDimSize edgeMethod center filterScale i j t :
  lanczos2Filter ((center - IZR j) * filterScale)%R = 0%R ->
  contrib_step inDimSize edgeMethod center filterScale i j t = t.
Proof.
  intros Hz. unfold contrib_step.
  destruct (EdgeMethod_eqb edgeMethod NOCONTRIB
            && ((j <? 0) || (j >? inDimSize))); [reflexivity|].
  rewrite Hz. destruct (Req_dec_T 0 0) as [_|H]; [reflexivity | now elim H].
Qed.

Lemma contrib_step_append inDimSize edgeMethod center filterScale i j t w :
  0 <= j <= inDimSize ->
  lanczos2Filter ((center - IZR j) * filterScale)%R = w -> w <> 0%R ->
  contrib_step inDimSize edgeMethod center filterScale i j t =
  mkContribTable
    (upd2 (filterWeights t) i (numContribPixels t i) w)
    (upd2 (contribPixPos t) i (numContribPixels t i)
          (HandleEdgeCase j inDimSize edgeMethod))
    (upd1 (numContribPixels t) i (numContribPixels t i + 1))
    (upd1 (weightsSum t) i (weightsSum t i + w)%R).
Proof.
  intros Hj Hw Hnz. unfold contrib_step.
  replace ((j <? 0) || (j >? inDimSize)) with false.
  2:{ symmetry. apply orb_false_iff. split; [apply Z.ltb_ge; lia|].
      rewrite Z.gtb_ltb. apply Z.ltb_ge. lia. }
  rewrite andb_false_r, Hw.
  destruct (Req_dec_T w 0) as [H|_]; [now elim Hnz | reflexivity].
Qed.

(** The five candidates of target [i] when the dimension is kept: only
    [j = i] contributes, with weight 1. *)
Lemma identity_inner_loop (n : Z) (edgeMethod : EdgeMethod) (i : Z)
  (t : ContribTable) :
  0 <= i < n ->
  for_loop (i - 2) (i + 2 + 1) 1
    (contrib_step n edgeMethod (IZR i) 1%R i) t =
  mkContribTable
    (upd2 (filterWeights t) i (numContribPixels t i) 1%R)
    (upd2 (contribPixPos t) i (numContribPixels t i) i)
    (upd1 (numContribPixels t) i (numContribPixels t i + 1))
    (upd1 (weightsSum t) i (weightsSum t i + 1)%R).
Proof.
  intros Hi.
  pose proof lanczos2Filter_0 as K0.
  pose proof lanczos2Filter_1 as K1.
  assert (Km1 : lanczos2Filter (-1) = 0%R).
  { replace (-1)%R with (- (1))%R by lra. now rewrite lanczos2Filter_even. }
  pose proof lanczos2Filter_outside as Kout.
  do 5 (rewrite for_loop_first by lia).
  rewrite for_loop_empty by lia.
  rewrite (contrib_step_skip _ _ _ _ _ (i - 2)).
  2:{ rewrite minus_IZR. apply Kout.
      replace ((IZR i - (IZR i - 2)) * 1)%R with 2%R by lra.
      rewrite Rabs_pos_eq; lra. }
  rewrite (contrib_step_skip _ _ _ _ _ (i - 2 + 1)).
  2:{ rewrite plus_IZR, minus_IZR.
      replace ((IZR i - (IZR i - 2 + 1)) * 1)%R with 1%R by lra. exact K1. }
  replace (i - 2 + 1 + 1) with i by lia.
  rewrite (contrib_step_append _ _ _ _ _ i _ 1%R); [| lia | | lra].
  2:{ replace ((IZR i - IZR i) * 1)%R with 0%R by lra. exact K0. }
  rewrite (contrib_step_skip _ _ _ _ _ (i + 1)).
  2:{ rewrite plus_IZR.
      replace ((IZR i - (IZR i + 1)) * 1)%R with (-1)%R by lra. exact Km1. }
  rewrite (contrib_step_skip _ _ _ _ _ (i + 1 + 1)).
  2:{ rewrite !plus_IZR. apply Kout.
      replace ((IZR i - (IZR i + 1 + 1)) * 1)%R with (-2)%R by lra.
      rewrite Rabs_left; lra. }
  rewrite HandleEdgeCase_inside by lia. reflexivity.
Qed.

Lemma MakeContribTable_identity (n : Z) (edgeMethod : EdgeMethod) (i : Z) :
  0 <= i < n -> identity_row (MakeContribTable n n edgeMethod) i.
Proof.
  intros Hi. unfold MakeContribTable.
  assert (Hn : (IZR n <> 0)%R) by (apply not_0_IZR; lia).
  replace (IZR n / IZR n)%R with 1%R by (field; exact Hn).
  rewrite (cless_R_false 1 1) by lra.
  cbv beta iota zeta.
  match goal with
  | |- identity_row (for_loop 0 n 1 ?b ?s) i =>
      pose proof
        (for_loop_ind
           (fun idx t => forall r,
                (0 <= r < idx -> identity_row t r) /\
                (r < 0 \/ idx <= r -> empty_row t r)) 0 n b s) as Inv
  end.
  apply Inv; [lia | | | exact Hi].
  - intros r. split; [lia|]. intros _. split; reflexivity.
  - clear Inv. intros j t Hj HI r.
    replace ((IZR j + 0.5) / 1 - 0.5)%R with (IZR j) by lra.
    replace (IZR j - LANCZOS2_NUMTAPS / 1)%R with (IZR (j - 2))
      by (rewrite minus_IZR; unfold LANCZOS2_NUMTAPS; lra).
    replace (IZR j + LANCZOS2_NUMTAPS / 1)%R with (IZR (j + 2))
      by (rewrite plus_IZR; unfold LANCZOS2_NUMTAPS; lra).
    rewrite floor_IZR, ceil_IZR.
    rewrite identity_inner_loop by lia.
    destruct (HI j) as [_ Hempty].
    destruct Hempty as [Hnum Hsum]; [lia|].
    rewrite Hnum, Hsum.
    destruct (Z.eq_dec r j) as [-> | Hne].
    + split; [|lia]. intros _.
      unfold identity_row. simpl.
      rewrite !upd1_same, !upd2_same. repeat split; reflexivity.
    + destruct (HI r) as [Hid Hem].
      unfold identity_row, empty_row in *. simpl.
      rewrite !upd1_other, !upd2_other by lia.
      split; intros Hr; [apply Hid | apply Hem]; lia.
Qed.

(** C4: in every table that [MakeContribTable] builds, the sum stored for
    an output index is the sum, accumulated in order of appending, of the
    [numContribPixels] weights stored for that index. *)
Theorem weightsSum_is_sum_of_weights (inDimSize outDimSize : Z)
  (edgeMethod : EdgeMethod) (i : Z) (Hi : 0 <= i <= outDimSize - 1) :
  let t := MakeContribTable inDimSize outDimSize edgeMethod in
  weightsSum t i = sum_first (numContribPixels t i) (filterWeights t i).
Proof.
  exact (proj2 (MakeContribTable_sums_agree inDimSize outDimSize edgeMethod i)).
Qed.

Lemma weightsSum_is_sum_of_weights_witness :
  0 <= 1 <= 3 - 1 /\
  weightsSum (MakeContribTable 2 3 MIRROR) 1 =
  sum_first (numContribPixels (MakeContribTable 2 3 MIRROR) 1)
            (filterWeights (MakeContribTable 2 3 MIRROR) 1).
Proof.
  split; [lia|].
  exact (weightsSum_is_sum_of_weights 2 3 MIRROR 1 ltac:(lia)).
Defined.

(** C10: for every edge policy and all dimensions of at least 1, every
    source index stored in the table lies in [0, inDimSize-1]; under
    NOCONTRIB the candidate [j = inDimSize] passes the skip test and, when
    its weight is not zero, is stored as index [inDimSize - 1]. *)
Theorem contribPixPos_in_range (inDimSize outDimSize : Z)
  (edgeMethod : EdgeMethod) (i k : Z)
  (Hin : 1 <= inDimSize) (Hout : 1 <= outDimSize)
  (Hi : 0 <= i <= outDimSize - 1)
  (Hk : 0 <= k < numContribPixels
                   (MakeContribTable inDimSize outDimSize edgeMethod) i) :
  0 <= contribPixPos (MakeContribTable inDimSize outDimSize edgeMethod) i k
    <= inDimSize - 1 /\
  forall (center filterScale : R) (t : ContribTable),
    lanczos2Filter ((center - IZR inDimSize) * filterScale)%R <> 0%R ->
    let t' := contrib_step inDimSize NOCONTRIB center filterScale i
                inDimSize t in
    numContribPixels t' i = numContribPixels t i + 1 /\
    contribPixPos t' i (numContribPixels t i) = inDimSize - 1.
Proof.
  split.
  - now apply (MakeContribTable_positions_inside inDimSize outDimSize
                 edgeMethod Hin i).
  - intros center filterScale t Hw t'. subst t'.
    rewrite (contrib_step_append inDimSize NOCONTRIB center filterScale i
               inDimSize t _ ltac:(lia) eq_refl Hw).
    simpl. rewrite upd1_same, upd2_same. split; [reflexivity|].
    unfold HandleEdgeCase. unfold CLAMP, cless, CLess_Z.
    destruct (Z.ltb_spec inDimSize 0); [lia|].
    destruct (Z.ltb_spec (inDimSize - 1) inDimSize); [reflexivity | lia].
Qed.

Lemma contribPixPos_in_range_witness :
  1 <= 2 /\ 1 <= 2 /\ 0 <= 1 <= 2 - 1 /\
  0 <= 0 < numContribPixels (MakeContribTable 2 2 NOCONTRIB) 1 /\
  0 <= contribPixPos (MakeContribTable 2 2 NOCONTRIB) 1 0 <= 2 - 1 /\
  forall (center filterScale : R) (t : ContribTable),
    lanczos2Filter ((center - IZR 2) * filterScale)%R <> 0%R ->
    let t' := contrib_step 2 NOCONTRIB center filterScale 1 2 t in
    numContribPixels t' 1 = numContribPixels t 1 + 1 /\
    contribPixPos t' 1 (numContribPixels t 1) = 2 - 1.
Proof.
  assert (Hk : 0 <= 0 < numContribPixels (MakeContribTable 2 2 NOCONTRIB) 1).
  { destruct (MakeContribTable_identity 2 NOCONTRIB 1 ltac:(lia)) as [-> _].
    lia. }
  split; [lia|]. split; [lia|]. split; [lia|]. split; [exact Hk|].
  exact (contribPixPos_in_range 2 2 NOCONTRIB 1 0
           ltac:(lia) ltac:(lia) ltac:(lia) Hk).
Defined.

(** ** Loops that fill cells *)

(** A loop whose iteration [i] writes the cells [touched i], each with the
    value [val] gives that cell, and leaves the other cells alone: a cell
    that some iteration touches ends with its value, and a cell that none
    touches is as it was. *)
Lemma fill_loop {S K V : Type} (P : S -> Prop) (view : S -> K -> V)
  (touched : Z -> K -> Prop) (val : K -> V)
  (n : nat) (i0 step : Z) (body : Z -> S -> S) (s0 : S) :
  P s0 ->
  (forall i c, touched i c \/ ~ touched i c) ->
  (forall k s, (k < n)%nat -> P s ->
     let i := i0 + Z.of_nat k * step in
     P (body i s) /\
     (forall c, touched i c -> view (body i s) c = val c) /\
     (forall c, ~ touched i c -> view (body i s) c = view s c)) ->
  let s := for_iter n i0 step body s0 in
  P s /\
  (forall k c, (k < n)%nat -> touched (i0 + Z.of_nat k * step) c ->
     view s c = val c) /\
  (forall c, (forall k, (k < n)%nat ->
                ~ touched (i0 + Z.of_nat k * step) c) ->
     view s c = view s0 c).
Proof.
  intros HP Hdec Hstep.
  apply (for_iter_ind
           (fun m s =>
              P s /\
              (forall k c, (k < m)%nat ->
                 touched (i0 + Z.of_nat k * step) c -> view s c = val c) /\
              (forall c, (forall k, (k < m)%nat ->
                            ~ touched (i0 + Z.of_nat k * step) c) ->
                 view s c = view s0 c))).
  - split; [exact HP|]. split; [intros; lia | reflexivity].
  - intros m s Hm (HPs & Hdone & Hrest).
    destruct (Hstep m s Hm HPs) as (HP' & Hw & Hf).
    split; [exact HP'|]. split.
    + intros k c Hk Ht.
      destruct (Hdec (i0 + Z.of_nat m * step) c) as [Hc | Hc].
      * now apply Hw.
      * rewrite Hf by exact Hc. apply (Hdone k); [|exact Ht].
        destruct (Nat.eq_dec k m) as [-> | Hne]; [now elim Hc | lia].
    + intros c Hnone. rewrite Hf by (apply Hnone; lia).
      apply Hrest. intros k Hk. apply Hnone. lia.
Qed.

(** ** Sample reads after sample writes *)

Lemma same_frame_refl (a : IMAGE) : same_frame a a.
Proof. unfold same_frame. tauto. Qed.

Lemma same_frame_trans (a b c : IMAGE) :
  same_frame a b -> same_frame b c -> same_frame a c.
Proof. unfold same_frame. intuition congruence. Qed.

Lemma set_pix_frame (im : IMAGE) p y x v : same_frame im (set_pix im p y x v).
Proof.
  unfold set_pix, same_frame. destruct (pixArray im) eqn:E; simpl;
    rewrite ?E; tauto.
Qed.

Lemma set_dbl_frame (im : IMAGE) p y x v : same_frame im (set_dbl im p y x v).
Proof.
  unfold set_dbl, same_frame. destruct (dblPixArray im) eqn:E; simpl;
    rewrite ?E; tauto.
Qed.

Lemma pix_set_pix (im : IMAGE) p y x v p' y' x' :
  is_some (pixArray im) = true ->
  pix (set_pix im p y x v) p' y' x' =
  if (p' =? p) && (y' =? y) && (x' =? x) then v else pix im p' y' x'.
Proof.
  unfold pix, set_pix. destruct (pixArray im); [|discriminate].
  intros _. reflexivity.
Qed.

Lemma dbl_set_dbl (im : IMAGE) p y x v p' y' x' :
  is_some (dblPixArray im) = true ->
  dbl (set_dbl im p y x v) p' y' x' =
  if (p' =? p) && (y' =? y) && (x' =? x) then v else dbl im p' y' x'.
Proof.
  unfold dbl, set_dbl. destruct (dblPixArray im); [|discriminate].
  intros _. reflexivity.
Qed.

Lemma SetSubPixel_frame (im : IMAGE) y x plane v :
  same_frame im (SetSubPixel im y x plane v).
Proof.
  unfold SetSubPixel. destruct (negb (in_bounds im y x));
    [apply same_frame_refl|].
  destruct ((plane =? U_PLANE) || (plane =? V_PLANE));
    [destruct (HandleColorspaceAddress x y (colorSpace im))|];
    apply set_pix_frame.
Qed.

Lemma SetPixel_frame (im : IMAGE) y x pixel : same_frame im (SetPixel im y x pixel).
Proof.
  unfold SetPixel. destruct (negb (in_bounds im y x));
    [apply same_frame_refl|].
  destruct pixel as [[p0 p1] p2].
  destruct (HandleColorspaceAddress x y _) as [ax ay].
  eapply same_frame_trans; [|apply set_pix_frame].
  eapply same_frame_trans; [|apply set_pix_frame].
  apply set_pix_frame.
Qed.

(** [SetSubPixel] on the luma plane leaves the chroma planes alone. *)
Lemma pix_SetSubPixel_Y (im : IMAGE) y x v p r c :
  p <> Y_PLANE ->
  pix (SetSubPixel im y x Y_PLANE v) p r c = pix im p r c.
Proof.
  intros Hp. unfold SetSubPixel.
  destruct (negb (in_bounds im y x)); [reflexivity|].
  change ((Y_PLANE =? U_PLANE) || (Y_PLANE =? V_PLANE)) with false.
  cbv iota.
  destruct (pixArray im) as [a|] eqn:E.
  - rewrite pix_set_pix by (now rewrite E).
    destruct (Z.eqb_spec p Y_PLANE); [contradiction | reflexivity].
  - unfold set_pix. now rewrite E.
Qed.

(** The chroma samples after [SetPixel] inside the image. *)
Lemma pix_SetPixel_chroma (im : IMAGE) y x p0 p1 p2 p r c :
  is_some (pixArray im) = true -> in_bounds im y x = true ->
  p = U_PLANE \/ p = V_PLANE ->
  pix (SetPixel im y x (p0, p1, p2)) p r c =
  let '(ax, ay) := HandleColorspaceAddress x y (colorSpace im) in
  if (r =? ay) && (c =? ax)
  then (if p =? U_PLANE then p1 else p2)
  else pix im p r c.
Proof.
  intros Hsome Hin Hp. unfold SetPixel. rewrite Hin. simpl negb. cbv iota.
  assert (Hc : colorSpace (set_pix im Y_PLANE y x p0) = colorSpace im)
    by apply set_pix_frame.
  rewrite Hc. destruct (HandleColorspaceAddress x y (colorSpace im)) as [ax ay].
  assert (H1 : is_some (pixArray (set_pix im Y_PLANE y x p0)) = true).
  { destruct (set_pix_frame im Y_PLANE y x p0) as (_ & _ & _ & _ & -> & _).
    exact Hsome. }
  assert (H2 : is_some (pixArray (set_pix (set_pix im Y_PLANE y x p0)
                                    U_PLANE ay ax p1)) = true).
  { destruct (set_pix_frame (set_pix im Y_PLANE y x p0) U_PLANE ay ax p1)
      as (_ & _ & _ & _ & -> & _). exact H1. }
  rewrite !pix_set_pix by assumption.
  unfold U_PLANE, V_PLANE, Y_PLANE in *.
  destruct Hp as [-> | ->]; simpl;
    destruct (r =? ay), (c =? ax); reflexivity.
Qed.

(** ** The 4:2:0 chroma downsample *)

Lemma in_bounds_true (im : IMAGE) (y x : Z) :
  0 <= y < height im -> 0 <= x < width im -> in_bounds im y x = true.
Proof.
  intros Hy Hx. unfold in_bounds.
  destruct (Z.geb_spec y 0), (Z.geb_spec x 0),
    (Z.ltb_spec y (height im)), (Z.ltb_spec x (width im));
    simpl; try reflexivity; lia.
Qed.

Lemma Downsample420_block_chroma (tempImage out : IMAGE) (r' c' p r c : Z) :
  colorSpace out = YUV420 -> is_some (pixArray out) = true ->
  0 <= 2 * r' < height out -> 0 <= 2 * c' < width out ->
  p = U_PLANE \/ p = V_PLANE ->
  pix (Downsample420_block tempImage (2 * r') (2 * c') out) p r c =
  if (r =? r') && (c =? c') then block_average tempImage p r' c'
  else pix out p r c.
Proof.
  intros Hcs Hsome Hr Hc Hp. unfold Downsample420_block.
  assert (Hne : p <> Y_PLANE) by (destruct Hp; subst; discriminate).
  rewrite !pix_SetSubPixel_Y by exact Hne.
  rewrite pix_SetPixel_chroma
    by (try assumption; apply in_bounds_true; assumption).
  rewrite Hcs. unfold HandleColorspaceAddress.
  replace (Z.quot (2 * c') 2) with c' by (rewrite Z.mul_comm, Z.quot_mul; lia).
  replace (Z.quot (2 * r') 2) with r' by (rewrite Z.mul_comm, Z.quot_mul; lia).
  destruct ((r =? r') && (c =? c')); [|reflexivity].
  unfold block_average. destruct Hp as [-> | ->]; reflexivity.
Qed.

Lemma Downsample420_block_frame (tempImage out : IMAGE) (y x : Z) :
  same_frame out (Downsample420_block tempImage y x out).
Proof.
  unfold Downsample420_block.
  eapply same_frame_trans; [|apply SetSubPixel_frame].
  eapply same_frame_trans; [|apply SetSubPixel_frame].
  eapply same_frame_trans; [|apply SetSubPixel_frame].
  apply SetPixel_frame.
Qed.

Lemma for_loop_count_2 {S : Type} (hi : Z) (body : Z -> S -> S) (s : S) :
  for_loop 0 hi 2 body s = for_iter (Z.to_nat ((hi + 1) / 2)) 0 2 body s.
Proof. unfold for_loop. do 3 f_equal. lia. Qed.

(** Every block that starts inside the image ends with its average, in
    both chroma planes. *)
Lemma Downsample420_chroma (tempImage pImageOut : IMAGE) (p r c : Z) :
  colorSpace pImageOut = YUV420 -> is_some (pixArray pImageOut) = true ->
  p = U_PLANE \/ p = V_PLANE ->
  0 <= 2 * r < height pImageOut -> 0 <= 2 * c < width pImageOut ->
  pix (Downsample420 tempImage pImageOut) p r c =
  block_average tempImage p r c.
Proof.
  intros Hcs Hsome Hp Hr Hc. unfold Downsample420.
  set (W := width pImageOut) in *. set (H := height pImageOut) in *.
  set (view := fun (s : IMAGE) (k : Z * Z) => pix s p (fst k) (snd k)).
  set (val := fun k : Z * Z => block_average tempImage p (fst k) (snd k)).
  set (P := fun s : IMAGE => same_frame pImageOut s).
  (* one row of blocks *)
  assert (Hrow : forall (rr : Z) (s0 : IMAGE),
             0 <= 2 * rr < H -> P s0 ->
             let s := for_loop 0 W 2
                        (fun x out =>
                           Downsample420_block tempImage (2 * rr) x out) s0 in
             P s /\
             (forall cc, 0 <= 2 * cc < W -> view s (rr, cc) = val (rr, cc)) /\
             (forall k, fst k <> rr \/ ~ (0 <= 2 * snd k < W) ->
                view s k = view s0 k)).
  { intros rr s0 Hrr HP0. rewrite for_loop_count_2.
    destruct (fill_loop P view
                (fun x k => fst k = rr /\ 2 * snd k = x) val
                (Z.to_nat ((W + 1) / 2)) 0 2
                (fun x out => Downsample420_block tempImage (2 * rr) x out)
                s0 HP0) as (HP' & Hdone & Hrest).
    - intros i k. lia.
    - intros k s Hk HPs i. subst i.
      assert (Hk2 : 0 <= 2 * Z.of_nat k < W).
      { pose proof (Z.div_mod (W + 1) 2 ltac:(lia)).
        pose proof (Z.mod_pos_bound (W + 1) 2 ltac:(lia)).
        assert (Z.of_nat k < (W + 1) / 2) by lia. lia. }
      assert (Hfr : same_frame s
                      (Downsample420_block tempImage (2 * rr)
                         (0 + Z.of_nat k * 2) s))
        by apply Downsample420_block_frame.
      split; [eapply same_frame_trans; eassumption|].
      destruct HPs as (Hc1 & Hh1 & Hw1 & _ & Hs1 & _).
      assert (Hb : forall kk : Z * Z,
                 view (Downsample420_block tempImage (2 * rr)
                         (0 + Z.of_nat k * 2) s) kk =
                 if (fst kk =? rr) && (snd kk =? Z.of_nat k)
                 then val kk
                 else view s kk).
      { intros [kr kc]. unfold view, val. simpl fst; simpl snd.
        replace (0 + Z.of_nat k * 2) with (2 * Z.of_nat k) by lia.
        rewrite Downsample420_block_chroma; try assumption;
          try congruence; try (rewrite ?Hh1, ?Hw1; assumption).
        destruct (Z.eqb_spec kr rr), (Z.eqb_spec kc (Z.of_nat k));
          simpl; subst; reflexivity. }
      split.
      + intros kk [Hkr Hkc]. rewrite Hb.
        destruct (Z.eqb_spec (fst kk) rr); [|contradiction].
        destruct (Z.eqb_spec (snd kk) (Z.of_nat k)); [reflexivity | lia].
      + intros kk Hnot. rewrite Hb.
        destruct (Z.eqb_spec (fst kk) rr); [|reflexivity].
        destruct (Z.eqb_spec (snd kk) (Z.of_nat k)); [|reflexivity].
        exfalso. apply Hnot. lia.
    - split; [exact HP'|]. split.
      + intros cc Hcc. apply (Hdone (Z.to_nat cc)).
        * pose proof (Z.div_mod (W + 1) 2 ltac:(lia)).
          pose proof (Z.mod_pos_bound (W + 1) 2 ltac:(lia)). lia.
        * cbn [fst snd]. lia.
      + intros kk Hkk. apply Hrest. intros k Hk.
        assert (Hk2 : 0 <= 2 * Z.of_nat k < W).
        { pose proof (Z.div_mod (W + 1) 2 ltac:(lia)).
          pose proof (Z.mod_pos_bound (W + 1) 2 ltac:(lia)).
          assert (Z.of_nat k < (W + 1) / 2) by lia. lia. }
        lia. }
  (* all rows *)
  rewrite for_loop_count_2.
  destruct (fill_loop P view
              (fun y k => 2 * fst k = y /\ 0 <= 2 * snd k < W) val
              (Z.to_nat ((H + 1) / 2)) 0 2
              (fun y out =>
                 for_loop 0 W 2
                   (fun x out => Downsample420_block tempImage y x out) out)
              pImageOut (same_frame_refl _)) as (_ & Hdone & _).
  - intros i k. lia.
  - intros k s Hk HPs i. subst i.
    assert (Hk2 : 0 <= 2 * Z.of_nat k < H).
    { pose proof (Z.div_mod (H + 1) 2 ltac:(lia)).
      pose proof (Z.mod_pos_bound (H + 1) 2 ltac:(lia)).
      assert (Z.of_nat k < (H + 1) / 2) by lia. lia. }
    replace (0 + Z.of_nat k * 2) with (2 * Z.of_nat k) by lia.
    destruct (Hrow (Z.of_nat k) s Hk2 HPs) as (HP' & Hd & Hr').
    split; [exact HP'|]. split.
    + intros [kr kc] [Hkr Hkc]. cbn [fst snd] in Hkr, Hkc.
      replace kr with (Z.of_nat k) by lia. now apply Hd.
    + intros [kr kc] Hnot. apply Hr'. cbn [fst snd] in *. lia.
  - apply (Hdone (Z.to_nat r) (r, c)).
    + pose proof (Z.div_mod (H + 1) 2 ltac:(lia)).
      pose proof (Z.mod_pos_bound (H + 1) 2 ltac:(lia)). lia.
    + cbn [fst snd]. lia.
Qed.

Lemma PIXEL_of_int_range (z : Z) : 0 <= PIXEL_of_int z <= 255.
Proof.
  unfold PIXEL_of_int. pose proof (Z.mod_pos_bound z 256 ltac:(lia)). lia.
Qed.

Lemma RGBPixel2YUV_is_pixel (fl : RowRounding) (rgbPixel : Pixel) :
  is_pixel (RGBPixel2YUV fl rgbPixel).
Proof.
  destruct rgbPixel as [[r g] b]. unfold RGBPixel2YUV, is_pixel.
  unfold PIXEL_of_double. repeat split; apply PIXEL_of_int_range.
Qed.

Lemma set_pix_range (im : IMAGE) p y x v :
  0 <= v <= 255 -> samples_are_pixels im ->
  samples_are_pixels (set_pix im p y x v).
Proof.
  intros Hv Him p' r c.
  destruct (pixArray im) as [a|] eqn:E.
  - rewrite pix_set_pix by (now rewrite E).
    destruct ((p' =? p) && (r =? y) && (c =? x)); [exact Hv | apply Him].
  - unfold set_pix. rewrite E. apply Him.
Qed.

Lemma SetPixel_range (im : IMAGE) y x pixel :
  is_pixel pixel -> samples_are_pixels im ->
  samples_are_pixels (SetPixel im y x pixel).
Proof.
  destruct pixel as [[p0 p1] p2]. intros (H0 & H1 & H2) Him.
  unfold SetPixel. destruct (negb (in_bounds im y x)); [exact Him|].
  destruct (HandleColorspaceAddress x y _) as [ax ay].
  now repeat apply set_pix_range.
Qed.

Lemma RGB2YUV444_loop_range (fl : RowRounding) (pImageIn dst : IMAGE)
  (w h : Z) :
  samples_are_pixels dst ->
  samples_are_pixels (RGB2YUV444_loop fl pImageIn dst w h).
Proof.
  intros Hd. unfold RGB2YUV444_loop.
  apply for_loop_preserves; [exact Hd|]. intros y s Hs.
  apply for_loop_preserves; [exact Hs|]. intros x s' Hs'.
  apply SetPixel_range; [apply RGBPixel2YUV_is_pixel | exact Hs'].
Qed.

Lemma RGB2YUV444_loop_frame (fl : RowRounding) (pImageIn dst : IMAGE)
  (w h : Z) :
  same_frame dst (RGB2YUV444_loop fl pImageIn dst w h).
Proof.
  unfold RGB2YUV444_loop.
  apply for_loop_preserves; [apply same_frame_refl|]. intros y s Hs.
  apply for_loop_preserves; [exact Hs|]. intros x s' Hs'.
  eapply same_frame_trans; [exact Hs' | apply SetPixel_frame].
Qed.

Lemma GetSubPixel_inside_444 (im : IMAGE) (y x p : Z) (m : EdgeMethod) :
  colorSpace im = YUV444 ->
  0 <= y < height im -> 0 <= x < width im ->
  GetSubPixel im y x m p = pix im p y x.
Proof.
  intros Hcs Hy Hx. unfold GetSubPixel.
  rewrite !HandleEdgeCase_inside by assumption.
  rewrite Hcs. simpl. now destruct ((p =? U_PLANE) || (p =? V_PLANE)).
Qed.

Lemma avg_4_pixels (a b c d : Z) :
  0 <= a <= 255 -> 0 <= b <= 255 -> 0 <= c <= 255 -> 0 <= d <= 255 ->
  avg_4 a b c d = (a + b + c + d + 2) / 4.
Proof.
  intros Ha Hb Hc Hd. unfold avg_4, PIXEL_of_int.
  rewrite Z.quot_div_nonneg by lia.
  apply Z.mod_small.
  pose proof (Z.div_mod (a + b + c + d + 2) 4 ltac:(lia)).
  pose proof (Z.mod_pos_bound (a + b + c + d + 2) 4 ltac:(lia)). lia.
Qed.

Lemma RGBImage2YUV_420 (fl : RowRounding) (pImageIn pImageOut : IMAGE) :
  colorSpace pImageOut = YUV420 ->
  precision pImageIn = BPP8 -> precision pImageOut = BPP8 ->
  RGBImage2YUV fl pImageIn pImageOut =
  (true, Downsample420 (RGBImage2YUV_temp fl pImageIn pImageOut) pImageOut).
Proof.
  intros Hcs Hpi Hpo. unfold RGBImage2YUV. now rewrite Hcs, Hpi, Hpo.
Qed.

(** C8: in the RGB to YUV420 conversion, the chroma sample stored for a
    2x2 block of the full-resolution intermediate image is
    (a + b + c + d + 2) / 4 of the block's four samples, in the U and in the
    V plane; U samples 10, 20, 30, 40 give 25. *)
Theorem chroma420_block_average (fl : RowRounding)
  (pImageIn pImageOut : IMAGE) (p r c : Z)
  (Hcs : colorSpace pImageOut = YUV420)
  (Hpi : precision pImageIn = BPP8) (Hpo : precision pImageOut = BPP8)
  (Hbuf : pixArray pImageOut <> None)
  (Hp : p = U_PLANE \/ p = V_PLANE)
  (Hr : 0 <= r /\ 2 * r + 1 < height pImageOut)
  (Hc : 0 <= c /\ 2 * c + 1 < width pImageOut) :
  let tempImage := RGBImage2YUV_temp fl pImageIn pImageOut in
  let a := pix tempImage p (2 * r) (2 * c) in
  let b := pix tempImage p (2 * r) (2 * c + 1) in
  let c' := pix tempImage p (2 * r + 1) (2 * c) in
  let d := pix tempImage p (2 * r + 1) (2 * c + 1) in
  fst (RGBImage2YUV fl pImageIn pImageOut) = true /\
  pix (snd (RGBImage2YUV fl pImageIn pImageOut)) p r c
    = (a + b + c' + d + 2) / 4 /\
  pix (Downsample420 example_block (CreateImage YUV420 2 2 BPP8))
      U_PLANE 0 0 = (10 + 20 + 30 + 40 + 2) / 4 /\
  (10 + 20 + 30 + 40 + 2) / 4 = 25.
Proof.
  intros tempImage a b c' d.
  rewrite (RGBImage2YUV_420 _ _ _ Hcs Hpi Hpo). simpl fst; simpl snd.
  split; [reflexivity|]. split; [|split; [vm_compute|]; reflexivity].
  assert (Hsome : is_some (pixArray pImageOut) = true)
    by (destruct (pixArray pImageOut); [reflexivity | now elim Hbuf]).
  rewrite Downsample420_chroma by (try assumption; lia).
  fold tempImage.
  assert (Hfr : same_frame
                  (CreateImage YUV444 (width pImageOut) (height pImageOut)
                     BPP8) tempImage)
    by apply RGB2YUV444_loop_frame.
  destruct Hfr as (Hc1 & Hh1 & Hw1 & _). simpl in Hc1, Hh1, Hw1.
  assert (Hrange : samples_are_pixels tempImage).
  { apply RGB2YUV444_loop_range. intros p' r' c''.
    unfold pix, CreateImage, Array3.get, Array3.make. simpl. lia. }
  unfold block_average.
  rewrite !GetSubPixel_inside_444 by (rewrite ?Hh1, ?Hw1; (assumption || lia)).
  apply avg_4_pixels; apply Hrange.
Qed.

Lemma chroma420_block_average_witness :
  let pImageIn := CreateImage RGB 2 2 BPP8 in
  let pImageOut := CreateImage YUV420 2 2 BPP8 in
  colorSpace pImageOut = YUV420 /\
  precision pImageIn = BPP8 /\ precision pImageOut = BPP8 /\
  pixArray pImageOut <> None /\
  (U_PLANE = U_PLANE \/ U_PLANE = V_PLANE) /\
  (0 <= 0 /\ 2 * 0 + 1 < height pImageOut) /\
  (0 <= 0 /\ 2 * 0 + 1 < width pImageOut) /\
  fst (RGBImage2YUV exact_rows pImageIn pImageOut) = true /\
  pix (snd (RGBImage2YUV exact_rows pImageIn pImageOut)) U_PLANE 0 0
    = (pix (RGBImage2YUV_temp exact_rows pImageIn pImageOut) U_PLANE
           (2 * 0) (2 * 0)
       + pix (RGBImage2YUV_temp exact_rows pImageIn pImageOut) U_PLANE
           (2 * 0) (2 * 0 + 1)
       + pix (RGBImage2YUV_temp exact_rows pImageIn pImageOut) U_PLANE
           (2 * 0 + 1) (2 * 0)
       + pix (RGBImage2YUV_temp exact_rows pImageIn pImageOut) U_PLANE
           (2 * 0 + 1) (2 * 0 + 1) + 2) / 4 /\
  pix (Downsample420 example_block (CreateImage YUV420 2 2 BPP8))
      U_PLANE 0 0 = (10 + 20 + 30 + 40 + 2) / 4 /\
  (10 + 20 + 30 + 40 + 2) / 4 = 25.
Proof.
  intros pImageIn pImageOut.
  assert (H1 : colorSpace pImageOut = YUV420) by reflexivity.
  assert (H2 : precision pImageIn = BPP8) by reflexivity.
  assert (H3 : precision pImageOut = BPP8) by reflexivity.
  assert (H4 : pixArray pImageOut <> None) by (simpl; discriminate).
  assert (H5 : U_PLANE = U_PLANE \/ U_PLANE = V_PLANE) by (left; reflexivity).
  assert (H6 : 0 <= 0 /\ 2 * 0 + 1 < height pImageOut) by (simpl; lia).
  assert (H7 : 0 <= 0 /\ 2 * 0 + 1 < width pImageOut) by (simpl; lia).
  repeat (split; [assumption|]).
  exact (chroma420_block_average exact_rows pImageIn pImageOut U_PLANE 0 0
           H1 H2 H3 H4 H5 H6 H7).
Defined.

(** ** Copying an image *)

Lemma memcpy3_inside {A : Type} (dst src : Array3.t A) (h w p y x : Z) :
  0 <= p < 3 -> 0 <= y < h -> 0 <= x < w ->
  Array3.get (memcpy3 dst src h w) p y x = Array3.get src p y x.
Proof.
  intros Hp Hy Hx. unfold Array3.get, memcpy3.
  destruct (Z.leb_spec 0 p), (Z.ltb_spec p 3), (Z.leb_spec 0 y),
    (Z.ltb_spec y h), (Z.leb_spec 0 x), (Z.ltb_spec x w);
    simpl; try reflexivity; lia.
Qed.

(** Between images of one size and one precision, [CopyImage] succeeds and
    the destination then holds every sample of the source. *)
Lemma CopyImage_copies (pImageIn pImageOut : IMAGE) :
  width pImageIn = width pImageOut -> height pImageIn = height pImageOut ->
  allocated pImageIn -> allocated pImageOut ->
  precision pImageIn = precision pImageOut ->
  fst (CopyImage pImageIn pImageOut) = true /\
  forall p y x, sample_at pImageIn p y x ->
    pix (snd (CopyImage pImageIn pImageOut)) p y x = pix pImageIn p y x /\
    dbl (snd (CopyImage pImageIn pImageOut)) p y x = dbl pImageIn p y x.
Proof.
  intros Hw Hh Hin Hout Hprec. unfold CopyImage, allocated in *.
  rewrite Hw, Hh, !Z.eqb_refl. simpl negb. simpl orb. cbv iota.
  rewrite <- Hprec in Hout.
  destruct (precision pImageIn) eqn:Ep.
  - destruct Hin as [Hi1 Hi2], Hout as [Ho1 Ho2].
    destruct (pixArray pImageIn) as [src|] eqn:Esrc; [|contradiction].
    destruct (pixArray pImageOut) as [dst|] eqn:Edst; [|contradiction].
    simpl. split; [reflexivity|].
    intros p y x (Hp & Hy & Hx). unfold pix, dbl. simpl.
    rewrite Esrc, Hi2, Ho2. split; [|reflexivity].
    apply memcpy3_inside; lia.
  - destruct Hin as [Hi1 Hi2], Hout as [Ho1 Ho2].
    destruct (dblPixArray pImageIn) as [src|] eqn:Esrc; [|contradiction].
    destruct (dblPixArray pImageOut) as [dst|] eqn:Edst; [|contradiction].
    rewrite Hi1, Ho1. simpl. split; [reflexivity|].
    intros p y x (Hp & Hy & Hx). unfold pix, dbl. simpl.
    rewrite Esrc, Hi1, Ho1. split; [reflexivity|].
    apply memcpy3_inside; lia.
Qed.

(** ** Filling a rectangle of one plane *)

(** Two nested loops that write [val y x] at row [y], column [x] of plane
    [p], for every [y < hh] and [x < ww]. *)
Lemma rect_fill (s0 : IMAGE) (p hh ww : Z)
  (write : Z -> Z -> IMAGE -> IMAGE) (val : Z -> Z -> R) :
  is_some (dblPixArray s0) = true ->
  (forall y x s, 0 <= y < hh -> 0 <= x < ww ->
     write y x s = set_dbl s p y x (val y x)) ->
  let s := for_loop 0 hh 1
             (fun y s => for_loop 0 ww 1 (fun x s => write y x s) s) s0 in
  same_frame s0 s /\
  (forall r c, 0 <= r < hh -> 0 <= c < ww -> dbl s p r c = val r c) /\
  (forall p' r c, p' <> p \/ ~ 0 <= r < hh \/ ~ 0 <= c < ww ->
     dbl s p' r c = dbl s0 p' r c).
Proof.
  intros Hsome Hwrite.
  set (view := fun (s : IMAGE) (k : Z * Z * Z) =>
                 dbl s (fst (fst k)) (snd (fst k)) (snd k)).
  set (vals := fun k : Z * Z * Z => val (snd (fst k)) (snd k)).
  set (P := fun s : IMAGE => same_frame s0 s).
  assert (Hcell : forall y x s (k : Z * Z * Z),
             P s -> 0 <= y < hh -> 0 <= x < ww ->
             P (write y x s) /\
             view (write y x s) k =
             if (fst (fst k) =? p) && (snd (fst k) =? y) && (snd k =? x)
             then vals k else view s k).
  { intros y x s [[kp kr] kc] HPs Hy Hx. rewrite (Hwrite y x s Hy Hx).
    split; [eapply same_frame_trans; [exact HPs | apply set_dbl_frame]|].
    unfold view, vals. cbn [fst snd].
    rewrite dbl_set_dbl.
    - destruct (Z.eqb_spec kp p), (Z.eqb_spec kr y), (Z.eqb_spec kc x);
        simpl; subst; reflexivity.
    - destruct HPs as (_ & _ & _ & _ & _ & ->). exact Hsome. }
  assert (Hrow : forall (y : Z) (s1 : IMAGE),
             0 <= y < hh -> P s1 ->
             let s := for_loop 0 ww 1 (fun x s => write y x s) s1 in
             P s /\
             (forall k, fst (fst k) = p /\ snd (fst k) = y /\
                        0 <= snd k < ww -> view s k = vals k) /\
             (forall k, ~ (fst (fst k) = p /\ snd (fst k) = y /\
                           0 <= snd k < ww) -> view s k = view s1 k)).
  { intros y s1 Hy HP1. rewrite for_loop_count_1.
    destruct (fill_loop P view
                (fun x k => fst (fst k) = p /\ snd (fst k) = y /\ snd k = x)
                vals (Z.to_nat (ww - 0)) 0 1
                (fun x s => write y x s) s1 HP1) as (HP' & Hdone & Hrest).
    - intros i k. lia.
    - intros k s Hk HPs i. subst i.
      destruct (Hcell y (0 + Z.of_nat k * 1) s) with (k := (0, 0, 0))
        as [HPw _]; [exact HPs | exact Hy | lia |].
      split; [exact HPw|]. split.
      + intros kk (H1 & H2 & H3).
        destruct (Hcell y (0 + Z.of_nat k * 1) s kk HPs Hy ltac:(lia))
          as [_ ->].
        rewrite H1, H2, H3, !Z.eqb_refl. reflexivity.
      + intros kk Hnot.
        destruct (Hcell y (0 + Z.of_nat k * 1) s kk HPs Hy ltac:(lia))
          as [_ ->].
        destruct (Z.eqb_spec (fst (fst kk)) p), (Z.eqb_spec (snd (fst kk)) y),
          (Z.eqb_spec (snd kk) (0 + Z.of_nat k * 1)); simpl;
          try reflexivity.
        exfalso. apply Hnot. auto.
    - split; [exact HP'|]. split.
      + intros kk (H1 & H2 & H3).
        apply (Hdone (Z.to_nat (snd kk))); [lia|].
        repeat split; try assumption. lia.
      + intros kk Hnot. apply Hrest. intros k Hk Ht. apply Hnot.
        destruct Ht as (H1 & H2 & H3). repeat split; try assumption; lia. }
  intros s. subst s. rewrite for_loop_count_1.
  destruct (fill_loop P view
              (fun y k => fst (fst k) = p /\ snd (fst k) = y /\
                          0 <= snd k < ww)
              vals (Z.to_nat (hh - 0)) 0 1
              (fun y s => for_loop 0 ww 1 (fun x s => write y x s) s)
              s0 (same_frame_refl _)) as (HP' & Hdone & Hrest).
  - intros i k. lia.
  - intros k s Hk HPs i. subst i.
    destruct (Hrow (0 + Z.of_nat k * 1) s ltac:(lia) HPs)
      as (HPr & Hd & Hr).
    split; [exact HPr|]. split; [exact Hd | exact Hr].
  - split; [exact HP'|]. split.
    + intros r c Hr Hc.
      apply (Hdone (Z.to_nat r) (p, r, c)); [lia|].
      cbn [fst snd]. lia.
    + intros p' r c Hnot.
      apply (Hrest (p', r, c)). intros k Hk Ht.
      cbn [fst snd] in Ht. lia.
Qed.

(** ** What the gamma stages write *)

(** Two nested loops that store [f y x] at row [y], column [x] of plane
    [p] of a buffer. *)
Lemma array_rect_fill {A : Type} (a0 : Array3.t A) (p hh ww : Z)
  (f : Z -> Z -> A) (p' r c : Z) :
  Array3.get
    (for_loop 0 hh 1
       (fun y a =>
          for_loop 0 ww 1 (fun x a => Array3.set a p y x (f y x)) a) a0)
    p' r c =
  if (p' =? p) && ((0 <=? r) && (r <? hh)) && ((0 <=? c) && (c <? ww))
  then f r c else Array3.get a0 p' r c.
Proof.
  set (view := fun (a : Array3.t A) (k : Z * Z * Z) =>
                 Array3.get a (fst (fst k)) (snd (fst k)) (snd k)).
  set (vals := fun k : Z * Z * Z => f (snd (fst k)) (snd k)).
  assert (Hrow : forall (y : Z) (a1 : Array3.t A),
             let a := for_loop 0 ww 1
                        (fun x a => Array3.set a p y x (f y x)) a1 in
             (forall k, fst (fst k) = p /\ snd (fst k) = y /\
                        0 <= snd k < ww -> view a k = vals k) /\
             (forall k, ~ (fst (fst k) = p /\ snd (fst k) = y /\
                           0 <= snd k < ww) -> view a k = view a1 k)).
  { intros y a1. rewrite for_loop_count_1.
    destruct (fill_loop (fun _ => True) view
                (fun x k => fst (fst k) = p /\ snd (fst k) = y /\ snd k = x)
                vals (Z.to_nat (ww - 0)) 0 1
                (fun x a => Array3.set a p y x (f y x)) a1 I)
      as (_ & Hdone & Hrest).
    - intros i k. lia.
    - intros k a _ _ i. subst i. split; [exact I|]. split.
      + intros [[kp kr] kc] (H1 & H2 & H3). cbn [fst snd] in *. subst.
        unfold view, vals. cbn [fst snd]. apply Array3_get_set_same.
      + intros [[kp kr] kc] Hnot. unfold view. cbn [fst snd] in *.
        apply Array3_get_set_other. intros Heq. apply Hnot.
        inversion Heq. auto.
    - split.
      + intros kk (H1 & H2 & H3).
        apply (Hdone (Z.to_nat (snd kk))); [lia|].
        repeat split; try assumption. lia.
      + intros kk Hnot. apply Hrest. intros k Hk Ht. apply Hnot.
        destruct Ht as (H1 & H2 & H3). repeat split; try assumption; lia. }
  rewrite for_loop_count_1.
  destruct (fill_loop (fun _ => True) view
              (fun y k => fst (fst k) = p /\ snd (fst k) = y /\
                          0 <= snd k < ww)
              vals (Z.to_nat (hh - 0)) 0 1
              (fun y a =>
                 for_loop 0 ww 1 (fun x a => Array3.set a p y x (f y x)) a)
              a0 I) as (_ & Hdone & Hrest).
  - intros i k. lia.
  - intros k a _ _ i. subst i.
    destruct (Hrow (0 + Z.of_nat k * 1) a) as (Hd & Hr).
    split; [exact I|]. split; [exact Hd | exact Hr].
  - destruct (Z.eqb_spec p' p) as [-> | Hp];
      destruct (Z.leb_spec 0 r), (Z.ltb_spec r hh),
        (Z.leb_spec 0 c), (Z.ltb_spec c ww); simpl;
      try (apply (Hrest (_, r, c)); intros k Hk Ht;
           cbn [fst snd] in Ht; lia).
    apply (Hdone (Z.to_nat r) (p, r, c)); [lia|]. cbn [fst snd]. lia.
Qed.

Lemma in_window (h w p r c : Z) :
  0 <= p < 3 -> 0 <= r < h -> 0 <= c < w ->
  forall q, 0 <= q < 3 ->
  (p =? q) && ((0 <=? r) && (r <? h)) && ((0 <=? c) && (c <? w))
  = (p =? q).
Proof.
  intros Hp Hr Hc q Hq.
  destruct (Z.leb_spec 0 r), (Z.ltb_spec r h), (Z.leb_spec 0 c),
    (Z.ltb_spec c w); try lia.
Qed.

Lemma out_window (h w p r c : Z) :
  ~ (0 <= p < 3 /\ 0 <= r < h /\ 0 <= c < w) ->
  forall q, 0 <= q < 3 ->
  (p =? q) && ((0 <=? r) && (r <? h)) && ((0 <=? c) && (c <? w)) = false.
Proof.
  intros Hn q Hq.
  destruct (Z.eqb_spec p q), (Z.leb_spec 0 r), (Z.ltb_spec r h),
    (Z.leb_spec 0 c), (Z.ltb_spec c w); simpl; try reflexivity.
  exfalso. apply Hn. lia.
Qed.

(** When its checks pass, [DegammaImage] fills the three planes over the
    whole width and height, leaves every other sample of the destination
    and every field of it alone, and reports success. *)
Lemma DegammaImage_effect (pImageIn pImageOut : IMAGE)
  (fwdGamma : list R)
  (Hok : gamma_args_ok pImageIn pImageOut
           (pixArray pImageIn) (dblPixArray pImageOut)) :
  let res := DegammaImage pImageIn pImageOut fwdGamma in
  fst res = true /\ same_frame pImageOut (snd res) /\
  (forall p y x, sample_at pImageIn p y x ->
     dbl (snd res) p y x =
     degamma_sample (colorSpace pImageIn) fwdGamma p (pix pImageIn p y x)) /\
  (forall p y x, ~ sample_at pImageIn p y x ->
     dbl (snd res) p y x = dbl pImageOut p y x).
Proof.
  destruct Hok as (Hw & Hh & Hsrc & Hdst & Hcs).
  unfold DegammaImage, sample_at, degamma_sample, pix, dbl.
  rewrite Hw, Hh, !Z.eqb_refl. simpl negb. simpl orb. cbv iota.
  destruct (pixArray pImageIn) as [src|] eqn:Esrc; [|now elim Hsrc].
  destruct (dblPixArray pImageOut) as [dst|] eqn:Edst; [|now elim Hdst].
  rewrite <- Hcs.
  destruct (ColorSpaces_eqb_spec (colorSpace pImageIn) (colorSpace pImageIn))
    as [_|H]; [|now elim H].
  simpl negb. cbv iota. cbv zeta. rewrite <- Hw, <- Hh.
  cbn [fst snd with_dblPixArray dblPixArray].
  split; [reflexivity|]. split.
  { unfold same_frame. cbn. rewrite Edst. auto 10. }
  unfold R_PLANE, B_PLANE, Y_PLANE, U_PLANE, V_PLANE, FWD_GAMMA_LUTSIZE.
  destruct (ColorSpaces_eqb (colorSpace pImageIn) RGB).
  - rewrite (for_loop_first 0 (2 + 1)) by lia.
    rewrite (for_loop_first (0 + 1)) by lia.
    rewrite (for_loop_first (0 + 1 + 1)) by lia.
    rewrite for_loop_empty by lia.
    split; intros p y x Hs; rewrite !array_rect_fill.
    + destruct Hs as (Hp & Hy & Hx).
      rewrite !(in_window _ _ p y x Hp Hy Hx) by lia. simpl orb.
      destruct (Z.eqb_spec p (0 + 1 + 1)); [subst; reflexivity|].
      destruct (Z.eqb_spec p (0 + 1)); [subst; reflexivity|].
      destruct (Z.eqb_spec p 0); [subst; reflexivity | lia].
    + now rewrite !(out_window _ _ p y x Hs) by lia.
  - rewrite (for_loop_first 1 (2 + 1)) by lia.
    rewrite (for_loop_first (1 + 1)) by lia.
    rewrite for_loop_empty by lia.
    split; intros p y x Hs; rewrite !array_rect_fill.
    + destruct Hs as (Hp & Hy & Hx).
      rewrite !(in_window _ _ p y x Hp Hy Hx) by lia. simpl orb.
      destruct (Z.eqb_spec p (1 + 1)); [subst; reflexivity|].
      destruct (Z.eqb_spec p 1); [subst; reflexivity|].
      destruct (Z.eqb_spec p 0); [subst; reflexivity | lia].
    + now rewrite !(out_window _ _ p y x Hs) by lia.
Qed.

Lemma GammaImage_effect (pImageIn pImageOut : IMAGE) (bwdGamma : list Z) :
  gamma_args_ok pImageIn pImageOut
    (dblPixArray pImageIn) (pixArray pImageOut) ->
  let res := GammaImage pImageIn pImageOut bwdGamma in
  fst res = true /\ same_frame pImageOut (snd res) /\
  (forall p y x, sample_at pImageIn p y x ->
     pix (snd res) p y x =
     gamma_sample (colorSpace pImageIn) bwdGamma p (dbl pImageIn p y x)) /\
  (forall p y x, ~ sample_at pImageIn p y x ->
     pix (snd res) p y x = pix pImageOut p y x).
Proof.
  intros (Hw & Hh & Hsrc & Hdst & Hcs).
  unfold GammaImage, sample_at, gamma_sample, pix, dbl.
  rewrite Hw, Hh, !Z.eqb_refl. simpl negb. simpl orb. cbv iota.
  destruct (dblPixArray pImageIn) as [src|] eqn:Esrc; [|now elim Hsrc].
  destruct (pixArray pImageOut) as [dst|] eqn:Edst; [|now elim Hdst].
  rewrite <- Hcs.
  destruct (ColorSpaces_eqb_spec (colorSpace pImageIn) (colorSpace pImageIn))
    as [_|H]; [|now elim H].
  simpl negb. cbv iota. cbv zeta. rewrite <- Hw, <- Hh.
  cbn [fst snd with_pixArray pixArray].
  split; [reflexivity|]. split.
  { unfold same_frame. cbn. rewrite Edst. auto 10. }
  unfold R_PLANE, B_PLANE, Y_PLANE, U_PLANE, V_PLANE.
  destruct (ColorSpaces_eqb (colorSpace pImageIn) RGB).
  - rewrite (for_loop_first 0 (2 + 1)) by lia.
    rewrite (for_loop_first (0 + 1)) by lia.
    rewrite (for_loop_first (0 + 1 + 1)) by lia.
    rewrite for_loop_empty by lia.
    split; intros p y x Hs;
      rewrite !(array_rect_fill _ _ _ _
                  (fun y x => index bwdGamma _ 0)).
    + destruct Hs as (Hp & Hy & Hx).
      rewrite !(in_window _ _ p y x Hp Hy Hx) by lia. simpl orb.
      destruct (Z.eqb_spec p (0 + 1 + 1)); [subst; reflexivity|].
      destruct (Z.eqb_spec p (0 + 1)); [subst; reflexivity|].
      destruct (Z.eqb_spec p 0); [subst; reflexivity | lia].
    + now rewrite !(out_window _ _ p y x Hs) by lia.
  - rewrite (for_loop_first 1 (2 + 1)) by lia.
    rewrite (for_loop_first (1 + 1)) by lia.
    rewrite for_loop_empty by lia.
    split; intros p y x Hs;
      rewrite !(array_rect_fill _ _ _ _
                  (fun y x => PIXEL_of_double _)),
              (array_rect_fill _ _ _ _
                  (fun y x => index bwdGamma _ 0)).
    + destruct Hs as (Hp & Hy & Hx).
      rewrite !(in_window _ _ p y x Hp Hy Hx) by lia. simpl orb.
      destruct (Z.eqb_spec p (1 + 1)); [subst; reflexivity|].
      destruct (Z.eqb_spec p 1); [subst; reflexivity|].
      destruct (Z.eqb_spec p 0); [subst; reflexivity | lia].
    + now rewrite !(out_window _ _ p y x Hs) by lia.
Qed.

(** ** The gamma tables and the two stages together *)

Lemma Z_div_R_bounds (n d : Z) :
  0 < d -> (IZR (n / d) <= IZR n / IZR d < IZR (n / d) + 1)%R.
Proof.
  intros Hd.
  pose proof (Z.div_mod n d ltac:(lia)) as Hdm.
  pose proof (Z.mod_pos_bound n d Hd) as Hm.
  assert (HdR : (0 < IZR d)%R) by (apply IZR_lt; lia).
  assert (Hn : (IZR n = IZR d * IZR (n / d) + IZR (n mod d))%R).
  { rewrite <- mult_IZR, <- plus_IZR. f_equal. exact Hdm. }
  assert (Hr0 : (0 <= IZR (n mod d))%R) by (apply IZR_le; lia).
  assert (Hr1 : (IZR (n mod d) < IZR d)%R) by (apply IZR_lt; lia).
  assert (Hq : (IZR n / IZR d = IZR (n / d) + IZR (n mod d) / IZR d)%R).
  { rewrite Hn. field. lra. }
  assert (Hf0 : (0 <= IZR (n mod d) / IZR d)%R).
  { apply Rmult_le_pos; [exact Hr0|]. left. now apply Rinv_0_lt_compat. }
  assert (Hf1 : (IZR (n mod d) / IZR d < 1)%R).
  { apply (Rmult_lt_reg_r (IZR d)); [exact HdR|].
    unfold Rdiv. rewrite Rmult_assoc, Rinv_l by lra. lra. }
  lra.
Qed.

(** Truncation of a clamped non-negative ratio of integers. *)
Lemma ctrunc_CLAMP_ratio (n d b : Z) :
  0 <= n -> 0 < d -> 0 <= b ->
  ctrunc (CLAMP (IZR n / IZR d)%R 0%R (IZR b)) = Z.min b (n / d).
Proof.
  intros Hn Hd Hb.
  pose proof (Z_div_R_bounds n d Hd) as Hq.
  assert (Hk : 0 <= n / d) by (apply Z.div_pos; lia).
  assert (Hk' : (0 <= IZR (n / d))%R) by (apply IZR_le; lia).
  assert (HbR : (0 <= IZR b)%R) by (apply IZR_le; lia).
  destruct (Rlt_dec (IZR b) (IZR n / IZR d)) as [Hbig | Hsmall].
  - rewrite CLAMP_R_hi by lra.
    rewrite (ctrunc_R_floor (IZR b) b) by lra.
    assert (b < n / d + 1).
    { apply lt_IZR. rewrite plus_IZR. lra. }
    lia.
  - rewrite CLAMP_R_id by lra.
    rewrite (ctrunc_R_floor _ (n / d)) by lra.
    assert (n / d <= b).
    { apply le_IZR. lra. }
    lia.
Qed.

Lemma Rpower_one_base (y : R) : Rpower 1 y = 1%R.
Proof. unfold Rpower. rewrite ln_1, Rmult_0_r. apply exp_0. Qed.

Lemma pow_unit (x y : R) :
  (0 <= x <= 1)%R -> (0 < y)%R -> (0 <= pow x y <= 1)%R.
Proof.
  intros Hx Hy. unfold pow.
  destruct (Req_dec_T y 0) as [H|_]; [lra|].
  destruct (Req_dec_T x 0) as [H|Hx0]; [lra|].
  split.
  - left. apply exp_pos.
  - rewrite <- (Rpower_one_base y). apply Rle_Rpower_l; lra.
Qed.

Lemma pow_mono (x x' y : R) :
  (0 <= x <= x')%R -> (0 < y)%R -> (pow x y <= pow x' y)%R.
Proof.
  intros Hx Hy. unfold pow.
  destruct (Req_dec_T y 0) as [H|_]; [lra|].
  destruct (Req_dec_T x 0) as [H|Hx0];
    destruct (Req_dec_T x' 0) as [H'|Hx0']; try lra.
  - left. apply exp_pos.
  - apply Rle_Rpower_l; lra.
Qed.

Lemma pow_one_base (y : R) : pow 1 y = 1%R.
Proof.
  unfold pow. destruct (Req_dec_T y 0); [reflexivity|].
  destruct (Req_dec_T 1 0); [lra|]. apply Rpower_one_base.
Qed.

Lemma index_outside {A : Type} (n : Z) (f : Z -> A) (i : Z) (d : A) :
  0 < n -> ~ 0 <= i < n ->
  index (LUT n f) i d = if i <? 0 then f 0 else d.
Proof.
  intros Hn Hi. destruct (Z.ltb_spec i 0) as [Hneg | Hpos].
  - rewrite <- (LUT_index n f 0 d) by lia. unfold index.
    now replace (Z.to_nat i) with (Z.to_nat 0) by lia.
  - unfold index, LUT. apply nth_overflow.
    rewrite length_map, length_seq. lia.
Qed.

Lemma fwdGamma_entry_unit (gamma : R) (i : Z) :
  (0 < gamma)%R -> (0 <= index (make_fwdGamma gamma) i 0 <= 1)%R.
Proof.
  intros Hg. unfold make_fwdGamma, FWD_GAMMA_LUTSIZE, PIXMAX.
  assert (Hin : forall k, 0 <= k < 256 ->
            (0 <= pow (IZR k / IZR 255) gamma <= 1)%R).
  { intros k Hk. apply pow_unit; [|exact Hg].
    assert (0 <= IZR k <= 255)%R by (split; apply IZR_le; lia). lra. }
  destruct (Z_le_dec 0 i) as [H0|H0]; [destruct (Z_lt_dec i 256) as [H1|H1]|].
  - rewrite LUT_index by lia. apply Hin. lia.
  - rewrite index_outside by lia.
    destruct (Z.ltb_spec i 0); [lia | lra].
  - rewrite index_outside by lia.
    destruct (Z.ltb_spec i 0); [apply Hin; lia | lia].
Qed.

(** For a positive exponent the forward table starts at 0, ends at 1,
    never decreases, and every entry lies in [0, 1]. *)
Theorem fwdGamma_table_shape (gamma : R) (Hg : (0 < gamma)%R) :
  let fwdGamma := make_fwdGamma gamma in
  index fwdGamma 0 0%R = 0%R /\
  index fwdGamma (FWD_GAMMA_LUTSIZE - 1) 0%R = 1%R /\
  (forall i j, 0 <= i <= j -> j < FWD_GAMMA_LUTSIZE ->
     (index fwdGamma i 0 <= index fwdGamma j 0)%R) /\
  (forall i, (0 <= index fwdGamma i 0 <= 1)%R).
Proof.
  cbv zeta. split; [|split; [|split]].
  - unfold make_fwdGamma, FWD_GAMMA_LUTSIZE, PIXMAX.
    rewrite LUT_index by lia. unfold pow.
    destruct (Req_dec_T gamma 0); [lra|].
    destruct (Req_dec_T (0 / IZR 255) 0); [reflexivity | lra].
  - unfold make_fwdGamma, FWD_GAMMA_LUTSIZE, PIXMAX.
    rewrite LUT_index by lia.
    replace (IZR (256 - 1) / IZR 255)%R with 1%R.
    + apply pow_one_base.
    + replace (256 - 1) with 255 by lia. lra.
  - intros i j Hij Hj. unfold make_fwdGamma, FWD_GAMMA_LUTSIZE, PIXMAX in *.
    rewrite !LUT_index by lia. apply pow_mono; [|exact Hg].
    assert (0 <= IZR i <= IZR j)%R by (split; apply IZR_le; lia).
    split.
    + apply Rmult_le_pos; [lra|]. left. apply Rinv_0_lt_compat. lra.
    + apply Rmult_le_compat_r; [|lra]. left. apply Rinv_0_lt_compat. lra.
  - intros i. now apply fwdGamma_entry_unit.
Qed.

Lemma fwdGamma_table_shape_witness :
  (0 < 2.2)%R /\
  let fwdGamma := make_fwdGamma 2.2 in
  index fwdGamma 0 0%R = 0%R /\
  index fwdGamma (FWD_GAMMA_LUTSIZE - 1) 0%R = 1%R /\
  (forall i j, 0 <= i <= j -> j < FWD_GAMMA_LUTSIZE ->
     (index fwdGamma i 0 <= index fwdGamma j 0)%R) /\
  (forall i, (0 <= index fwdGamma i 0 <= 1)%R).
Proof.
  assert (H : (0 < 2.2)%R) by lra.
  split; [exact H | exact (fwdGamma_table_shape 2.2 H)].
Defined.

(** With a table built for a positive exponent, [DegammaImage] succeeds on
    checked arguments and every sample it stores lies in [0, 1], the range
    that the resampler clamps to. *)
Theorem DegammaImage_unit_range (pImageIn pImageOut : IMAGE) (gamma : R)
  (Hg : (0 < gamma)%R)
  (Hok : gamma_args_ok pImageIn pImageOut
           (pixArray pImageIn) (dblPixArray pImageOut)) :
  let res := DegammaImage pImageIn pImageOut (make_fwdGamma gamma) in
  fst res = true /\ same_frame pImageOut (snd res) /\
  (forall p y x, sample_at pImageIn p y x ->
     (0 <= dbl (snd res) p y x <= 1)%R) /\
  (forall p y x, ~ sample_at pImageIn p y x ->
     dbl (snd res) p y x = dbl pImageOut p y x).
Proof.
  destruct (DegammaImage_effect pImageIn pImageOut (make_fwdGamma gamma) Hok)
    as (Hres & Hframe & Hin & Hout).
  cbv zeta. repeat (split; [assumption|]). split; [|exact Hout].
  intros p y x Hs. rewrite (Hin p y x Hs). unfold degamma_sample.
  destruct (_ || _).
  - now apply fwdGamma_entry_unit.
  - unfold FWD_GAMMA_LUTSIZE.
    pose proof (CLAMP_Z_range (pix pImageIn p y x) 0 (256 - 1) ltac:(lia))
      as Hc.
    set (c := CLAMP _ _ _) in *.
    assert (0 <= IZR c <= 255)%R by (split; apply IZR_le; lia).
    replace (256 - 1) with 255 by lia. lra.
Qed.

Lemma DegammaImage_unit_range_witness :
  let pImageIn := CreateImage YUV420 4 2 BPP8 in
  let pImageOut := CreateImage YUV420 4 2 DOUBLE in
  (0 < 2.2)%R /\
  gamma_args_ok pImageIn pImageOut
    (pixArray pImageIn) (dblPixArray pImageOut) /\
  let res := DegammaImage pImageIn pImageOut (make_fwdGamma 2.2) in
  fst res = true /\ same_frame pImageOut (snd res) /\
  (forall p y x, sample_at pImageIn p y x ->
     (0 <= dbl (snd res) p y x <= 1)%R) /\
  (forall p y x, ~ sample_at pImageIn p y x ->
     dbl (snd res) p y x = dbl pImageOut p y x).
Proof.
  intros pImageIn pImageOut.
  assert (Hg : (0 < 2.2)%R) by lra.
  assert (Hok : gamma_args_ok pImageIn pImageOut
                  (pixArray pImageIn) (dblPixArray pImageOut)).
  { unfold gamma_args_ok. simpl. repeat split; discriminate. }
  split; [exact Hg|]. split; [exact Hok|].
  exact (DegammaImage_unit_range pImageIn pImageOut 2.2 Hg Hok).
Defined.

Lemma bwdGamma_entry_pixel (gamma : R) (i : Z) :
  0 <= index (make_bwdGamma gamma) i 0 <= 255.
Proof.
  unfold make_bwdGamma, BWD_GAMMA_LUTSIZE. cbv zeta.
  destruct (Z_le_dec 0 i) as [H0|H0]; [destruct (Z_lt_dec i 4096) as [H1|H1]|].
  - rewrite LUT_index by lia. apply PIXEL_of_int_range.
  - rewrite index_outside by lia. destruct (Z.ltb_spec i 0); lia.
  - rewrite index_outside by lia.
    destruct (Z.ltb_spec i 0); [apply PIXEL_of_int_range | lia].
Qed.

(** Whatever the double samples are, [GammaImage] with the table built in
    [main] stores 8-bit values: on checked arguments it succeeds and every
    sample it writes lies in 0..255. *)
Theorem GammaImage_pixel_range (pImageIn pImageOut : IMAGE) (gamma : R)
  (Hok : gamma_args_ok pImageIn pImageOut
           (dblPixArray pImageIn) (pixArray pImageOut)) :
  let res := GammaImage pImageIn pImageOut (make_bwdGamma gamma) in
  fst res = true /\ same_frame pImageOut (snd res) /\
  (forall p y x, sample_at pImageIn p y x ->
     0 <= pix (snd res) p y x <= 255) /\
  (forall p y x, ~ sample_at pImageIn p y x ->
     pix (snd res) p y x = pix pImageOut p y x).
Proof.
  destruct (GammaImage_effect pImageIn pImageOut (make_bwdGamma gamma) Hok)
    as (Hres & Hframe & Hin & Hout).
  cbv zeta. repeat (split; [assumption|]). split; [|exact Hout].
  intros p y x Hs. rewrite (Hin p y x Hs). unfold gamma_sample.
  destruct (_ || _).
  - apply bwdGamma_entry_pixel.
  - apply PIXEL_of_int_range.
Qed.

Lemma GammaImage_pixel_range_witness :
  let pImageIn := CreateImage RGB 3 2 DOUBLE in
  let pImageOut := CreateImage RGB 3 2 BPP8 in
  gamma_args_ok pImageIn pImageOut
    (dblPixArray pImageIn) (pixArray pImageOut) /\
  let res := GammaImage pImageIn pImageOut (make_bwdGamma 2.2) in
  fst res = true /\ same_frame pImageOut (snd res) /\
  (forall p y x, sample_at pImageIn p y x ->
     0 <= pix (snd res) p y x <= 255) /\
  (forall p y x, ~ sample_at pImageIn p y x ->
     pix (snd res) p y x = pix pImageOut p y x).
Proof.
  intros pImageIn pImageOut.
  assert (Hok : gamma_args_ok pImageIn pImageOut
                  (dblPixArray pImageIn) (pixArray pImageOut)).
  { unfold gamma_args_ok. simpl. repeat split; discriminate. }
  split; [exact Hok|].
  exact (GammaImage_pixel_range pImageIn pImageOut 2.2 Hok).
Defined.

Lemma fwdGamma_1_entry (v : Z) :
  0 <= v <= 255 -> index (make_fwdGamma 1) v 0%R = (IZR v / 255)%R.
Proof.
  intros Hv. unfold make_fwdGamma, FWD_GAMMA_LUTSIZE, PIXMAX.
  rewrite LUT_index by lia.
  destruct (Z.eq_dec v 0) as [-> | Hnz].
  - unfold pow. destruct (Req_dec_T 1 0); [lra|].
    destruct (Req_dec_T (0 / IZR 255) 0); lra.
  - apply pow_1. assert (1 <= IZR v)%R by (apply IZR_le; lia). lra.
Qed.

Lemma bwdGamma_1_entry (i : Z) :
  0 <= i <= 4095 ->
  index (make_bwdGamma 1) i 0 = (510 * i + 4096) / 8192.
Proof.
  intros Hi. unfold make_bwdGamma, BWD_GAMMA_LUTSIZE, PIXMAX. cbv zeta.
  rewrite LUT_index by lia.
  assert (H11 : (1 / 1 = 1)%R) by lra. rewrite H11.
  assert (Hp : pow (IZR i / IZR 4096) 1 = (IZR i / 4096)%R).
  { destruct (Z.eq_dec i 0) as [-> | Hnz].
    - unfold pow. destruct (Req_dec_T 1 0); [lra|].
      destruct (Req_dec_T (0 / IZR 4096) 0); lra.
    - apply pow_1. assert (1 <= IZR i)%R by (apply IZR_le; lia). lra. }
  rewrite Hp.
  replace (IZR 255 * (IZR i / 4096) + 0.5)%R
    with (IZR (510 * i + 4096) / IZR 8192)%R
    by (rewrite plus_IZR, mult_IZR; lra).
  unfold PIXEL_of_double, PIXEL_of_int.
  rewrite ctrunc_CLAMP_ratio by lia.
  pose proof (Z.div_mod (510 * i + 4096) 8192 ltac:(lia)).
  pose proof (Z.mod_pos_bound (510 * i + 4096) 8192 ltac:(lia)).
  rewrite Z.min_r by lia. apply Z.mod_small. lia.
Qed.

(** With both tables built for exponent 1, a sample that is gamma-removed
    and gamma-corrected again comes back unchanged. *)
Lemma gamma_1_sample (cs : ColorSpaces) (p v : Z) :
  0 <= v <= 255 ->
  gamma_sample cs (make_bwdGamma 1) p
    (degamma_sample cs (make_fwdGamma 1) p v) = v.
Proof.
  intros Hv. unfold gamma_sample, degamma_sample, FWD_GAMMA_LUTSIZE,
    BWD_GAMMA_LUTSIZE. cbv zeta.
  rewrite CLAMP_Z_id by lia.
  destruct (_ || _).
  - rewrite fwdGamma_1_entry by lia.
    replace (IZR v / 255 * IZR (4096 - 1) + 0.5)%R
      with (IZR (8190 * v + 255) / IZR 510)%R
      by (replace (4096 - 1) with 4095 by lia;
          rewrite plus_IZR, mult_IZR; lra).
    rewrite ctrunc_CLAMP_ratio by lia.
    pose proof (Z.div_mod (8190 * v + 255) 510 ltac:(lia)).
    pose proof (Z.mod_pos_bound (8190 * v + 255) 510 ltac:(lia)).
    set (k := (8190 * v + 255) / 510) in *.
    rewrite bwdGamma_1_entry by lia.
    assert (Hk : Z.min (4096 - 1) k = k) by lia. rewrite Hk.
    pose proof (Z.div_mod (510 * k + 4096) 8192 ltac:(lia)).
    pose proof (Z.mod_pos_bound (510 * k + 4096) 8192 ltac:(lia)).
    lia.
  - replace (IZR v / IZR (256 - 1) * IZR (256 - 1) + 0.5)%R
      with (IZR (2 * v + 1) / IZR 2)%R
      by (replace (256 - 1) with 255 by lia;
          rewrite plus_IZR, mult_IZR; lra).
    unfold PIXEL_of_double, PIXEL_of_int.
    rewrite ctrunc_CLAMP_ratio by lia.
    pose proof (Z.div_mod (2 * v + 1) 2 ltac:(lia)).
    pose proof (Z.mod_pos_bound (2 * v + 1) 2 ltac:(lia)).
    rewrite Z.min_r by lia. rewrite Z.mod_small by lia. lia.
Qed.

(** The chroma of a YUV image bypasses both tables: it comes back unchanged
    whatever the tables hold. *)
Lemma gamma_chroma_sample (cs : ColorSpaces) (fwdGamma : list R)
  (bwdGamma : list Z) (p v : Z) :
  ColorSpaces_eqb cs RGB || (p =? Y_PLANE) = false ->
  0 <= v <= 255 ->
  gamma_sample cs bwdGamma p (degamma_sample cs fwdGamma p v) = v.
Proof.
  intros Hcs Hv. unfold gamma_sample, degamma_sample, FWD_GAMMA_LUTSIZE.
  cbv zeta. rewrite Hcs. rewrite CLAMP_Z_id by lia.
  replace (IZR v / IZR (256 - 1) * IZR (256 - 1) + 0.5)%R
    with (IZR (2 * v + 1) / IZR 2)%R
    by (replace (256 - 1) with 255 by lia;
        rewrite plus_IZR, mult_IZR; lra).
  unfold PIXEL_of_double, PIXEL_of_int.
  rewrite ctrunc_CLAMP_ratio by lia.
  pose proof (Z.div_mod (2 * v + 1) 2 ltac:(lia)).
  pose proof (Z.mod_pos_bound (2 * v + 1) 2 ltac:(lia)).
  rewrite Z.min_r by lia. rewrite Z.mod_small by lia. lia.
Qed.

(** [DegammaImage] followed by [GammaImage] gives back the 8-bit image:
    always on the chroma planes of a YUV image, and on every plane when
    both tables are built for exponent 1. *)
Theorem Degamma_then_Gamma (pImageIn linear pImageOut : IMAGE)
  (fwdGamma : list R) (bwdGamma : list Z)
  (Hin : gamma_args_ok pImageIn linear
           (pixArray pImageIn) (dblPixArray linear))
  (Hout : gamma_args_ok linear pImageOut
            (dblPixArray linear) (pixArray pImageOut))
  (H8 : forall p y x, sample_at pImageIn p y x ->
          0 <= pix pImageIn p y x <= 255) :
  let linear' := snd (DegammaImage pImageIn linear fwdGamma) in
  let res := GammaImage linear' pImageOut bwdGamma in
  fst res = true /\
  (forall p y x, sample_at pImageIn p y x ->
     colorSpace pImageIn <> RGB -> p <> Y_PLANE ->
     pix (snd res) p y x = pix pImageIn p y x) /\
  (fwdGamma = make_fwdGamma 1 -> bwdGamma = make_bwdGamma 1 ->
   forall p y x, sample_at pImageIn p y x ->
     pix (snd res) p y x = pix pImageIn p y x).
Proof.
  destruct (DegammaImage_effect pImageIn linear fwdGamma Hin)
    as (_ & Hframe & Hlin & _).
  set (linear' := snd (DegammaImage pImageIn linear fwdGamma)) in *.
  assert (Hok : gamma_args_ok linear' pImageOut
                  (dblPixArray linear') (pixArray pImageOut)).
  { destruct Hframe as (Hc & Hh & Hw & _ & _ & Hd).
    destruct Hout as (Ow & Oh & Osrc & Odst & Ocs).
    unfold gamma_args_ok. rewrite Hc, Hh, Hw.
    repeat (split; [assumption|]). split; [|split; assumption].
    destruct (dblPixArray linear'), (dblPixArray linear);
      try discriminate; congruence. }
  destruct (GammaImage_effect linear' pImageOut bwdGamma Hok)
    as (Hres & _ & Hpix & _).
  assert (Hsame : forall p y x,
            sample_at pImageIn p y x -> sample_at linear' p y x).
  { destruct Hframe as (_ & Hh & Hw & _).
    destruct Hin as (Iw & Ih & _).
    unfold sample_at. intros p y x. rewrite Hh, Hw, Iw, Ih. tauto. }
  assert (Hcs : colorSpace linear' = colorSpace pImageIn).
  { destruct Hframe as (-> & _). destruct Hin as (_ & _ & _ & _ & ->).
    reflexivity. }
  cbv zeta. split; [exact Hres|]. split.
  - intros p y x Hs Hyuv Hp.
    rewrite (Hpix p y x (Hsame p y x Hs)), (Hlin p y x Hs), Hcs.
    apply gamma_chroma_sample; [|now apply H8].
    destruct (ColorSpaces_eqb_spec (colorSpace pImageIn) RGB);
      [contradiction|].
    destruct (Z.eqb_spec p Y_PLANE); [contradiction | reflexivity].
  - intros -> -> p y x Hs.
    rewrite (Hpix p y x (Hsame p y x Hs)), (Hlin p y x Hs), Hcs.
    apply gamma_1_sample. now apply H8.
Qed.

Lemma Degamma_then_Gamma_witness :
  let pImageIn :=
    with_pixArray (CreateImage YUV444 2 2 BPP8) (fun p y x => 40 * p + y + x) in
  let linear := CreateImage YUV444 2 2 DOUBLE in
  let pImageOut := CreateImage YUV444 2 2 BPP8 in
  let fwdGamma := make_fwdGamma 1 in
  let bwdGamma := make_bwdGamma 1 in
  gamma_args_ok pImageIn linear (pixArray pImageIn) (dblPixArray linear) /\
  gamma_args_ok linear pImageOut (dblPixArray linear) (pixArray pImageOut) /\
  (forall p y x, sample_at pImageIn p y x ->
     0 <= pix pImageIn p y x <= 255) /\
  let linear' := snd (DegammaImage pImageIn linear fwdGamma) in
  let res := GammaImage linear' pImageOut bwdGamma in
  fst res = true /\
  (forall p y x, sample_at pImageIn p y x ->
     colorSpace pImageIn <> RGB -> p <> Y_PLANE ->
     pix (snd res) p y x = pix pImageIn p y x) /\
  (fwdGamma = make_fwdGamma 1 -> bwdGamma = make_bwdGamma 1 ->
   forall p y x, sample_at pImageIn p y x ->
     pix (snd res) p y x = pix pImageIn p y x).
Proof.
  intros pImageIn linear pImageOut fwdGamma bwdGamma.
  assert (Hin : gamma_args_ok pImageIn linear
                  (pixArray pImageIn) (dblPixArray linear)).
  { unfold gamma_args_ok. simpl. repeat split; discriminate. }
  assert (Hout : gamma_args_ok linear pImageOut
                   (dblPixArray linear) (pixArray pImageOut)).
  { unfold gamma_args_ok. simpl. repeat split; discriminate. }
  assert (H8 : forall p y x, sample_at pImageIn p y x ->
                 0 <= pix pImageIn p y x <= 255).
  { intros p y x (Hp & Hy & Hx).
    change (height pImageIn) with 2 in Hy.
    change (width pImageIn) with 2 in Hx.
    change (pix pImageIn p y x) with (40 * p + y + x). lia. }
  split; [exact Hin|]. split; [exact Hout|]. split; [exact H8|].
  exact (Degamma_then_Gamma pImageIn linear pImageOut fwdGamma bwdGamma
           Hin Hout H8).
Defined.

(** ** Loops whose body can fail *)

(** A loop whose body succeeds on every state that meets [P], which it
    preserves, runs to the end and does what the loop over the successful
    results does. *)
Lemma for_loop_err_pure {S : Type} (P : S -> Prop) (lo hi : Z)
  (body : Z -> S -> option S) (g : Z -> S -> S) (s0 : S) :
  P s0 ->
  (forall i s, lo <= i < hi -> P s -> body i s = Some (g i s) /\ P (g i s)) ->
  for_loop_err lo hi 1 body s0 = Some (for_loop lo hi 1 g s0) /\
  P (for_loop lo hi 1 g s0).
Proof.
  intros HP0 Hbody. unfold for_loop_err.
  destruct (Z_le_dec lo hi) as [Hle | Hgt].
  - pose proof
      (for_loop_ind
         (fun i m => m = Some (for_loop lo i 1 g s0) /\
                     P (for_loop lo i 1 g s0))
         lo hi (fun i m => s <- m ;; body i s) (Some s0) Hle) as Inv.
    apply Inv; clear Inv.
    + rewrite for_loop_empty by lia. split; [reflexivity | exact HP0].
    + intros i m Hi (-> & HPi). simpl bind.
      destruct (Hbody i _ Hi HPi) as (Hb & HPg).
      rewrite for_loop_last by lia. split; [exact Hb | exact HPg].
  - rewrite !for_loop_empty by lia. split; [reflexivity | exact HP0].
Qed.

(** ** The filters on images that hold a double buffer *)

Lemma read_dbl_some (im : IMAGE) (p y x : Z) :
  is_some (dblPixArray im) = true -> read_dbl im p y x = Some (dbl im p y x).
Proof.
  unfold read_dbl, dbl.
  destruct (dblPixArray im); [reflexivity | discriminate].
Qed.

Lemma write_dbl_some (im : IMAGE) (p y x : Z) (v : R) :
  is_some (dblPixArray im) = true ->
  write_dbl im p y x v = Some (set_dbl im p y x v).
Proof.
  unfold write_dbl, set_dbl.
  destruct (dblPixArray im); [reflexivity | discriminate].
Qed.

(** With both buffers in place [Filter1DHorz] stores the clamped, normalised
    weighted sum of the contributors of column [x]. *)
Lemma Filter1DHorz_some (pImageIn pImageOut : IMAGE) (x y plane : Z)
  (edgeMethod : EdgeMethod) (contribs : ContribTable) :
  is_some (dblPixArray pImageIn) = true ->
  is_some (dblPixArray pImageOut) = true ->
  Filter1DHorz pImageIn pImageOut x y plane edgeMethod contribs =
  Some (set_dbl pImageOut plane y x
          (CLAMP (for_loop 0 (numContribPixels contribs x) 1
                    (fun k acc =>
                       (acc + filterWeights contribs x k
                              * dbl pImageIn plane y
                                  (contribPixPos contribs x k))%R) 0%R
                  / weightsSum contribs x)%R 0%R 1.0%R)).
Proof.
  intros Hi Ho. unfold Filter1DHorz.
  destruct (for_loop_err_pure (fun _ => True) 0 (numContribPixels contribs x)
              (fun k tmpResult =>
                 tmpPixel <- read_dbl pImageIn plane y
                               (contribPixPos contribs x k) ;;
                 Some (tmpResult + filterWeights contribs x k * tmpPixel)%R)
              (fun k acc =>
                 (acc + filterWeights contribs x k
                        * dbl pImageIn plane y
                            (contribPixPos contribs x k))%R)
              0%R I) as (-> & _).
  - intros k acc _ _. rewrite read_dbl_some by exact Hi. now split.
  - simpl bind. now apply write_dbl_some.
Qed.

Lemma Filter1DVert_some (pImageIn pImageOut : IMAGE) (x y plane : Z)
  (edgeMethod : EdgeMethod) (contribs : ContribTable) :
  is_some (dblPixArray pImageIn) = true ->
  is_some (dblPixArray pImageOut) = true ->
  Filter1DVert pImageIn pImageOut x y plane edgeMethod contribs =
  Some (set_dbl pImageOut plane y x
          (CLAMP (for_loop 0 (numContribPixels contribs y) 1
                    (fun k acc =>
                       (acc + filterWeights contribs y k
                              * dbl pImageIn plane
                                  (contribPixPos contribs y k) x)%R) 0%R
                  / weightsSum contribs y)%R 0%R 1.0%R)).
Proof.
  intros Hi Ho. unfold Filter1DVert.
  destruct (for_loop_err_pure (fun _ => True) 0 (numContribPixels contribs y)
              (fun k tmpResult =>
                 tmpPixel <- read_dbl pImageIn plane
                               (contribPixPos contribs y k) x ;;
                 Some (tmpResult + filterWeights contribs y k * tmpPixel)%R)
              (fun k acc =>
                 (acc + filterWeights contribs y k
                        * dbl pImageIn plane
                            (contribPixPos contribs y k) x)%R)
              0%R I) as (-> & _).
  - intros k acc _ _. rewrite read_dbl_some by exact Hi. now split.
  - simpl bind. now apply write_dbl_some.
Qed.

(** Without a double buffer to write to, or to read a contributor from,
    the filter dereferences NULL. *)
Lemma Filter1DHorz_null (pImageIn pImageOut : IMAGE) (x y plane : Z)
  (edgeMethod : EdgeMethod) (contribs : ContribTable) :
  dblPixArray pImageOut = None \/
  (dblPixArray pImageIn = None /\ 1 <= numContribPixels contribs x) ->
  Filter1DHorz pImageIn pImageOut x y plane edgeMethod contribs = None.
Proof.
  intros Hnull. unfold Filter1DHorz.
  destruct (for_loop_err 0 (numContribPixels contribs x) 1 _ 0%R)
    as [acc|] eqn:Eacc; [|reflexivity].
  simpl bind. destruct Hnull as [Ho | (Hi & Hn)].
  - unfold write_dbl. now rewrite Ho.
  - exfalso. unfold for_loop_err in Eacc.
    rewrite for_loop_first in Eacc by lia. simpl bind in Eacc.
    unfold read_dbl in Eacc. rewrite Hi in Eacc. simpl bind in Eacc.
    assert (Hnone : forall lo hi,
               for_loop lo hi 1
                 (fun (i : Z) (m : option R) =>
                    s <- m ;;
                    tmpPixel <- None ;;
                    Some (s + filterWeights contribs x i * tmpPixel)%R)
                 None = None).
    { intros lo hi. apply for_loop_preserves; [reflexivity|].
      now intros i s ->. }
    rewrite Hnone in Eacc. discriminate.
Qed.

(** ** The horizontal pass *)

(** Two nested loops whose body, on every image that keeps the frame of
    the first, stores [val y x] at row [y], column [x] of plane [p]. *)
Lemma rect_fill_err (s0 : IMAGE) (p hh ww : Z)
  (write : Z -> Z -> IMAGE -> option IMAGE) (val : Z -> Z -> R) :
  is_some (dblPixArray s0) = true ->
  (forall y x s, same_frame s0 s -> 0 <= y < hh -> 0 <= x < ww ->
     write y x s = Some (set_dbl s p y x (val y x))) ->
  exists s,
    for_loop_err 0 hh 1
      (fun y s => for_loop_err 0 ww 1 (fun x s => write y x s) s) s0
    = Some s /\
    same_frame s0 s /\
    (forall r c, 0 <= r < hh -> 0 <= c < ww -> dbl s p r c = val r c) /\
    (forall p' r c, p' <> p \/ ~ 0 <= r < hh \/ ~ 0 <= c < ww ->
       dbl s p' r c = dbl s0 p' r c).
Proof.
  intros Hsome Hwrite.
  set (pure := fun (y x : Z) (s : IMAGE) => set_dbl s p y x (val y x)).
  assert (Hrow : forall y s, 0 <= y < hh -> same_frame s0 s ->
            for_loop_err 0 ww 1 (fun x s => write y x s) s =
            Some (for_loop 0 ww 1 (fun x s => pure y x s) s) /\
            same_frame s0 (for_loop 0 ww 1 (fun x s => pure y x s) s)).
  { intros y s Hy Hs.
    apply (for_loop_err_pure (fun s => same_frame s0 s)); [exact Hs|].
    intros x s' Hx Hs'. split; [now apply Hwrite|].
    eapply same_frame_trans; [exact Hs' | apply set_dbl_frame]. }
  destruct (for_loop_err_pure (fun s => same_frame s0 s) 0 hh
              (fun y s => for_loop_err 0 ww 1 (fun x s => write y x s) s)
              (fun y s => for_loop 0 ww 1 (fun x s => pure y x s) s)
              s0 (same_frame_refl _)) as (Hrun & _).
  { intros y s Hy Hs. now apply Hrow. }
  eexists. split; [exact Hrun|].
  apply (rect_fill s0 p hh ww pure val Hsome). reflexivity.
Qed.

(** The two chroma planes, one after the other. *)
Lemma planes_loop_err (body : Z -> IMAGE -> option IMAGE) (s : IMAGE) :
  for_loop_err U_PLANE (V_PLANE + 1) 1 body s =
  (s1 <- body 1 s ;; body 2 s1).
Proof.
  unfold for_loop_err. change (V_PLANE + 1) with 3. change U_PLANE with 1.
  rewrite for_loop_first by lia. rewrite for_loop_first by lia.
  rewrite for_loop_empty by lia. reflexivity.
Qed.

Lemma same_frame_some (s0 s : IMAGE) :
  is_some (dblPixArray s0) = true -> same_frame s0 s ->
  is_some (dblPixArray s) = true.
Proof. intros H0 (_ & _ & _ & _ & _ & ->). exact H0. Qed.

(** The horizontal pass of a source that holds a double buffer runs to its
    end.  The image it returns has the frame of the one that [CreateImage]
    made, and holds at every filtered sample what [Filter1DHorz] computes
    from the table of the sample's plane. *)
Lemma ResizeImage_horizontal_some (pImageIn : IMAGE) (outWidth : Z)
  (edgeMethod : EdgeMethod) :
  is_some (dblPixArray pImageIn) = true ->
  let contribs := MakeContribTable (width pImageIn) outWidth edgeMethod in
  let contribsUV :=
    match colorSpace pImageIn with
    | YUV420 | YUV422 =>
        MakeContribTable (Z.quot (width pImageIn) 2) (Z.quot outWidth 2)
          edgeMethod
    | _ => contribs
    end in
  let table (p : Z) := if p =? Y_PLANE then contribs else contribsUV in
  exists imageTmp,
    ResizeImage_horizontal pImageIn outWidth edgeMethod = Some imageTmp /\
    same_frame
      (CreateImage (colorSpace pImageIn) outWidth (height pImageIn) DOUBLE)
      imageTmp /\
    forall p y x,
      filtered_sample (colorSpace pImageIn) (height pImageIn) outWidth
        p y x ->
      dbl imageTmp p y x =
      CLAMP (for_loop 0 (numContribPixels (table p) x) 1
               (fun k acc =>
                  (acc + filterWeights (table p) x k
                         * dbl pImageIn p y (contribPixPos (table p) x k))%R)
               0%R
             / weightsSum (table p) x)%R 0%R 1.0%R.
Proof.
  intros Hsrc contribs contribsUV table. unfold ResizeImage_horizontal.
  fold contribs. fold contribsUV.
  set (W := outWidth) in *. set (H := height pImageIn) in *.
  set (cs := colorSpace pImageIn) in *.
  unfold filtered_sample.
  destruct (chroma_inc cs) as [xinc yinc] eqn:Einc. cbn [fst snd].
  set (val := fun (c : ContribTable) (pl r x : Z) =>
                CLAMP (for_loop 0 (numContribPixels c x) 1
                         (fun k acc =>
                            (acc + filterWeights c x k
                                   * dbl pImageIn pl r
                                       (contribPixPos c x k))%R) 0%R
                       / weightsSum c x)%R 0%R 1.0%R).
  (* first plane *)
  destruct (rect_fill_err (CreateImage cs W H DOUBLE) Y_PLANE H W
              (fun y x tmp =>
                 Filter1DHorz pImageIn tmp x y Y_PLANE edgeMethod contribs)
              (val contribs Y_PLANE) eq_refl) as (tmp0 & -> & F0 & D0 & R0).
  { intros y' x' s Hs Hy' Hx'. apply Filter1DHorz_some; [exact Hsrc|].
    now apply (same_frame_some (CreateImage cs W H DOUBLE)). }
  simpl bind.
  assert (S0 : is_some (dblPixArray tmp0) = true)
    by now apply (same_frame_some (CreateImage cs W H DOUBLE)).
  (* the two other planes *)
  rewrite planes_loop_err.
  destruct (rect_fill_err tmp0 1 (Z.quot H yinc) (Z.quot W xinc)
              (fun y x tmp =>
                 Filter1DHorz pImageIn tmp x y 1 edgeMethod contribsUV)
              (val contribsUV 1) S0) as (tmp1 & -> & F1 & D1 & R1).
  { intros y' x' s Hs Hy' Hx'. apply Filter1DHorz_some; [exact Hsrc|].
    now apply (same_frame_some tmp0). }
  simpl bind.
  assert (S1 : is_some (dblPixArray tmp1) = true)
    by now apply (same_frame_some tmp0).
  destruct (rect_fill_err tmp1 2 (Z.quot H yinc) (Z.quot W xinc)
              (fun y x tmp =>
                 Filter1DHorz pImageIn tmp x y 2 edgeMethod contribsUV)
              (val contribsUV 2) S1) as (tmp2 & -> & F2 & D2 & R2).
  { intros y' x' s Hs Hy' Hx'. apply Filter1DHorz_some; [exact Hsrc|].
    now apply (same_frame_some tmp1). }
  exists tmp2. split; [reflexivity|]. split.
  { eapply same_frame_trans; [exact F0|].
    eapply same_frame_trans; [exact F1 | exact F2]. }
  intros p y x Hs. unfold table, Y_PLANE, U_PLANE, V_PLANE in *.
  destruct Hs as [(-> & Hy & Hx) | ([-> | ->] & Hy & Hx)]; simpl Z.eqb;
    cbv iota.
  - rewrite R2 by (left; lia). rewrite R1 by (left; lia). now apply D0.
  - rewrite R2 by (left; lia). now apply D1.
  - now apply D2.
Qed.

(** ** A pass that keeps the dimension *)

(** Through a row that holds the single contributor [x] with weight 1 the
    filter gives the source sample, clamped. *)
Lemma identity_row_value (contribs : ContribTable) (x : Z) (src : Z -> R) :
  identity_row contribs x ->
  CLAMP (for_loop 0 (numContribPixels contribs x) 1
           (fun k acc =>
              (acc + filterWeights contribs x k
                     * src (contribPixPos contribs x k))%R) 0%R
         / weightsSum contribs x)%R 0%R 1.0%R
  = CLAMP (src x) 0%R 1%R.
Proof.
  intros (Hn & Hp & Hw & Hs). rewrite Hn, Hs.
  rewrite for_loop_first by lia. rewrite for_loop_empty by lia.
  rewrite Hp, Hw.
  replace ((0 + 1 * src x) / (0 + 1))%R with (src x)
    by (rewrite !Rplus_0_l, Rmult_1_l; unfold Rdiv;
        now rewrite Rinv_1, Rmult_1_r).
  assert (E : 1.0%R = 1%R) by lra. now rewrite E.
Qed.

Lemma ResizeImage_horizontal_identity (pImageIn : IMAGE)
  (edgeMethod : EdgeMethod) :
  is_some (dblPixArray pImageIn) = true ->
  exists imageTmp,
    ResizeImage_horizontal pImageIn (width pImageIn) edgeMethod
    = Some imageTmp /\
    forall p y x,
      filtered_sample (colorSpace pImageIn) (height pImageIn)
        (width pImageIn) p y x ->
      dbl imageTmp p y x = CLAMP (dbl pImageIn p y x) 0%R 1%R.
Proof.
  intros Hsrc.
  destruct (ResizeImage_horizontal_some pImageIn (width pImageIn) edgeMethod
              Hsrc) as (imageTmp & Hrun & _ & Hval).
  exists imageTmp. split; [exact Hrun|].
  intros p y x Hs. rewrite (Hval p y x Hs).
  apply (identity_row_value _ x (fun c => dbl pImageIn p y c)).
  unfold filtered_sample, Y_PLANE, U_PLANE, V_PLANE in Hs.
  destruct Hs as [(-> & Hy & Hx) | ([-> | ->] & Hy & Hx)]; simpl Z.eqb;
    cbv iota;
    try (now apply MakeContribTable_identity);
    destruct (colorSpace pImageIn); simpl in Hx; rewrite ?Z.quot_1_r in Hx;
    now apply MakeContribTable_identity.
Qed.

Lemma CLAMP_R_unit (v : R) : (0 <= v <= 1)%R -> CLAMP v 0%R 1%R = v.
Proof. apply CLAMP_R_id. Qed.

(** With exponent -1 the forward table holds 5 at index 51. *)
Lemma fwdGamma_negative_exponent :
  index (make_fwdGamma (-1)) 51 0%R = 5%R.
Proof.
  unfold make_fwdGamma, FWD_GAMMA_LUTSIZE, PIXMAX.
  rewrite LUT_index by lia. unfold pow.
  destruct (Req_dec_T (-1) 0) as [H|_]; [lra|].
  destruct (Req_dec_T (IZR 51 / IZR 255) 0) as [H|_]; [lra|].
  replace (-1)%R with (- (1))%R by lra.
  rewrite Rpower_Ropp, Rpower_1 by lra. field.
Qed.

(** C3, as stated, fails: the horizontal pass that keeps the width stores
    every sample clamped to [0, 1], and the samples that [DegammaImage]
    hands to [ResizeImage] exceed 1 when the gamma exponent is negative,
    which [ParseCmdLine] accepts (it rejects 0 only).  With exponent -1 the
    8-bit sample 51 is linearised to (51/255)^(-1) = 5; the pass that keeps
    the width of this image runs to its end and stores 1 in its place.
    Every sample of the image is 51, so entry 0 of the table, where the
    base of [pow] is 0, is never read. *)
Lemma ResizeImage_exact_copy_fails :
  let image8 :=
    with_pixArray (CreateImage RGB 1 2 BPP8) (fun _ _ _ => 51) in
  let linear :=
    snd (DegammaImage image8 (CreateImage RGB 1 2 DOUBLE)
           (make_fwdGamma (-1))) in
  fst (DegammaImage image8 (CreateImage RGB 1 2 DOUBLE) (make_fwdGamma (-1)))
  = true /\
  dbl linear 0 0 0 = 5%R /\
  exists imageTmp,
    ResizeImage_horizontal linear (width linear) REPEAT = Some imageTmp /\
    dbl imageTmp 0 0 0 = 1%R /\
    dbl imageTmp 0 0 0 <> dbl linear 0 0 0.
Proof.
  intros image8 linear.
  assert (Hok : gamma_args_ok image8 (CreateImage RGB 1 2 DOUBLE)
                  (pixArray image8)
                  (dblPixArray (CreateImage RGB 1 2 DOUBLE))).
  { unfold gamma_args_ok. simpl. repeat split; discriminate. }
  destruct (DegammaImage_effect image8 (CreateImage RGB 1 2 DOUBLE)
              (make_fwdGamma (-1)) Hok) as (Hres & Hfr & Hval & _).
  fold linear in Hfr, Hval.
  assert (Hlin : dbl linear 0 0 0 = 5%R).
  { rewrite Hval by (unfold sample_at; simpl; lia).
    unfold degamma_sample. simpl orb. cbv iota.
    change (pix image8 0 0 0) with 51.
    change (CLAMP 51 0 (FWD_GAMMA_LUTSIZE - 1)) with 51.
    apply fwdGamma_negative_exponent. }
  assert (Hsome : is_some (dblPixArray linear) = true).
  { destruct Hfr as (_ & _ & _ & _ & _ & ->). reflexivity. }
  split; [exact Hres|]. split; [exact Hlin|].
  destruct (ResizeImage_horizontal_identity linear REPEAT Hsome)
    as (imageTmp & Hrun & Hid).
  exists imageTmp. split; [exact Hrun|].
  assert (Htmp : dbl imageTmp 0 0 0 = 1%R).
  { rewrite Hid.
    - rewrite Hlin. apply CLAMP_R_hi. lra.
    - destruct Hfr as (_ & Hh & Hw & _). left. rewrite Hh, Hw.
      repeat split; simpl; lia. }
  split; [exact Htmp|]. rewrite Htmp, Hlin. lra.
Qed.

(** C3 (amended): between a source and a destination of one precision
    whose buffers are allocated, [ResizeImage] to the same width and height
    succeeds and leaves every sample of the source in the destination; for
    a source of double precision whose width gives every contribution
    table a positive size (at least 1, at least 2 when the chroma is
    subsampled horizontally), when the width is kept the horizontal pass
    runs to its end and writes each sample clamped to [0, 1], hence the
    sample itself when it lies in [0, 1]; when only the height is kept,
    the target width being as large, [ResizeImage] succeeds and the
    destination receives every sample of the horizontally filtered image
    unchanged. *)
Theorem ResizeImage_unchanged_axes (pImageIn pImageOut : IMAGE)
  (edgeMethod : EdgeMethod)
  (Hin : allocated pImageIn) (Hout : allocated pImageOut)
  (Hprec : precision pImageIn = precision pImageOut) :
  (width pImageIn = width pImageOut -> height pImageIn = height pImageOut ->
   exists out,
     ResizeImage pImageIn pImageOut edgeMethod = Some (true, out) /\
     forall p y x, sample_at pImageIn p y x ->
       pix out p y x = pix pImageIn p y x /\
       dbl out p y x = dbl pImageIn p y x) /\
  (width pImageIn = width pImageOut -> precision pImageIn = DOUBLE ->
   1 <= Z.quot (width pImageIn) (fst (chroma_inc (colorSpace pImageIn))) ->
   exists imageTmp,
     ResizeImage_horizontal pImageIn (width pImageOut) edgeMethod
     = Some imageTmp /\
     forall p y x,
       filtered_sample (colorSpace pImageIn) (height pImageIn)
         (width pImageIn) p y x ->
       dbl imageTmp p y x = CLAMP (dbl pImageIn p y x) 0%R 1%R /\
       ((0 <= dbl pImageIn p y x <= 1)%R ->
        dbl imageTmp p y x = dbl pImageIn p y x)) /\
  (width pImageIn <> width pImageOut ->
   height pImageIn = height pImageOut -> precision pImageIn = DOUBLE ->
   1 <= Z.quot (width pImageIn) (fst (chroma_inc (colorSpace pImageIn))) ->
   1 <= Z.quot (width pImageOut) (fst (chroma_inc (colorSpace pImageIn))) ->
   exists imageTmp out,
     ResizeImage_horizontal pImageIn (width pImageOut) edgeMethod
     = Some imageTmp /\
     ResizeImage pImageIn pImageOut edgeMethod = Some (true, out) /\
     forall p y x, sample_at pImageOut p y x ->
       dbl out p y x = dbl imageTmp p y x).
Proof.
  assert (Hdbl : precision pImageIn = DOUBLE ->
                 is_some (dblPixArray pImageIn) = true).
  { intros Hd. unfold allocated in Hin. rewrite Hd in Hin.
    destruct Hin as [_ Hb].
    destruct (dblPixArray pImageIn); [reflexivity | now elim Hb]. }
  split; [|split].
  - intros Hw Hh. unfold ResizeImage.
    rewrite Hw, Hh, !Z.eqb_refl. simpl andb. cbv iota.
    eexists. split; [reflexivity|].
    pose proof (CopyImage_copies pImageIn pImageOut Hw Hh Hin Hout Hprec)
      as [_ Hcopy].
    exact Hcopy.
  - intros Hw Hd _. rewrite <- Hw.
    destruct (ResizeImage_horizontal_identity pImageIn edgeMethod (Hdbl Hd))
      as (imageTmp & Hrun & Hid).
    exists imageTmp. split; [exact Hrun|].
    intros p y x Hs. rewrite (Hid p y x Hs).
    split; [reflexivity|]. apply CLAMP_R_unit.
  - intros Hw Hh Hd _ _.
    destruct (ResizeImage_horizontal_some pImageIn (width pImageOut)
                edgeMethod (Hdbl Hd)) as (imageTmp & Hrun & Hfr & _).
    unfold ResizeImage.
    destruct (Z.eqb_spec (width pImageIn) (width pImageOut));
      [contradiction|].
    simpl andb. cbv iota. rewrite Hrun. simpl bind.
    rewrite Hh, Z.eqb_refl.
    exists imageTmp. eexists. split; [reflexivity|].
    split; [reflexivity|].
    destruct Hfr as (_ & Hh' & Hw' & Hp' & Hs1 & Hs2).
    simpl in Hh', Hw', Hp', Hs1, Hs2.
    assert (Halloc : allocated imageTmp).
    { unfold allocated. rewrite Hp'.
      destruct (pixArray imageTmp), (dblPixArray imageTmp);
        try discriminate. split; [reflexivity | discriminate]. }
    intros p y x (Hp & Hy & Hx).
    apply CopyImage_copies; try assumption; try congruence.
    unfold sample_at. rewrite Hh', Hw', Hh. auto.
Qed.

Lemma ResizeImage_unchanged_axes_witness :
  let pImageIn :=
    with_dblPixArray (CreateImage YUV420 4 2 DOUBLE)
      (fun p y x => (IZR (8 * p + 4 * y + x + 1) / 32)%R) in
  let sameSize := CreateImage YUV420 4 2 DOUBLE in
  let wider := CreateImage YUV420 6 2 DOUBLE in
  allocated pImageIn /\ allocated sameSize /\ allocated wider /\
  precision pImageIn = precision sameSize /\
  precision pImageIn = precision wider /\
  dbl pImageIn 0 1 2 = (IZR 7 / 32)%R /\ dbl sameSize 0 1 2 = 0%R /\
  (exists out,
     ResizeImage pImageIn sameSize MIRROR = Some (true, out) /\
     dbl out 0 1 2 = (IZR 7 / 32)%R /\
     forall p y x, sample_at pImageIn p y x ->
       pix out p y x = pix pImageIn p y x /\
       dbl out p y x = dbl pImageIn p y x) /\
  (exists imageTmp,
     ResizeImage_horizontal pImageIn (width sameSize) MIRROR
     = Some imageTmp /\
     dbl imageTmp 0 1 2 = (IZR 7 / 32)%R /\
     forall p y x,
       filtered_sample (colorSpace pImageIn) (height pImageIn)
         (width pImageIn) p y x ->
       dbl imageTmp p y x = CLAMP (dbl pImageIn p y x) 0%R 1%R /\
       ((0 <= dbl pImageIn p y x <= 1)%R ->
        dbl imageTmp p y x = dbl pImageIn p y x)) /\
  (exists imageTmp out,
     ResizeImage_horizontal pImageIn (width wider) MIRROR = Some imageTmp /\
     ResizeImage pImageIn wider MIRROR = Some (true, out) /\
     forall p y x, sample_at wider p y x ->
       dbl out p y x = dbl imageTmp p y x).
Proof.
  intros pImageIn sameSize wider.
  assert (H1 : allocated pImageIn) by (split; [reflexivity | discriminate]).
  assert (H2 : allocated sameSize) by (split; [reflexivity | discriminate]).
  assert (H3 : allocated wider) by (split; [reflexivity | discriminate]).
  assert (H4 : precision pImageIn = precision sameSize) by reflexivity.
  assert (H5 : precision pImageIn = precision wider) by reflexivity.
  assert (H6 : dbl pImageIn 0 1 2 = (IZR 7 / 32)%R) by reflexivity.
  assert (H7 : dbl sameSize 0 1 2 = 0%R) by reflexivity.
  assert (Hs : sample_at pImageIn 0 1 2) by (unfold sample_at; simpl; lia).
  assert (Hf : filtered_sample (colorSpace pImageIn) (height pImageIn)
                 (width pImageIn) 0 1 2)
    by (left; repeat split; simpl; lia).
  assert (Hu : (0 <= dbl pImageIn 0 1 2 <= 1)%R) by (rewrite H6; lra).
  destruct (ResizeImage_unchanged_axes pImageIn sameSize MIRROR H1 H2 H4)
    as (P1 & P2 & _).
  destruct (ResizeImage_unchanged_axes pImageIn wider MIRROR H1 H3 H5)
    as (_ & _ & P3).
  repeat (split; [assumption|]).
  split; [|split].
  - destruct (P1 eq_refl eq_refl) as (out & Hrun & Hcopy).
    exists out. split; [exact Hrun|]. split; [|exact Hcopy].
    rewrite <- H6. apply (Hcopy 0 1 2 Hs).
  - assert (Hsz : 1 <= Z.quot (width pImageIn)
                         (fst (chroma_inc (colorSpace pImageIn))))
      by (change (1 <= Z.quot 4 2); discriminate).
    destruct (P2 eq_refl eq_refl Hsz) as (imageTmp & Hrun & Hid).
    exists imageTmp. split; [exact Hrun|]. split; [|exact Hid].
    rewrite <- H6. apply (Hid 0 1 2 Hf). exact Hu.
  - apply P3; [simpl; lia | reflexivity | reflexivity | |].
    + change (1 <= Z.quot 4 2). discriminate.
    + change (1 <= Z.quot 6 2). discriminate.
Defined.

(** ** More on the edge resolver *)

(** Under MIRROR a coordinate and its negative resolve alike; a coordinate
    up to [dim - 1] past the last sample is reflected about the last
    sample; a coordinate further out is not reflected again but clamped,
    and ends at index 0. *)
Theorem HandleEdgeCase_MIRROR_reflects (dim i : Z) (Hdim : 1 <= dim) :
  HandleEdgeCase (- i) dim MIRROR = HandleEdgeCase i dim MIRROR /\
  (0 <= i <= dim - 1 ->
   HandleEdgeCase (dim - 1 + i) dim MIRROR = dim - 1 - i) /\
  (2 * dim - 1 <= i -> HandleEdgeCase i dim MIRROR = 0).
Proof.
  unfold HandleEdgeCase, CLAMP, cless, CLess_Z.
  repeat split.
  - destruct (Z.ltb_spec (- i) 0), (Z.ltb_spec i 0);
      try (replace (- - i) with i by lia); try reflexivity;
      replace i with 0 by lia; reflexivity.
  - intros Hi.
    destruct (Z.ltb_spec (dim - 1 + i) 0); [lia|].
    destruct (Z.geb_spec (dim - 1 + i) dim).
    + destruct (Z.ltb_spec (dim * 2 - (dim - 1 + i) - 2) 0); [lia|].
      destruct (Z.ltb_spec (dim - 1) (dim * 2 - (dim - 1 + i) - 2)); lia.
    + destruct (Z.ltb_spec (dim - 1 + i) 0); [lia|].
      destruct (Z.ltb_spec (dim - 1) (dim - 1 + i)); lia.
  - intros Hi.
    destruct (Z.ltb_spec i 0); [lia|].
    destruct (Z.geb_spec i dim); [|lia].
    destruct (Z.ltb_spec (dim * 2 - i - 2) 0); [reflexivity | lia].
Qed.

Lemma HandleEdgeCase_MIRROR_reflects_witness :
  1 <= 5 /\
  HandleEdgeCase (- 3) 5 MIRROR = HandleEdgeCase 3 5 MIRROR /\
  (0 <= 3 <= 5 - 1 -> HandleEdgeCase (5 - 1 + 3) 5 MIRROR = 5 - 1 - 3) /\
  (2 * 5 - 1 <= 3 -> HandleEdgeCase 3 5 MIRROR = 0).
Proof.
  split; [lia | exact (HandleEdgeCase_MIRROR_reflects 5 3 ltac:(lia))].
Defined.

(** REPEAT and NOCONTRIB clamp the coordinate to [0, dim-1]; under every
    policy a resolved index resolves to itself. *)
Theorem HandleEdgeCase_clamps_and_settles (dim i : Z) (m : EdgeMethod)
  (Hdim : 1 <= dim) :
  HandleEdgeCase i dim REPEAT = Z.max 0 (Z.min i (dim - 1)) /\
  HandleEdgeCase i dim NOCONTRIB = Z.max 0 (Z.min i (dim - 1)) /\
  HandleEdgeCase (HandleEdgeCase i dim m) dim m = HandleEdgeCase i dim m.
Proof.
  split; [|split].
  - unfold HandleEdgeCase, CLAMP, cless, CLess_Z.
    destruct (Z.ltb_spec i 0); [lia|].
    destruct (Z.ltb_spec (dim - 1) i); lia.
  - unfold HandleEdgeCase, CLAMP, cless, CLess_Z.
    destruct (Z.ltb_spec i 0); [lia|].
    destruct (Z.ltb_spec (dim - 1) i); lia.
  - apply HandleEdgeCase_inside.
    pose proof (HandleEdgeCase_range i dim m Hdim). lia.
Qed.

Lemma HandleEdgeCase_clamps_and_settles_witness :
  1 <= 4 /\
  HandleEdgeCase 9 4 REPEAT = Z.max 0 (Z.min 9 (4 - 1)) /\
  HandleEdgeCase 9 4 NOCONTRIB = Z.max 0 (Z.min 9 (4 - 1)) /\
  HandleEdgeCase (HandleEdgeCase 9 4 MIRROR) 4 MIRROR
    = HandleEdgeCase 9 4 MIRROR.
Proof.
  split; [lia | exact (HandleEdgeCase_clamps_and_settles 4 9 MIRROR
                         ltac:(lia))].
Defined.

(** ** Reading back what the pixel writers wrote *)

Lemma pix_SetPixel_luma (im : IMAGE) y x p0 p1 p2 r c :
  is_some (pixArray im) = true -> in_bounds im y x = true ->
  pix (SetPixel im y x (p0, p1, p2)) Y_PLANE r c =
  if (r =? y) && (c =? x) then p0 else pix im Y_PLANE r c.
Proof.
  intros Hsome Hin. unfold SetPixel. rewrite Hin. simpl negb. cbv iota.
  destruct (HandleColorspaceAddress x y _) as [ax ay].
  assert (H1 : is_some (pixArray (set_pix im Y_PLANE y x p0)) = true).
  { destruct (set_pix_frame im Y_PLANE y x p0) as (_ & _ & _ & _ & -> & _).
    exact Hsome. }
  assert (H2 : is_some (pixArray (set_pix (set_pix im Y_PLANE y x p0)
                                    U_PLANE ay ax p1)) = true).
  { destruct (set_pix_frame (set_pix im Y_PLANE y x p0) U_PLANE ay ax p1)
      as (_ & _ & _ & _ & -> & _). exact H1. }
  rewrite !pix_set_pix by assumption.
  unfold U_PLANE, V_PLANE, Y_PLANE. simpl. reflexivity.
Qed.

Lemma GetPixel_inside (im : IMAGE) (y x : Z) (m : EdgeMethod) :
  is_some (pixArray im) = true ->
  0 <= y < height im -> 0 <= x < width im ->
  GetPixel im y x m =
  (true, (pix im Y_PLANE y x,
          pix im U_PLANE (fst (chroma_cell (colorSpace im) y x))
                         (snd (chroma_cell (colorSpace im) y x)),
          pix im V_PLANE (fst (chroma_cell (colorSpace im) y x))
                         (snd (chroma_cell (colorSpace im) y x)))).
Proof.
  intros Hsome Hy Hx. unfold GetPixel, chroma_cell.
  destruct (pixArray im); [|discriminate].
  rewrite !HandleEdgeCase_inside by assumption.
  now destruct (HandleColorspaceAddress x y (colorSpace im)).
Qed.

(** A pixel read after [SetPixel], both coordinates inside the image:
    the luma is the written one at the written coordinate only, the chroma
    is the written one at every coordinate that shares the chroma cell. *)
Theorem GetPixel_after_SetPixel (im : IMAGE) (y x y' x' : Z)
  (p0 p1 p2 : Z) (m : EdgeMethod)
  (Hbuf : pixArray im <> None)
  (Hy : 0 <= y < height im) (Hx : 0 <= x < width im)
  (Hy' : 0 <= y' < height im) (Hx' : 0 <= x' < width im) :
  let cs := colorSpace im in
  let same_cell :=
    (fst (chroma_cell cs y' x') =? fst (chroma_cell cs y x))
    && (snd (chroma_cell cs y' x') =? snd (chroma_cell cs y x)) in
  GetPixel (SetPixel im y x (p0, p1, p2)) y x m = (true, (p0, p1, p2)) /\
  GetPixel (SetPixel im y x (p0, p1, p2)) y' x' m =
  (true,
   (if (y' =? y) && (x' =? x) then p0 else pix im Y_PLANE y' x',
    if same_cell then p1
    else pix im U_PLANE (fst (chroma_cell cs y' x'))
                        (snd (chroma_cell cs y' x')),
    if same_cell then p2
    else pix im V_PLANE (fst (chroma_cell cs y' x'))
                        (snd (chroma_cell cs y' x')))).
Proof.
  intros cs same_cell.
  assert (Hsome : is_some (pixArray im) = true)
    by (destruct (pixArray im); [reflexivity | now elim Hbuf]).
  pose proof (SetPixel_frame im y x (p0, p1, p2))
    as (Hc & Hh & Hw & _ & Hs & _).
  assert (Hin : in_bounds im y x = true) by now apply in_bounds_true.
  assert (Hgen : forall yy xx, 0 <= yy < height im -> 0 <= xx < width im ->
            GetPixel (SetPixel im y x (p0, p1, p2)) yy xx m =
            (true,
             (if (yy =? y) && (xx =? x) then p0 else pix im Y_PLANE yy xx,
              if (fst (chroma_cell cs yy xx) =? fst (chroma_cell cs y x))
                 && (snd (chroma_cell cs yy xx) =? snd (chroma_cell cs y x))
              then p1
              else pix im U_PLANE (fst (chroma_cell cs yy xx))
                                  (snd (chroma_cell cs yy xx)),
              if (fst (chroma_cell cs yy xx) =? fst (chroma_cell cs y x))
                 && (snd (chroma_cell cs yy xx) =? snd (chroma_cell cs y x))
              then p2
              else pix im V_PLANE (fst (chroma_cell cs yy xx))
                                  (snd (chroma_cell cs yy xx))))).
  { intros yy xx Hyy Hxx.
    rewrite GetPixel_inside by (rewrite ?Hs, ?Hh, ?Hw; assumption).
    rewrite Hc. fold cs.
    rewrite pix_SetPixel_luma by assumption.
    rewrite !pix_SetPixel_chroma by (auto; right; reflexivity).
    fold cs. unfold chroma_cell.
    destruct (HandleColorspaceAddress x y cs) as [ax ay].
    destruct (HandleColorspaceAddress xx yy cs) as [bx by'].
    cbn [fst snd]. unfold U_PLANE, V_PLANE. simpl (1 =? 1). simpl (2 =? 1).
    reflexivity. }
  split; [|now apply Hgen].
  rewrite Hgen by assumption. now rewrite !Z.eqb_refl.
Qed.

Lemma GetPixel_after_SetPixel_witness :
  let im := CreateImage YUV420 4 4 BPP8 in
  pixArray im <> None /\
  0 <= 2 < height im /\ 0 <= 2 < width im /\
  0 <= 3 < height im /\ 0 <= 3 < width im /\
  GetPixel (SetPixel im 2 2 (50, 60, 70)) 2 2 REPEAT = (true, (50, 60, 70)) /\
  GetPixel (SetPixel im 2 2 (50, 60, 70)) 3 3 REPEAT =
  (true,
   (if (3 =? 2) && (3 =? 2) then 50 else pix im Y_PLANE 3 3,
    if (fst (chroma_cell (colorSpace im) 3 3)
          =? fst (chroma_cell (colorSpace im) 2 2))
       && (snd (chroma_cell (colorSpace im) 3 3)
             =? snd (chroma_cell (colorSpace im) 2 2))
    then 60
    else pix im U_PLANE (fst (chroma_cell (colorSpace im) 3 3))
                        (snd (chroma_cell (colorSpace im) 3 3)),
    if (fst (chroma_cell (colorSpace im) 3 3)
          =? fst (chroma_cell (colorSpace im) 2 2))
       && (snd (chroma_cell (colorSpace im) 3 3)
             =? snd (chroma_cell (colorSpace im) 2 2))
    then 70
    else pix im V_PLANE (fst (chroma_cell (colorSpace im) 3 3))
                        (snd (chroma_cell (colorSpace im) 3 3)))).
Proof.
  intros im.
  assert (H0 : pixArray im <> None) by (simpl; discriminate).
  assert (H1 : 0 <= 2 < height im) by (simpl; lia).
  assert (H2 : 0 <= 2 < width im) by (simpl; lia).
  assert (H3 : 0 <= 3 < height im) by (simpl; lia).
  assert (H4 : 0 <= 3 < width im) by (simpl; lia).
  repeat (split; [assumption|]).
  exact (GetPixel_after_SetPixel im 2 2 3 3 50 60 70 REPEAT H0 H1 H2 H3 H4).
Defined.

(** A sample read after [SetSubPixel] at the same coordinate, with or
    without edge handling, is the sample written; inside the image the
    two readers agree. *)
Theorem GetSubPixel_after_SetSubPixel (im : IMAGE) (y x plane v : Z)
  (m : EdgeMethod)
  (Hbuf : pixArray im <> None)
  (Hy : 0 <= y < height im) (Hx : 0 <= x < width im) :
  GetSubPixel (SetSubPixel im y x plane v) y x m plane = v /\
  GetSubPixel_unchecked (SetSubPixel im y x plane v) y x plane = v /\
  GetSubPixel im y x m plane = GetSubPixel_unchecked im y x plane.
Proof.
  assert (Hsome : is_some (pixArray im) = true)
    by (destruct (pixArray im); [reflexivity | now elim Hbuf]).
  pose proof (SetSubPixel_frame im y x plane v) as (Hc & Hh & Hw & _).
  assert (Hun : GetSubPixel_unchecked (SetSubPixel im y x plane v) y x plane
                = v).
  { unfold GetSubPixel_unchecked. rewrite Hc.
    unfold SetSubPixel. rewrite in_bounds_true by assumption.
    simpl negb. cbv iota.
    destruct (if (plane =? U_PLANE) || (plane =? V_PLANE)
              then HandleColorspaceAddress x y (colorSpace im)
              else (x, y)) as [ax ay].
    rewrite pix_set_pix by exact Hsome. now rewrite !Z.eqb_refl. }
  assert (Hag : forall im', height im' = height im -> width im' = width im ->
                  GetSubPixel im' y x m plane
                  = GetSubPixel_unchecked im' y x plane).
  { intros im' Hh' Hw'. unfold GetSubPixel, GetSubPixel_unchecked.
    now rewrite !HandleEdgeCase_inside by (rewrite ?Hh', ?Hw'; assumption). }
  split; [|split].
  - rewrite Hag by assumption. exact Hun.
  - exact Hun.
  - now apply Hag.
Qed.

Lemma GetSubPixel_after_SetSubPixel_witness :
  let im := CreateImage YUV422 4 2 BPP8 in
  pixArray im <> None /\ 0 <= 1 < height im /\ 0 <= 3 < width im /\
  GetSubPixel (SetSubPixel im 1 3 U_PLANE 200) 1 3 MIRROR U_PLANE = 200 /\
  GetSubPixel_unchecked (SetSubPixel im 1 3 U_PLANE 200) 1 3 U_PLANE = 200 /\
  GetSubPixel im 1 3 MIRROR U_PLANE = GetSubPixel_unchecked im 1 3 U_PLANE.
Proof.
  intros im.
  assert (H0 : pixArray im <> None) by (simpl; discriminate).
  assert (H1 : 0 <= 1 < height im) by (simpl; lia).
  assert (H2 : 0 <= 3 < width im) by (simpl; lia).
  repeat (split; [assumption|]).
  exact (GetSubPixel_after_SetSubPixel im 1 3 U_PLANE 200 MIRROR H0 H1 H2).
Defined.

(** ** More on the per-pixel conversions *)

(** For 8-bit RGB input the clamp of [RGBPixel2YUV] never acts: luma lands
    in 16..235 and both chroma samples in 16..240. *)
Theorem RGBPixel2YUV_nominal_range (fl : RowRounding) (rgbPixel : Pixel)
  (Hfl : accurate fl) (Hrgb : is_pixel rgbPixel) :
  let '(y, u, v) := RGBPixel2YUV fl rgbPixel in
  16 <= y <= 235 /\ 16 <= u <= 240 /\ 16 <= v <= 240.
Proof.
  destruct rgbPixel as [[r g] b]. destruct Hrgb as (Hr & Hg & Hb).
  destruct (RGBPixel2YUV_rows fl r g b Hfl) as (Y & U & V & -> & HY & HU & HV).
  unfold row_sample, row_num in *. repeat split; lia.
Qed.

Lemma RGBPixel2YUV_nominal_range_witness :
  accurate exact_rows /\ is_pixel (255, 255, 0) /\
  (let '(y, u, v) := RGBPixel2YUV exact_rows (255, 255, 0) in
   16 <= y <= 235 /\ 16 <= u <= 240 /\ 16 <= v <= 240).
Proof.
  assert (H0 : accurate exact_rows) by (intros p k; split; reflexivity).
  assert (H : is_pixel (255, 255, 0)) by (simpl; lia).
  split; [exact H0|].
  split; [exact H
         | exact (RGBPixel2YUV_nominal_range exact_rows (255, 255, 0) H0 H)].
Defined.

(** Neutral colours stay neutral: a grey RGB pixel converts to chroma
    (128, 128), a YUV pixel with chroma (128, 128) converts to a grey RGB
    pixel, and a grey level comes back from the round trip within 1. *)
Theorem grey_stays_grey (fl : RowRounding) (g y : Z)
  (Hfl : accurate fl) (Hg : 0 <= g <= 255) (Hy : 0 <= y <= 255) :
  (let '(_, u, v) := RGBPixel2YUV fl (g, g, g) in u = 128 /\ v = 128) /\
  (let '(r', g', b') := YUVPixel2RGB fl (y, 128, 128) in
   r' = g' /\ g' = b') /\
  (let '(r', g', b') := YUVPixel2RGB fl (RGBPixel2YUV fl (g, g, g)) in
   r' = g' /\ g' = b' /\ Z.abs (g' - g) <= 1).
Proof.
  assert (Hgrey : forall Y, 0 <= Y <= 255 ->
            let '(r', g', b') := YUVPixel2RGB fl (Y, 128, 128) in
            r' = g' /\ g' = b' /\
            row_sample (2 * (298082 * (Y - 16)) + 256000) g').
  { intros Y HY.
    destruct (YUVPixel2RGB_rows fl Y 128 128 Hfl)
      as (r' & g' & b' & -> & HR & HG & HB).
    unfold row_sample, row_num in *. repeat split; lia. }
  split; [|split].
  - destruct (RGBPixel2YUV_rows fl g g g Hfl)
      as (Y & U & V & -> & HY & HU & HV).
    unfold row_sample, row_num in *. split; lia.
  - specialize (Hgrey y Hy).
    destruct (YUVPixel2RGB fl (y, 128, 128)) as [[r' g'] b'].
    split; apply Hgrey.
  - destruct (RGBPixel2YUV_rows fl g g g Hfl)
      as (Y & U & V & -> & HY & HU & HV).
    assert (HU' : U = 128) by (unfold row_sample, row_num in *; lia).
    assert (HV' : V = 128) by (unfold row_sample, row_num in *; lia).
    assert (HY' : 0 <= Y <= 255) by (unfold row_sample, row_num in *; lia).
    subst U V. specialize (Hgrey Y HY').
    destruct (YUVPixel2RGB fl (Y, 128, 128)) as [[r' g'] b'].
    destruct Hgrey as (E1 & E2 & HG).
    split; [exact E1|]. split; [exact E2|].
    unfold row_sample, row_num in *. lia.
Qed.

Lemma grey_stays_grey_witness :
  accurate exact_rows /\ 0 <= 200 <= 255 /\ 0 <= 90 <= 255 /\
  (let '(_, u, v) := RGBPixel2YUV exact_rows (200, 200, 200) in
   u = 128 /\ v = 128) /\
  (let '(r', g', b') := YUVPixel2RGB exact_rows (90, 128, 128) in
   r' = g' /\ g' = b') /\
  (let '(r', g', b') :=
     YUVPixel2RGB exact_rows (RGBPixel2YUV exact_rows (200, 200, 200)) in
   r' = g' /\ g' = b' /\ Z.abs (g' - 200) <= 1).
Proof.
  assert (H0 : accurate exact_rows) by (intros p k; split; reflexivity).
  split; [exact H0|]. split; [lia|]. split; [lia|].
  exact (grey_stays_grey exact_rows 200 90 H0 ltac:(lia) ltac:(lia)).
Defined.

(** ** The rows of a contribution table *)

Lemma floor_bounds (x : R) : (IZR (floor x) <= x < IZR (floor x) + 1)%R.
Proof. unfold floor. pose proof (base_Int_part x). lra. Qed.

Lemma ceil_bounds (x : R) : (IZR (ceil x) - 1 < x <= IZR (ceil x))%R.
Proof.
  unfold ceil. pose proof (base_Int_part (- x)). rewrite opp_IZR. lra.
Qed.


(** One step leaves the other rows alone and appends at most one entry to
    its own row. *)
Lemma contrib_step_count inDimSize edgeMethod center filterScale i j t :
  let t' := contrib_step inDimSize edgeMethod center filterScale i j t in
  (forall r, r <> i -> numContribPixels t' r = numContribPixels t r) /\
  numContribPixels t i <= numContribPixels t' i <= numContribPixels t i + 1.
Proof.
  cbv zeta.
  destruct (contrib_step_cases inDimSize edgeMethod center filterScale i j t)
    as [-> | (w & _ & _ & ->)]; [split; [reflexivity | lia]|].
  simpl. split.
  - intros r Hr. now rewrite upd1_other.
  - rewrite upd1_same. lia.
Qed.




(** ** The shape of the Lanczos-2 kernel *)

Lemma sin_abs_le (x : R) : (Rabs (sin x) <= Rabs x)%R.
Proof.
  assert (Hpos : forall z, (0 < z)%R -> (- z <= sin z <= z)%R).
  { intros z Hz. pose proof (sin_lt_x z Hz). pose proof (SIN_bound z).
    pose proof PI_bounds.
    destruct (Rlt_dec z 1) as [Hz1|Hz1]; [|lra].
    assert (0 < sin z)%R by (apply sin_gt_0; lra). lra. }
  destruct (Rtotal_order x 0) as [Hneg | [-> | Hp]].
  - destruct (Hpos (- x)%R ltac:(lra)) as [Ha Hb].
    rewrite sin_neg in Ha, Hb.
    rewrite (Rabs_left x) by lra. apply Rabs_le. lra.
  - rewrite sin_0, Rabs_R0. lra.
  - destruct (Hpos x Hp). rewrite (Rabs_pos_eq x) by lra.
    apply Rabs_le. lra.
Qed.

Lemma sinc_abs_le_1 (x : R) : (Rabs (sinc x) <= 1)%R.
Proof.
  unfold sinc. cbv zeta. set (z := (x * M_PI)%R).
  unfold cless, CLess_R.
  destruct (Rlt_dec z EPSILON) as [H1|H1];
    [destruct (Rlt_dec (- EPSILON) z) as [H2|H2]|]; simpl andb; cbv iota;
    unfold EPSILON in *.
  - apply Rabs_le. assert (0 <= z * z <= 1)%R by nra. nra.
  - pose proof (sin_abs_le z) as Hs.
    unfold Rdiv. rewrite Rabs_mult, Rabs_inv.
    assert (Hz : (0 < Rabs z)%R) by (apply Rabs_pos_lt; lra).
    apply (Rmult_le_reg_r (Rabs z)); [exact Hz|].
    rewrite Rmult_assoc, Rinv_l by lra. lra.
  - pose proof (sin_abs_le z) as Hs.
    unfold Rdiv. rewrite Rabs_mult, Rabs_inv.
    assert (Hz : (0 < Rabs z)%R) by (apply Rabs_pos_lt; lra).
    apply (Rmult_le_reg_r (Rabs z)); [exact Hz|].
    rewrite Rmult_assoc, Rinv_l by lra. lra.
Qed.

Lemma sin_cubic (z : R) : (0 <= z <= 4)%R -> (z - z * z * z / 6 <= sin z)%R.
Proof.
  intros Hz. destruct (pre_sin_bound z 0 ltac:(lra) ltac:(lra)) as [H _].
  unfold sin_approx, sin_term in H. simpl in H. lra.
Qed.

Lemma sinc_central (x : R) : (Rabs x <= 1 / 2)%R -> (1 / 2 <= sinc x)%R.
Proof.
  intros Hx. unfold sinc. cbv zeta. set (z := (x * M_PI)%R).
  assert (Hz : (Rabs z <= 1.575)%R).
  { unfold z. rewrite Rabs_mult.
    rewrite (Rabs_pos_eq M_PI) by (unfold M_PI; lra).
    pose proof (Rabs_pos x). unfold M_PI. nra. }
  assert (Hzz : (0 <= z * z <= 2.5)%R).
  { destruct (Rabs_def2 z 1.58 ltac:(lra)). nra. }
  unfold cless, CLess_R.
  assert (Hquot : (z <> 0 -> 1 / 2 <= sin z / z)%R).
  { intros Hnz.
    assert (Hp : forall y, (0 < y)%R -> (y * y <= 2.5)%R ->
                   (1 / 2 <= sin y / y)%R).
    { intros y Hy Hyy.
      assert (y <= 4)%R by nra.
      pose proof (sin_cubic y ltac:(lra)) as Hs.
      apply (Rmult_le_reg_r y); [exact Hy|].
      replace (sin y / y * y)%R with (sin y) by (field; lra). nra. }
    destruct (Rtotal_order z 0) as [Hneg | [H0 | Hpos]]; [|lra|].
    - replace (sin z / z)%R with (sin (- z) / (- z))%R.
      + apply Hp; [lra | nra].
      + rewrite sin_neg. field. lra.
    - apply Hp; [lra | exact (proj2 Hzz)]. }
  destruct (Rlt_dec z EPSILON) as [H1|H1];
    [destruct (Rlt_dec (- EPSILON) z) as [H2|H2]|]; simpl andb; cbv iota;
    unfold EPSILON in *.
  - assert (0 <= z * z <= 1)%R by nra. nra.
  - apply Hquot. lra.
  - apply Hquot. lra.
Qed.

(** Near its centre the kernel is well above the threshold. *)
Lemma lanczos2Filter_central (t : R) :
  (Rabs t <= 1 / 2)%R -> (1 / 4 <= lanczos2Filter t)%R.
Proof.
  intros Ht.
  assert (Hpos : forall u, (0 <= u <= 1 / 2)%R ->
            (1 / 4 <= fabsThresh (sinc u * sinc (u / LANCZOS2_NUMTAPS))
                        EPSILON)%R).
  { intros u Hu.
    assert (H1 : (1 / 2 <= sinc u)%R)
      by (apply sinc_central; rewrite Rabs_pos_eq; lra).
    assert (H2 : (1 / 2 <= sinc (u / LANCZOS2_NUMTAPS))%R).
    { apply sinc_central. unfold LANCZOS2_NUMTAPS.
      rewrite Rabs_pos_eq; lra. }
    assert (H3 : (1 / 4 <= sinc u * sinc (u / LANCZOS2_NUMTAPS))%R) by nra.
    unfold fabsThresh. rewrite cless_R_false; [exact H3|].
    rewrite Rabs_pos_eq by lra. unfold EPSILON. lra. }
  unfold lanczos2Filter. cbv zeta.
  destruct (Rlt_dec t 0) as [Hneg | Hnn].
  - rewrite (cless_R_true t 0) by lra.
    rewrite Rabs_left in Ht by lra.
    rewrite cless_R_true by (unfold LANCZOS2_NUMTAPS; lra).
    apply Hpos. lra.
  - rewrite (cless_R_false t 0) by lra.
    rewrite Rabs_pos_eq in Ht by lra.
    rewrite cless_R_true by (unfold LANCZOS2_NUMTAPS; lra).
    apply Hpos. lra.
Qed.

Lemma lanczos2Filter_threshold (t : R) :
  lanczos2Filter t = 0%R \/
  (EPSILON <= Rabs (lanczos2Filter t) <= 1)%R.
Proof.
  unfold lanczos2Filter. cbv zeta.
  set (u := if cless t 0%R then (- t)%R else t).
  destruct (cless u LANCZOS2_NUMTAPS); [|now left].
  unfold fabsThresh.
  destruct (Rlt_dec (Rabs (sinc u * sinc (u / LANCZOS2_NUMTAPS))) EPSILON)
    as [Hlt | Hge].
  { left. now rewrite cless_R_true. }
  right. rewrite cless_R_false by lra. split; [lra|].
  rewrite Rabs_mult.
  pose proof (sinc_abs_le_1 u). pose proof (Rabs_pos (sinc u)).
  pose proof (sinc_abs_le_1 (u / LANCZOS2_NUMTAPS)).
  pose proof (Rabs_pos (sinc (u / LANCZOS2_NUMTAPS))). nra.
Qed.

(** The kernel is even, never exceeds 1 in magnitude, is at least 1/4 for
    |t| <= 1/2, and takes no value strictly between 0 and the threshold
    [EPSILON] in magnitude. *)
Theorem lanczos2Filter_shape (t : R) :
  lanczos2Filter (- t) = lanczos2Filter t /\
  (Rabs (lanczos2Filter t) <= 1)%R /\
  ((Rabs t <= 1 / 2)%R -> (1 / 4 <= lanczos2Filter t)%R) /\
  (lanczos2Filter t <> 0%R -> (EPSILON <= Rabs (lanczos2Filter t))%R).
Proof.
  split; [apply lanczos2Filter_even|]. split; [|split].
  - destruct (lanczos2Filter_threshold t) as [-> | H]; [|lra].
    rewrite Rabs_R0. lra.
  - apply lanczos2Filter_central.
  - intros Hnz. destruct (lanczos2Filter_threshold t) as [H | H];
      [contradiction | lra].
Qed.

(** ** What the rows of a table hold *)

Lemma contrib_step_weights inDimSize edgeMethod center filterScale i j t :
  (forall r, 0 <= numContribPixels t r /\
     forall k, 0 <= k < numContribPixels t r ->
       (EPSILON <= Rabs (filterWeights t r k) <= 1)%R) ->
  let t' := contrib_step inDimSize edgeMethod center filterScale i j t in
  forall r, 0 <= numContribPixels t' r /\
    forall k, 0 <= k < numContribPixels t' r ->
      (EPSILON <= Rabs (filterWeights t' r k) <= 1)%R.
Proof.
  intros Hinv. cbv zeta.
  destruct (contrib_step_cases inDimSize edgeMethod center filterScale i j t)
    as [-> | (w & Hnz & Hw & ->)]; [exact Hinv|].
  intros r. simpl. destruct (Hinv r) as [Hn Hb].
  destruct (Z.eq_dec r i) as [-> | Hne].
  - rewrite !upd1_same. split; [lia|]. intros k Hk.
    destruct (Z.eq_dec k (numContribPixels t i)) as [-> | Hk'].
    + rewrite upd2_same. subst w.
      destruct (lanczos2Filter_threshold
                  ((center - IZR j) * filterScale)%R) as [H | H];
        [contradiction | exact H].
    + rewrite upd2_other by lia. apply Hb. lia.
  - rewrite !upd1_other by exact Hne. split; [exact Hn|]. intros k Hk.
    rewrite upd2_other by lia. now apply Hb.
Qed.

(** Every weight stored in a table built for positive dimensions is a
    kernel value that passed the threshold: its magnitude lies between
    [EPSILON] and 1, so no stored weight is 0. *)
Theorem stored_weights_pass_threshold (inDimSize outDimSize : Z)
  (edgeMethod : EdgeMethod) (r k : Z)
  (Hin : 1 <= inDimSize) (Hout : 1 <= outDimSize)
  (Hk : 0 <= k < numContribPixels
                   (MakeContribTable inDimSize outDimSize edgeMethod) r) :
  let w := filterWeights (MakeContribTable inDimSize outDimSize edgeMethod)
             r k in
  (EPSILON <= Rabs w <= 1)%R /\ w <> 0%R.
Proof.
  cbv zeta.
  assert (Hb : (EPSILON <=
                Rabs (filterWeights
                        (MakeContribTable inDimSize outDimSize edgeMethod)
                        r k) <= 1)%R).
  { revert r k Hk.
    enough (Hall : forall r,
               0 <= numContribPixels
                      (MakeContribTable inDimSize outDimSize edgeMethod) r /\
               forall k,
                 0 <= k < numContribPixels
                            (MakeContribTable inDimSize outDimSize edgeMethod)
                            r ->
                 (EPSILON <=
                  Rabs (filterWeights
                          (MakeContribTable inDimSize outDimSize edgeMethod)
                          r k) <= 1)%R).
    { intros r k Hk. now apply (Hall r). }
    apply (MakeContribTable_preserves
             (fun t => forall r, 0 <= numContribPixels t r /\
                forall k, 0 <= k < numContribPixels t r ->
                  (EPSILON <= Rabs (filterWeights t r k) <= 1)%R)).
    - intros r. simpl. split; [lia | intros; lia].
    - intros center filterScale i j t Ht.
      now apply contrib_step_weights. }
  split; [exact Hb|]. intros H0. rewrite H0, Rabs_R0 in Hb.
  unfold EPSILON in Hb. lra.
Qed.

Lemma stored_weights_pass_threshold_witness :
  1 <= 4 /\
  0 <= 0 < numContribPixels (MakeContribTable 4 4 MIRROR) 2 /\
  let w := filterWeights (MakeContribTable 4 4 MIRROR) 2 0 in
  (EPSILON <= Rabs w <= 1)%R /\ w <> 0%R.
Proof.
  assert (Hk : 0 <= 0 < numContribPixels (MakeContribTable 4 4 MIRROR) 2).
  { destruct (MakeContribTable_identity 4 MIRROR 2 ltac:(lia)) as [-> _].
    lia. }
  split; [lia|]. split; [exact Hk|].
  exact (stored_weights_pass_threshold 4 4 MIRROR 2 0
           ltac:(lia) ltac:(lia) Hk).
Defined.

(** When the candidate [j0] of target [i] is inside [0, inDimSize] and its
    weight is not 0, the loop over the candidates appends at least one
    entry to row [i]. *)
Lemma inner_loop_gains inDimSize edgeMethod center filterScale i t0
  (left right j0 : Z) :
  left <= j0 <= right -> 0 <= j0 <= inDimSize ->
  lanczos2Filter ((center - IZR j0) * filterScale)%R <> 0%R ->
  let t := for_loop left (right + 1) 1
             (contrib_step inDimSize edgeMethod center filterScale i) t0 in
  (forall r, r <> i -> numContribPixels t r = numContribPixels t0 r) /\
  numContribPixels t0 i + 1 <= numContribPixels t i.
Proof.
  intros Hj0 Hin Hw.
  pose proof
    (for_loop_ind
       (fun J t =>
          (forall r, r <> i -> numContribPixels t r = numContribPixels t0 r) /\
          numContribPixels t0 i <= numContribPixels t i /\
          (j0 < J -> numContribPixels t0 i + 1 <= numContribPixels t i))
       left (right + 1)
       (contrib_step inDimSize edgeMethod center filterScale i) t0) as Inv.
  cbv zeta. cbv beta in Inv.
  destruct Inv as (Hrows & _ & Hgain).
  - lia.
  - split; [reflexivity|]. split; lia.
  - intros j t Hj (Hrows & Hmono & Hgain).
    destruct (contrib_step_count inDimSize edgeMethod center filterScale
                i j t) as (Hs1 & Hs2).
    split; [|split].
    + intros r Hr. rewrite Hs1 by exact Hr. now apply Hrows.
    + lia.
    + intros Hlt. destruct (Z.eq_dec j j0) as [-> | Hne].
      * rewrite (contrib_step_append inDimSize edgeMethod center filterScale
                   i j0 t _ Hin eq_refl Hw).
        simpl. rewrite upd1_same. lia.
      * assert (numContribPixels t0 i + 1 <= numContribPixels t i)
          by (apply Hgain; lia).
        lia.
  - split; [exact Hrows | apply Hgain; lia].
Qed.

Lemma MakeContribTable_row_nonempty (inDimSize outDimSize : Z)
  (edgeMethod : EdgeMethod) (i : Z) :
  1 <= inDimSize -> 1 <= outDimSize -> 0 <= i < outDimSize ->
  1 <= numContribPixels (MakeContribTable inDimSize outDimSize edgeMethod) i.
Proof.
  intros Hin Hout Hi.
  unfold MakeContribTable. cbv zeta.
  assert (HinR : (1 <= IZR inDimSize)%R) by (apply IZR_le; lia).
  assert (HoutR : (1 <= IZR outDimSize)%R) by (apply IZR_le; lia).
  set (scaleRatio := (IZR outDimSize / IZR inDimSize)%R).
  assert (Hratio : (0 < scaleRatio)%R).
  { unfold scaleRatio. apply Rmult_lt_0_compat; [lra|].
    apply Rinv_0_lt_compat. lra. }
  assert (Hrin : (scaleRatio * IZR inDimSize = IZR outDimSize)%R).
  { unfold scaleRatio. field. lra. }
  set (half := if cless 1%R scaleRatio then LANCZOS2_NUMTAPS
               else (LANCZOS2_NUMTAPS / scaleRatio)%R).
  set (filterScale := if cless 1%R scaleRatio then 1%R else scaleRatio).
  assert (Hfs : (0 < filterScale <= 1)%R).
  { unfold filterScale, cless, CLess_R.
    destruct (Rlt_dec 1 scaleRatio); lra. }
  assert (Hhalf : (2 <= half)%R).
  { unfold half, LANCZOS2_NUMTAPS, cless, CLess_R.
    destruct (Rlt_dec 1 scaleRatio) as [H|H]; [lra|].
    apply (Rmult_le_reg_r scaleRatio); [exact Hratio|].
    unfold Rdiv. rewrite Rmult_assoc, Rinv_l by lra. lra. }
  assert (Hbody :
    (let '(filterScale, scaledHalfTaps) :=
       if cless 1%R scaleRatio
       then (1%R, LANCZOS2_NUMTAPS)
       else (scaleRatio, (LANCZOS2_NUMTAPS / scaleRatio)%R) in
     for_loop 0 outDimSize 1
       (fun i t =>
          for_loop (floor ((IZR i + 0.5) / scaleRatio - 0.5 - scaledHalfTaps))
            (ceil ((IZR i + 0.5) / scaleRatio - 0.5 + scaledHalfTaps) + 1) 1
            (contrib_step inDimSize edgeMethod
               ((IZR i + 0.5) / scaleRatio - 0.5) filterScale i) t)
       empty_ContribTable) =
    for_loop 0 outDimSize 1
      (fun i t =>
         for_loop (floor ((IZR i + 0.5) / scaleRatio - 0.5 - half))
           (ceil ((IZR i + 0.5) / scaleRatio - 0.5 + half) + 1) 1
           (contrib_step inDimSize edgeMethod
              ((IZR i + 0.5) / scaleRatio - 0.5) filterScale i) t)
      empty_ContribTable).
  { unfold half, filterScale. destruct (cless 1%R scaleRatio); reflexivity. }
  rewrite Hbody. clear Hbody.
  match goal with
  | |- _ <= numContribPixels (for_loop 0 outDimSize 1 ?b ?s) i =>
      pose proof
        (for_loop_ind
           (fun idx t => forall r,
                0 <= numContribPixels t r /\
                (0 <= r < idx -> 1 <= numContribPixels t r))
           0 outDimSize b s) as Inv
  end.
  apply Inv; clear Inv; [lia | | | exact Hi].
  - intros r. simpl. lia.
  - intros j t Hj HI r. cbv beta.
    set (center := ((IZR j + 0.5) / scaleRatio - 0.5)%R).
    set (j0 := floor (center + 0.5)).
    pose proof (floor_bounds (center + 0.5)) as Hj0. fold j0 in Hj0.
    pose proof (floor_bounds (center - half)) as Hl.
    pose proof (ceil_bounds (center + half)) as Hr.
    assert (HjR : (0 <= IZR j <= IZR outDimSize - 1)%R).
    { split; [apply IZR_le; lia|].
      rewrite <- minus_IZR. apply IZR_le. lia. }
    assert (Hq : (0 < center + 0.5 < IZR inDimSize)%R).
    { unfold center.
      replace ((IZR j + 0.5) / scaleRatio - 0.5 + 0.5)%R
        with ((IZR j + 0.5) / scaleRatio)%R by lra.
      split.
      - apply Rmult_lt_0_compat; [lra|]. now apply Rinv_0_lt_compat.
      - apply (Rmult_lt_reg_r scaleRatio); [exact Hratio|].
        unfold Rdiv. rewrite Rmult_assoc, Rinv_l by lra.
        rewrite (Rmult_comm (IZR inDimSize)), Hrin. lra. }
    assert (Hj0in : 0 <= j0 <= inDimSize).
    { split.
      - assert (0 < j0 + 1); [|lia]. apply lt_IZR. rewrite plus_IZR. lra.
      - apply le_IZR. lra. }
    assert (Hlr : floor (center - half) <= j0 <= ceil (center + half)).
    { split.
      - assert (floor (center - half) < j0 + 1); [|lia].
        apply lt_IZR. rewrite plus_IZR. lra.
      - apply le_IZR. lra. }
    assert (Hw : lanczos2Filter ((center - IZR j0) * filterScale)%R <> 0%R).
    { assert (1 / 4 <= lanczos2Filter ((center - IZR j0) * filterScale))%R;
        [|lra].
      apply lanczos2Filter_central. rewrite Rabs_mult.
      rewrite (Rabs_pos_eq filterScale) by lra.
      assert (Rabs (center - IZR j0) <= 1 / 2)%R by (apply Rabs_le; lra).
      pose proof (Rabs_pos (center - IZR j0)). nra. }
    destruct (inner_loop_gains inDimSize edgeMethod center filterScale j t
                (floor (center - half)) (ceil (center + half)) j0
                Hlr Hj0in Hw) as (Hrows & Hrow).
    cbv zeta in Hrows, Hrow.
    destruct (Z.eq_dec r j) as [-> | Hne].
    + destruct (HI j) as (H0 & _). lia.
    + rewrite Hrows by exact Hne. destruct (HI r) as (H0 & H1).
      split; [exact H0|]. intros Hr'. apply H1. lia.
Qed.

(** Every target index of a table built for positive dimensions has at
    least one contributor, under every edge policy: the source index
    nearest to the centre is always stored. *)
Theorem every_row_has_a_contributor (inDimSize outDimSize : Z)
  (edgeMethod : EdgeMethod) (i : Z)
  (Hin : 1 <= inDimSize) (Hout : 1 <= outDimSize)
  (Hi : 0 <= i < outDimSize) :
  1 <= numContribPixels (MakeContribTable inDimSize outDimSize edgeMethod) i.
Proof.
  apply MakeContribTable_row_nonempty.
  - exact Hin.
  - exact Hout.
  - exact Hi.
Qed.

Lemma every_row_has_a_contributor_witness :
  1 <= 5 /\ 1 <= 8 /\ 0 <= 7 < 8 /\
  1 <= numContribPixels (MakeContribTable 5 8 NOCONTRIB) 7.
Proof.
  assert (H1 : 1 <= 5) by lia. assert (H2 : 1 <= 8) by lia.
  assert (H3 : 0 <= 7 < 8) by lia.
  split; [exact H1|]. split; [exact H2|]. split; [exact H3|].
  exact (every_row_has_a_contributor 5 8 NOCONTRIB 7 H1 H2 H3).
Defined.

(** ** The range of the resampler's output *)

Lemma CLAMP_R_range (v a b : R) : (a <= b)%R -> (a <= CLAMP v a b <= b)%R.
Proof.
  intros Hab. unfold CLAMP, cless, CLess_R.
  destruct (Rlt_dec v a); [lra|]. destruct (Rlt_dec b v); lra.
Qed.

Lemma set_dbl_unit (im : IMAGE) p y x v :
  (0 <= v <= 1)%R -> unit_samples im -> unit_samples (set_dbl im p y x v).
Proof.
  intros Hv Him p' y' x'.
  destruct (dblPixArray im) as [a|] eqn:E.
  - rewrite dbl_set_dbl by (now rewrite E).
    destruct ((p' =? p) && (y' =? y) && (x' =? x)); [exact Hv | apply Him].
  - unfold set_dbl. rewrite E. apply Him.
Qed.

(** A loop whose body succeeds on every state that meets [P], which it
    preserves, runs to the end in a state that meets [P]. *)
Lemma for_loop_err_inv {S : Type} (P : S -> Prop) (lo hi step : Z)
  (body : Z -> S -> option S) (s0 : S) :
  P s0 ->
  (forall i s, P s -> exists s', body i s = Some s' /\ P s') ->
  exists s', for_loop_err lo hi step body s0 = Some s' /\ P s'.
Proof.
  intros HP0 Hbody. unfold for_loop_err.
  apply (for_loop_preserves (fun m => exists s', m = Some s' /\ P s')).
  - now exists s0.
  - intros i m (s & -> & HPs). simpl bind. now apply Hbody.
Qed.

(** The state of an image that the filters write to: its double buffer is
    there and every sample lies in [0, 1]. *)
Lemma Filter1DHorz_unit pImageIn pImageOut x y plane edgeMethod contribs :
  is_some (dblPixArray pImageIn) = true ->
  is_some (dblPixArray pImageOut) = true /\ unit_samples pImageOut ->
  exists out,
    Filter1DHorz pImageIn pImageOut x y plane edgeMethod contribs = Some out /\
    (is_some (dblPixArray out) = true /\ unit_samples out).
Proof.
  intros Hi (Ho & Hu). rewrite Filter1DHorz_some by assumption.
  eexists. split; [reflexivity|]. split.
  - apply (same_frame_some pImageOut); [exact Ho | apply set_dbl_frame].
  - apply set_dbl_unit; [|exact Hu].
    assert (E : 1.0%R = 1%R) by lra. rewrite E. apply CLAMP_R_range. lra.
Qed.

Lemma Filter1DVert_unit pImageIn pImageOut x y plane edgeMethod contribs :
  is_some (dblPixArray pImageIn) = true ->
  is_some (dblPixArray pImageOut) = true /\ unit_samples pImageOut ->
  exists out,
    Filter1DVert pImageIn pImageOut x y plane edgeMethod contribs = Some out /\
    (is_some (dblPixArray out) = true /\ unit_samples out).
Proof.
  intros Hi (Ho & Hu). rewrite Filter1DVert_some by assumption.
  eexists. split; [reflexivity|]. split.
  - apply (same_frame_some pImageOut); [exact Ho | apply set_dbl_frame].
  - apply set_dbl_unit; [|exact Hu].
    assert (E : 1.0%R = 1%R) by lra. rewrite E. apply CLAMP_R_range. lra.
Qed.

Lemma ResizeImage_horizontal_unit pImageIn outWidth edgeMethod :
  is_some (dblPixArray pImageIn) = true ->
  exists imageTmp,
    ResizeImage_horizontal pImageIn outWidth edgeMethod = Some imageTmp /\
    same_frame
      (CreateImage (colorSpace pImageIn) outWidth (height pImageIn) DOUBLE)
      imageTmp /\
    unit_samples imageTmp.
Proof.
  intros Hsrc.
  destruct (ResizeImage_horizontal_some pImageIn outWidth edgeMethod Hsrc)
    as (imageTmp & Hrun & Hfr & _).
  exists imageTmp. split; [exact Hrun|]. split; [exact Hfr|].
  revert Hrun. unfold ResizeImage_horizontal.
  destruct (chroma_inc (colorSpace pImageIn)) as [xinc yinc].
  cbv zeta.
  set (P := fun s : IMAGE =>
              is_some (dblPixArray s) = true /\ unit_samples s).
  assert (Hinner : forall contribs plane y w s, P s ->
            exists s',
              for_loop_err 0 w 1
                (fun x tmp =>
                   Filter1DHorz pImageIn tmp x y plane edgeMethod contribs) s
              = Some s' /\ P s').
  { intros contribs plane y w s Hs.
    apply (for_loop_err_inv P); [exact Hs|].
    intros x s' Hs'. now apply Filter1DHorz_unit. }
  assert (Hrect : forall contribs plane h w s, P s ->
            exists s',
              for_loop_err 0 h 1
                (fun y tmp =>
                   for_loop_err 0 w 1
                     (fun x tmp =>
                        Filter1DHorz pImageIn tmp x y plane edgeMethod
                          contribs) tmp) s
              = Some s' /\ P s').
  { intros contribs plane h w s Hs.
    apply (for_loop_err_inv P); [exact Hs|].
    intros y s' Hs'. now apply Hinner. }
  destruct (Hrect (MakeContribTable (width pImageIn) outWidth edgeMethod)
              Y_PLANE (height pImageIn) outWidth
              (CreateImage (colorSpace pImageIn) outWidth (height pImageIn)
                 DOUBLE)) as (t0 & E0 & P0).
  { split; [reflexivity|]. intros p y x. unfold dbl, CreateImage. simpl.
    unfold Array3.get, Array3.make. lra. }
  rewrite E0. simpl bind.
  match goal with
  | |- for_loop_err U_PLANE ?hi 1 ?b t0 = _ -> _ =>
      destruct (for_loop_err_inv P U_PLANE hi 1 b t0 P0)
        as (t1 & E1 & P1);
        [intros plane s Hs; now apply Hrect|]
  end.
  rewrite E1. intros Hrun. injection Hrun as <-. apply P1.
Qed.

Lemma ResizeImage_vertical_unit pImageIn imageTmp pImageOut edgeMethod :
  is_some (dblPixArray imageTmp) = true ->
  is_some (dblPixArray pImageOut) = true -> unit_samples pImageOut ->
  exists out,
    ResizeImage_vertical pImageIn imageTmp pImageOut edgeMethod = Some out /\
    unit_samples out.
Proof.
  intros Htmp Hbuf Hout. unfold ResizeImage_vertical.
  destruct (chroma_inc (colorSpace pImageIn)) as [xinc yinc].
  cbv zeta.
  set (P := fun s : IMAGE =>
              is_some (dblPixArray s) = true /\ unit_samples s).
  assert (Hrect : forall contribs plane h w s, P s ->
            exists s',
              for_loop_err 0 h 1
                (fun y out =>
                   for_loop_err 0 w 1
                     (fun x out =>
                        Filter1DVert imageTmp out x y plane edgeMethod
                          contribs) out) s
              = Some s' /\ P s').
  { intros contribs plane h w s Hs.
    apply (for_loop_err_inv P); [exact Hs|].
    intros y s' Hs'. apply (for_loop_err_inv P); [exact Hs'|].
    intros x s'' Hs''. now apply Filter1DVert_unit. }
  destruct (Hrect (MakeContribTable (height pImageIn) (height pImageOut)
                     edgeMethod)
              Y_PLANE (height pImageOut) (width pImageOut) pImageOut)
    as (t0 & E0 & P0).
  { now split. }
  rewrite E0. simpl bind.
  match goal with
  | |- exists out, for_loop_err U_PLANE ?hi 1 ?b t0 = _ /\ _ =>
      destruct (for_loop_err_inv P U_PLANE hi 1 b t0 P0)
        as (t1 & E1 & P1);
        [intros plane s Hs; now apply Hrect|]
  end.
  exists t1. split; [exact E1 | apply P1].
Qed.

Lemma CopyImage_unit (pImageIn pImageOut : IMAGE) :
  unit_samples pImageIn -> unit_samples pImageOut ->
  unit_samples (snd (CopyImage pImageIn pImageOut)).
Proof.
  intros Hin Hout. unfold CopyImage.
  destruct (_ || _); [exact Hout|].
  destruct (negb _); [exact Hout|].
  cbv zeta.
  destruct (pixArray pImageIn) as [src|] eqn:Esrc.
  - destruct (pixArray pImageOut) as [dst|] eqn:Edst.
    + intros p y x. specialize (Hout p y x). unfold dbl in *. simpl.
      exact Hout.
    + intros p y x. specialize (Hout p y x). unfold dbl in *. simpl.
      exact Hout.
  - destruct (dblPixArray pImageIn) as [src|] eqn:Esrc'; [|exact Hout].
    destruct (dblPixArray pImageOut) as [dst|] eqn:Edst.
    + intros p y x. specialize (Hout p y x). specialize (Hin p y x).
      unfold dbl in *. simpl. rewrite Esrc', Edst in *.
      unfold memcpy3, Array3.get in *.
      destruct (_ && _); assumption.
    + intros p y x. specialize (Hout p y x). unfold dbl in *. simpl.
      rewrite Edst in *. exact Hout.
Qed.

(** Whatever real values the samples of a double-precision source hold, a
    resize that changes a dimension, between images at least 2 wide and 2
    high (so that every contribution table is built for positive sizes),
    runs to its end, returns TRUE, and leaves an output that started in
    [0, 1] in [0, 1]: every filtered sample is clamped before it is
    stored.  Samples are real numbers here, and a quotient by a sum of
    weights that is 0 is read as 0, where the double quotient 0/0 is a NaN
    that the clamp lets through. *)
Theorem ResizeImage_unit_range (pImageIn pImageOut : IMAGE)
  (edgeMethod : EdgeMethod)
  (Hsrc : dblPixArray pImageIn <> None)
  (Hdst : dblPixArray pImageOut <> None)
  (Hout : unit_samples pImageOut)
  (Hsize : 2 <= width pImageIn /\ 2 <= height pImageIn
           /\ 2 <= width pImageOut /\ 2 <= height pImageOut)
  (Hdim : width pImageIn <> width pImageOut
          \/ height pImageIn <> height pImageOut) :
  exists out,
    ResizeImage pImageIn pImageOut edgeMethod = Some (true, out) /\
    unit_samples out.
Proof.
  assert (Hs : is_some (dblPixArray pImageIn) = true)
    by (destruct (dblPixArray pImageIn); [reflexivity | now elim Hsrc]).
  assert (Hd : is_some (dblPixArray pImageOut) = true)
    by (destruct (dblPixArray pImageOut); [reflexivity | now elim Hdst]).
  destruct (ResizeImage_horizontal_unit pImageIn (width pImageOut) edgeMethod
              Hs) as (imageTmp & Hrun & Hfr & Hunit).
  assert (Ht : is_some (dblPixArray imageTmp) = true)
    by (eapply same_frame_some; [|exact Hfr]; reflexivity).
  unfold ResizeImage.
  assert (Hne : (width pImageIn =? width pImageOut)
                && (height pImageIn =? height pImageOut) = false).
  { destruct (Z.eqb_spec (width pImageIn) (width pImageOut));
      destruct (Z.eqb_spec (height pImageIn) (height pImageOut));
      simpl; try reflexivity. destruct Hdim; contradiction. }
  rewrite Hne, Hrun. simpl bind.
  destruct (height pImageIn =? height pImageOut).
  - eexists. split; [reflexivity|]. now apply CopyImage_unit.
  - destruct (ResizeImage_vertical_unit pImageIn imageTmp pImageOut
                edgeMethod Ht Hd Hout) as (out & Ev & Hu).
    rewrite Ev. simpl bind. exists out. now split.
Qed.

Lemma ResizeImage_unit_range_witness :
  let pImageIn :=
    with_dblPixArray (CreateImage RGB 2 2 DOUBLE) (fun _ _ _ => 7%R) in
  let pImageOut := CreateImage RGB 3 3 DOUBLE in
  dblPixArray pImageIn <> None /\ dblPixArray pImageOut <> None /\
  unit_samples pImageOut /\
  (2 <= width pImageIn /\ 2 <= height pImageIn
   /\ 2 <= width pImageOut /\ 2 <= height pImageOut) /\
  (width pImageIn <> width pImageOut
   \/ height pImageIn <> height pImageOut) /\
  exists out,
    ResizeImage pImageIn pImageOut MIRROR = Some (true, out) /\
    unit_samples out.
Proof.
  intros pImageIn pImageOut.
  assert (H1 : dblPixArray pImageIn <> None) by (simpl; discriminate).
  assert (H2 : dblPixArray pImageOut <> None) by (simpl; discriminate).
  assert (Hout : unit_samples pImageOut).
  { intros p y x. unfold dbl. simpl. unfold Array3.get, Array3.make. lra. }
  assert (Hdim : width pImageIn <> width pImageOut
                 \/ height pImageIn <> height pImageOut).
  { left. simpl. lia. }
  assert (Hsize : 2 <= width pImageIn /\ 2 <= height pImageIn
                  /\ 2 <= width pImageOut /\ 2 <= height pImageOut)
    by (simpl; lia).
  split; [exact H1|]. split; [exact H2|]. split; [exact Hout|].
  split; [exact Hsize|]. split; [exact Hdim|].
  exact (ResizeImage_unit_range pImageIn pImageOut MIRROR H1 H2 Hout Hsize
           Hdim).
Defined.

(** ** The resampler on a source without a double buffer *)

Lemma for_loop_err_first_none {S : Type} (lo hi : Z)
  (body : Z -> S -> option S) (s : S) :
  lo < hi -> body lo s = None -> for_loop_err lo hi 1 body s = None.
Proof.
  intros Hlt Hnone. unfold for_loop_err.
  rewrite for_loop_first by exact Hlt. simpl bind. rewrite Hnone.
  apply for_loop_preserves; [reflexivity|]. now intros i m ->.
Qed.

(** On a source that holds no double buffer (an image of 8-bit precision),
    a resize that changes a dimension dereferences NULL in its first call
    of [Filter1DHorz]: the source, the output width and the source height
    being at least 1, the first target column has a contributor to read. *)
Theorem ResizeImage_without_double_buffer (pImageIn pImageOut : IMAGE)
  (edgeMethod : EdgeMethod)
  (Hsrc : dblPixArray pImageIn = None)
  (Hw : 1 <= width pImageIn) (Hh : 1 <= height pImageIn)
  (Hwo : 1 <= width pImageOut)
  (Hdim : width pImageIn <> width pImageOut
          \/ height pImageIn <> height pImageOut) :
  ResizeImage_horizontal pImageIn (width pImageOut) edgeMethod = None /\
  ResizeImage pImageIn pImageOut edgeMethod = None.
Proof.
  assert (Hhorz : ResizeImage_horizontal pImageIn (width pImageOut)
                    edgeMethod = None).
  { unfold ResizeImage_horizontal.
    destruct (chroma_inc (colorSpace pImageIn)) as [xinc yinc].
    cbv zeta.
    rewrite for_loop_err_first_none; [reflexivity | lia |].
    apply for_loop_err_first_none; [lia|].
    apply Filter1DHorz_null. right. split; [exact Hsrc|].
    apply MakeContribTable_row_nonempty; lia. }
  split; [exact Hhorz|]. unfold ResizeImage.
  assert (Hne : (width pImageIn =? width pImageOut)
                && (height pImageIn =? height pImageOut) = false).
  { destruct (Z.eqb_spec (width pImageIn) (width pImageOut));
      destruct (Z.eqb_spec (height pImageIn) (height pImageOut));
      simpl; try reflexivity. destruct Hdim; contradiction. }
  rewrite Hne, Hhorz. reflexivity.
Qed.

Lemma ResizeImage_without_double_buffer_witness :
  let pImageIn := set_pix (CreateImage RGB 1 2 BPP8) 0 0 0 7 in
  let pImageOut := CreateImage RGB 1 1 DOUBLE in
  dblPixArray pImageIn = None /\
  1 <= width pImageIn /\ 1 <= height pImageIn /\ 1 <= width pImageOut /\
  (width pImageIn <> width pImageOut
   \/ height pImageIn <> height pImageOut) /\
  ResizeImage_horizontal pImageIn (width pImageOut) REPEAT = None /\
  ResizeImage pImageIn pImageOut REPEAT = None.
Proof.
  intros pImageIn pImageOut.
  assert (H1 : dblPixArray pImageIn = None) by reflexivity.
  assert (H2 : 1 <= width pImageIn) by (simpl; lia).
  assert (H3 : 1 <= height pImageIn) by (simpl; lia).
  assert (H4 : 1 <= width pImageOut) by (simpl; lia).
  assert (H5 : width pImageIn <> width pImageOut
               \/ height pImageIn <> height pImageOut)
    by (right; simpl; lia).
  repeat (split; [assumption|]).
  exact (ResizeImage_without_double_buffer pImageIn pImageOut REPEAT
           H1 H2 H3 H4 H5).
Defined.

(** ** Loops over blocks of pixels *)

(** Two nested loops that advance by [sy] rows and [sx] columns, with a
    body that sets the cells of its block that lie inside [H] by [W]. *)
Lemma block_loop {V : Type} (P : IMAGE -> Prop)
  (view : IMAGE -> Z -> Z -> V) (val : Z -> Z -> V)
  (H W sy sx : Z) (B : Z -> Z -> IMAGE -> IMAGE) (s0 : IMAGE) :
  sy = 1 \/ sy = 2 -> sx = 1 \/ sx = 2 ->
  P s0 ->
  (forall y x s, P s -> 0 <= y < H -> 0 <= x < W ->
     P (B y x s) /\
     forall r c,
       view (B y x s) r c =
       if (y <=? r) && (r <? y + sy) && (r <? H)
          && (x <=? c) && (c <? x + sx) && (c <? W)
       then val r c else view s r c) ->
  let s := for_loop 0 H sy
             (fun y s => for_loop 0 W sx (fun x s => B y x s) s) s0 in
  P s /\
  forall r c,
    view s r c =
    if (0 <=? r) && (r <? H) && (0 <=? c) && (c <? W)
    then val r c else view s0 r c.
Proof.
  intros Hsy Hsx HP0 Hbody.
  set (vw := fun (s : IMAGE) (k : Z * Z) => view s (fst k) (snd k)).
  set (vl := fun k : Z * Z => val (fst k) (snd k)).
  assert (Hidx : forall (D st : Z) (k : nat),
             st = 1 \/ st = 2 ->
             (k < Z.to_nat ((D - 0 + st - 1) / st))%nat ->
             0 <= 0 + Z.of_nat k * st < D).
  { intros D st k Hst Hk.
    destruct Hst as [-> | ->].
    - rewrite Z.div_1_r in Hk. lia.
    - pose proof (Z.div_mod (D - 0 + 2 - 1) 2 ltac:(lia)).
      pose proof (Z.mod_pos_bound (D - 0 + 2 - 1) 2 ltac:(lia)). lia. }
  assert (Hcov : forall (D st c : Z),
             st = 1 \/ st = 2 -> 0 <= c < D ->
             exists k : nat,
               (k < Z.to_nat ((D - 0 + st - 1) / st))%nat /\
               0 + Z.of_nat k * st <= c < 0 + Z.of_nat k * st + st).
  { intros D st c Hst Hc. exists (Z.to_nat (c / st)).
    pose proof (Z.div_pos c st).
    destruct Hst as [-> | ->].
    - rewrite !Z.div_1_r. lia.
    - pose proof (Z.div_mod (D - 0 + 2 - 1) 2 ltac:(lia)).
      pose proof (Z.mod_pos_bound (D - 0 + 2 - 1) 2 ltac:(lia)).
      pose proof (Z.div_mod c 2 ltac:(lia)).
      pose proof (Z.mod_pos_bound c 2 ltac:(lia)). lia. }
  assert (Hrow : forall (y : Z) (s1 : IMAGE),
             0 <= y < H -> P s1 ->
             let s := for_loop 0 W sx (fun x s => B y x s) s1 in
             P s /\
             (forall k, (y <= fst k < y + sy /\ fst k < H /\
                         0 <= snd k < W) -> vw s k = vl k) /\
             (forall k, ~ (y <= fst k < y + sy /\ fst k < H /\
                           0 <= snd k < W) -> vw s k = vw s1 k)).
  { intros y s1 Hy HP1. unfold for_loop.
    destruct (fill_loop P vw
                (fun x k => y <= fst k < y + sy /\ fst k < H /\
                            x <= snd k < x + sx /\ snd k < W)
                vl (Z.to_nat ((W - 0 + sx - 1) / sx)) 0 sx
                (fun x s => B y x s) s1 HP1) as (HP' & Hdone & Hrest).
    - intros i k. lia.
    - intros k s Hk HPs i. subst i.
      pose proof (Hidx W sx k Hsx Hk) as Hx.
      destruct (Hbody y (0 + Z.of_nat k * sx) s HPs Hy Hx) as (HPb & Hv).
      split; [exact HPb|]. split.
      + intros [kr kc] Ht. unfold vw, vl. cbn [fst snd] in *. rewrite Hv.
        destruct (Z.leb_spec y kr), (Z.ltb_spec kr (y + sy)),
          (Z.ltb_spec kr H), (Z.leb_spec (0 + Z.of_nat k * sx) kc),
          (Z.ltb_spec kc (0 + Z.of_nat k * sx + sx)), (Z.ltb_spec kc W);
          simpl; try reflexivity; lia.
      + intros [kr kc] Ht. unfold vw. cbn [fst snd] in *. rewrite Hv.
        destruct (Z.leb_spec y kr), (Z.ltb_spec kr (y + sy)),
          (Z.ltb_spec kr H), (Z.leb_spec (0 + Z.of_nat k * sx) kc),
          (Z.ltb_spec kc (0 + Z.of_nat k * sx + sx)), (Z.ltb_spec kc W);
          simpl; try reflexivity; exfalso; apply Ht; lia.
    - split; [exact HP'|]. split.
      + intros kk (H1 & H2 & H3).
        destruct (Hcov W sx (snd kk) Hsx H3) as (k & Hk & Hin).
        apply (Hdone k kk Hk). lia.
      + intros kk Hnot. apply Hrest. intros k Hk Ht.
        pose proof (Hidx W sx k Hsx Hk). apply Hnot. lia. }
  unfold for_loop at 1.
  destruct (fill_loop P vw
              (fun y k => y <= fst k < y + sy /\ fst k < H /\
                          0 <= snd k < W)
              vl (Z.to_nat ((H - 0 + sy - 1) / sy)) 0 sy
              (fun y s => for_loop 0 W sx (fun x s => B y x s) s)
              s0 HP0) as (HP' & Hdone & Hrest).
  - intros i k. lia.
  - intros k s Hk HPs i. subst i.
    pose proof (Hidx H sy k Hsy Hk) as Hy.
    destruct (Hrow (0 + Z.of_nat k * sy) s Hy HPs) as (HPr & Hd & Hr).
    split; [exact HPr|]. split; [exact Hd | exact Hr].
  - cbv zeta. split; [exact HP'|]. intros r c.
    destruct (Z.leb_spec 0 r), (Z.ltb_spec r H), (Z.leb_spec 0 c),
      (Z.ltb_spec c W); simpl;
      try (apply (Hrest (r, c)); intros k Hk Ht;
           pose proof (Hidx H sy k Hsy Hk); cbn [fst snd] in Ht; lia).
    destruct (Hcov H sy r Hsy ltac:(lia)) as (k & Hk & Hin).
    apply (Hdone k (r, c) Hk). cbn [fst snd]. lia.
Qed.

(** ** What [SetPixel] stores in an image without chroma subsampling *)

Lemma pixel_at_SetPixel (im : IMAGE) (y x : Z) (pixel : Pixel) (r c : Z) :
  colorSpace im = RGB \/ colorSpace im = YUV444 ->
  is_some (pixArray im) = true ->
  pixel_at (SetPixel im y x pixel) r c =
  if in_bounds im y x && (r =? y) && (c =? x) then pixel
  else pixel_at im r c.
Proof.
  intros Hcs Hsome. destruct pixel as [[p0 p1] p2].
  destruct (in_bounds im y x) eqn:Hin.
  - unfold pixel_at.
    rewrite pix_SetPixel_luma by assumption.
    rewrite !pix_SetPixel_chroma by (auto; right; reflexivity).
    assert (Ha : HandleColorspaceAddress x y (colorSpace im) = (x, y))
      by (destruct Hcs as [-> | ->]; reflexivity).
    rewrite Ha. simpl andb.
    destruct ((r =? y) && (c =? x)); reflexivity.
  - unfold SetPixel. rewrite Hin. reflexivity.
Qed.

Lemma YUV2RGB_at_spec (fl : RowRounding) (pImageIn out0 s : IMAGE)
  (y x r c : Z) :
  colorSpace out0 = RGB -> is_some (pixArray out0) = true ->
  same_frame out0 s ->
  same_frame out0 (YUV2RGB_at fl pImageIn y x s) /\
  pixel_at (YUV2RGB_at fl pImageIn y x s) r c =
  if (0 <=? y) && (y <? height out0) && (0 <=? x) && (x <? width out0)
     && (r =? y) && (c =? x)
  then YUVPixel2RGB fl (snd (GetPixel pImageIn y x REPEAT))
  else pixel_at s r c.
Proof.
  intros Hcs Hsome Hfr. unfold YUV2RGB_at. cbv zeta. split.
  - eapply same_frame_trans; [exact Hfr | apply SetPixel_frame].
  - destruct Hfr as (Hc & Hh & Hw & _ & Hs & _).
    rewrite pixel_at_SetPixel by (rewrite ?Hc, ?Hs; auto).
    unfold in_bounds. rewrite Hh, Hw.
    destruct (Z.geb_spec y 0), (Z.leb_spec 0 y), (Z.geb_spec x 0),
      (Z.leb_spec 0 x); try lia; simpl;
      destruct (y <? height out0), (x <? width out0); reflexivity.
Qed.

Lemma cell_cond_spec (H W y x r c : Z) :
  reflect (0 <= y < H /\ 0 <= x < W /\ r = y /\ c = x)
    ((0 <=? y) && (y <? H) && (0 <=? x) && (x <? W) && (r =? y) && (c =? x)).
Proof.
  apply iff_reflect.
  destruct (Z.leb_spec 0 y), (Z.ltb_spec y H), (Z.leb_spec 0 x),
    (Z.ltb_spec x W), (Z.eqb_spec r y), (Z.eqb_spec c x);
    simpl; split; intros; try discriminate; try reflexivity; lia.
Qed.

Lemma block_cond_spec (H W sy sx y x r c : Z) :
  reflect (y <= r < y + sy /\ r < H /\ x <= c < x + sx /\ c < W)
    ((y <=? r) && (r <? y + sy) && (r <? H)
     && (x <=? c) && (c <? x + sx) && (c <? W)).
Proof.
  apply iff_reflect.
  destruct (Z.leb_spec y r), (Z.ltb_spec r (y + sy)), (Z.ltb_spec r H),
    (Z.leb_spec x c), (Z.ltb_spec c (x + sx)), (Z.ltb_spec c W);
    simpl; split; intros; try discriminate; try reflexivity; lia.
Qed.

Lemma YUVImage2RGB_pixels (fl : RowRounding) (pImageIn pImageOut : IMAGE) :
  colorSpace pImageIn <> RGB ->
  precision pImageIn = BPP8 -> precision pImageOut = BPP8 ->
  colorSpace pImageOut = RGB ->
  is_some (pixArray pImageOut) = true ->
  let res := YUVImage2RGB fl pImageIn pImageOut in
  fst res = true /\ same_frame pImageOut (snd res) /\
  forall y x,
    pixel_at (snd res) y x =
    if in_bounds pImageOut y x
    then YUVPixel2RGB fl (snd (GetPixel pImageIn y x REPEAT))
    else pixel_at pImageOut y x.
Proof.
  intros Hin Hpi Hpo Hout Hsome.
  set (H := height pImageOut). set (W := width pImageOut).
  set (val := fun y x =>
                YUVPixel2RGB fl (snd (GetPixel pImageIn y x REPEAT))).
  assert (Hcell : forall s y x r c, same_frame pImageOut s ->
            same_frame pImageOut (YUV2RGB_at fl pImageIn y x s) /\
            pixel_at (YUV2RGB_at fl pImageIn y x s) r c =
            if (0 <=? y) && (y <? H) && (0 <=? x) && (x <? W)
               && (r =? y) && (c =? x)
            then val y x else pixel_at s r c).
  { intros s y x r c Hs. now apply YUV2RGB_at_spec. }
  assert (Hib : forall y x,
            in_bounds pImageOut y x =
            (0 <=? y) && (y <? H) && (0 <=? x) && (x <? W)).
  { intros y x. unfold in_bounds. fold H W.
    destruct (Z.geb_spec y 0), (Z.leb_spec 0 y), (Z.geb_spec x 0),
      (Z.leb_spec 0 x); try lia; simpl;
      destruct (y <? H), (x <? W); reflexivity. }
  assert (Hmain :
    let res := YUVImage2RGB fl pImageIn pImageOut in
    fst res = true /\ same_frame pImageOut (snd res) /\
    forall y x,
      pixel_at (snd res) y x =
      if (0 <=? y) && (y <? H) && (0 <=? x) && (x <? W)
      then val y x else pixel_at pImageOut y x).
  { cbv zeta. unfold YUVImage2RGB. rewrite Hpi, Hpo. simpl orb. cbv iota.
    destruct (colorSpace pImageIn) eqn:Ecs; [now elim Hin| | |];
      simpl andb; cbv iota; cbn [fst snd]; (split; [reflexivity|]);
      fold H W.
    - apply (block_loop (fun s => same_frame pImageOut s) pixel_at val
               H W 1 1 (fun y x s => YUV2RGB_at fl pImageIn y x s));
        [now left | now left | apply same_frame_refl |].
      intros y x s Hs Hy Hx. split; [now apply Hcell|]. intros r c.
      destruct (Hcell s y x r c Hs) as (_ & ->).
      destruct (cell_cond_spec H W y x r c) as [C1 | C1];
        destruct (block_cond_spec H W 1 1 y x r c) as [B | B];
        first [reflexivity | f_equal; lia | exfalso; lia].
    - apply (block_loop (fun s => same_frame pImageOut s) pixel_at val
               H W 1 2
               (fun y x s =>
                  YUV2RGB_at fl pImageIn y (x + 1)
                    (YUV2RGB_at fl pImageIn y x s)));
        [now left | now right | apply same_frame_refl |].
      intros y x s Hs Hy Hx.
      destruct (Hcell s y x 0 0 Hs) as (Hs1 & _).
      split; [now apply Hcell|]. intros r c.
      destruct (Hcell _ y (x + 1) r c Hs1) as (_ & ->).
      destruct (Hcell s y x r c Hs) as (_ & ->).
      destruct (cell_cond_spec H W y (x + 1) r c) as [C2 | C2];
        destruct (cell_cond_spec H W y x r c) as [C1 | C1];
        destruct (block_cond_spec H W 1 2 y x r c) as [B | B];
        first [reflexivity | f_equal; lia | exfalso; lia].
    - apply (block_loop (fun s => same_frame pImageOut s) pixel_at val
               H W 2 2
               (fun y x s =>
                  YUV2RGB_at fl pImageIn (y + 1) (x + 1)
                    (YUV2RGB_at fl pImageIn (y + 1) x
                       (YUV2RGB_at fl pImageIn y (x + 1)
                          (YUV2RGB_at fl pImageIn y x s)))));
        [now right | now right | apply same_frame_refl |].
      intros y x s Hs Hy Hx.
      destruct (Hcell s y x 0 0 Hs) as (Hs1 & _).
      destruct (Hcell _ y (x + 1) 0 0 Hs1) as (Hs2 & _).
      destruct (Hcell _ (y + 1) x 0 0 Hs2) as (Hs3 & _).
      split; [now apply Hcell|]. intros r c.
      destruct (Hcell _ (y + 1) (x + 1) r c Hs3) as (_ & ->).
      destruct (Hcell _ (y + 1) x r c Hs2) as (_ & ->).
      destruct (Hcell _ y (x + 1) r c Hs1) as (_ & ->).
      destruct (Hcell s y x r c Hs) as (_ & ->).
      destruct (cell_cond_spec H W (y + 1) (x + 1) r c) as [C4 | C4];
        destruct (cell_cond_spec H W (y + 1) x r c) as [C3 | C3];
        destruct (cell_cond_spec H W y (x + 1) r c) as [C2 | C2];
        destruct (cell_cond_spec H W y x r c) as [C1 | C1];
        destruct (block_cond_spec H W 2 2 y x r c) as [B | B];
        first [reflexivity | f_equal; lia | exfalso; lia]. }
  cbv zeta in Hmain |- *. destruct Hmain as (Hres & Hframe & Hpix).
  split; [exact Hres|]. split; [exact Hframe|].
  intros y x. rewrite Hpix, Hib. reflexivity.
Qed.

(** [YUVImage2RGB] converts every pixel of a YUV444, YUV422 or YUV420
    image, odd widths and heights included: the RGB pixel stored at
    [(y, x)] is the conversion of the pixel that [GetPixel] reads there,
    that is of the luma at [(y, x)] and the chroma of the cell that
    [(y, x)] falls in; nothing outside the output image is touched. *)
Theorem YUVImage2RGB_every_pixel (fl : RowRounding)
  (pImageIn pImageOut : IMAGE)
  (Hin : colorSpace pImageIn <> RGB)
  (Hprec : precision pImageIn = BPP8 /\ precision pImageOut = BPP8)
  (Hout : colorSpace pImageOut = RGB)
  (Hbuf : pixArray pImageOut <> None) :
  let res := YUVImage2RGB fl pImageIn pImageOut in
  fst res = true /\ same_frame pImageOut (snd res) /\
  (forall y x,
     pixel_at (snd res) y x =
     if in_bounds pImageOut y x
     then YUVPixel2RGB fl (snd (GetPixel pImageIn y x REPEAT))
     else pixel_at pImageOut y x) /\
  (pixArray pImageIn <> None ->
   forall y x,
     0 <= y < height pImageIn -> 0 <= x < width pImageIn ->
     in_bounds pImageOut y x = true ->
     let '(cy, cx) := chroma_cell (colorSpace pImageIn) y x in
     pixel_at (snd res) y x =
     YUVPixel2RGB fl (pix pImageIn Y_PLANE y x,
                      pix pImageIn U_PLANE cy cx,
                      pix pImageIn V_PLANE cy cx)).
Proof.
  destruct Hprec as (Hpi & Hpo).
  assert (Hsome : is_some (pixArray pImageOut) = true)
    by (destruct (pixArray pImageOut); [reflexivity | now elim Hbuf]).
  destruct (YUVImage2RGB_pixels fl pImageIn pImageOut Hin Hpi Hpo Hout Hsome)
    as (Hres & Hframe & Hpix).
  cbv zeta. split; [exact Hres|]. split; [exact Hframe|].
  split; [exact Hpix|].
  intros Hib' y x Hy Hx Hb.
  assert (Hsi : is_some (pixArray pImageIn) = true)
    by (destruct (pixArray pImageIn); [reflexivity | now elim Hib']).
  rewrite Hpix, Hb.
  rewrite (GetPixel_inside pImageIn y x REPEAT Hsi Hy Hx). cbn [snd].
  destruct (chroma_cell (colorSpace pImageIn) y x) as [cy cx].
  reflexivity.
Qed.

Lemma YUVImage2RGB_every_pixel_witness :
  let pImageIn :=
    with_pixArray (CreateImage YUV420 3 3 BPP8)
      (fun p y x => 60 + 40 * p + 3 * y + x) in
  let pImageOut := CreateImage RGB 3 3 BPP8 in
  colorSpace pImageIn <> RGB /\
  (precision pImageIn = BPP8 /\ precision pImageOut = BPP8) /\
  colorSpace pImageOut = RGB /\ pixArray pImageOut <> None /\
  let res := YUVImage2RGB exact_rows pImageIn pImageOut in
  fst res = true /\ same_frame pImageOut (snd res) /\
  (forall y x,
     pixel_at (snd res) y x =
     if in_bounds pImageOut y x
     then YUVPixel2RGB exact_rows (snd (GetPixel pImageIn y x REPEAT))
     else pixel_at pImageOut y x) /\
  (pixArray pImageIn <> None ->
   forall y x,
     0 <= y < height pImageIn -> 0 <= x < width pImageIn ->
     in_bounds pImageOut y x = true ->
     let '(cy, cx) := chroma_cell (colorSpace pImageIn) y x in
     pixel_at (snd res) y x =
     YUVPixel2RGB exact_rows (pix pImageIn Y_PLANE y x,
                              pix pImageIn U_PLANE cy cx,
                              pix pImageIn V_PLANE cy cx)).
Proof.
  intros pImageIn pImageOut.
  assert (H1 : colorSpace pImageIn <> RGB) by (simpl; discriminate).
  assert (H2 : precision pImageIn = BPP8 /\ precision pImageOut = BPP8)
    by (split; reflexivity).
  assert (H3 : colorSpace pImageOut = RGB) by reflexivity.
  assert (H4 : pixArray pImageOut <> None) by (simpl; discriminate).
  repeat (split; [assumption|]).
  exact (YUVImage2RGB_every_pixel exact_rows pImageIn pImageOut H1 H2 H3 H4).
Defined.

(** ** RGB to YUV444 and back, for whole images *)

Lemma RGB2YUV444_at_spec (fl : RowRounding) (pImageIn out0 s : IMAGE)
  (y x r c : Z) :
  colorSpace out0 = YUV444 -> is_some (pixArray out0) = true ->
  same_frame out0 s ->
  let s' := SetPixel s y x
              (RGBPixel2YUV fl (snd (GetPixel pImageIn y x REPEAT))) in
  same_frame out0 s' /\
  pixel_at s' r c =
  if (0 <=? y) && (y <? height out0) && (0 <=? x) && (x <? width out0)
     && (r =? y) && (c =? x)
  then RGBPixel2YUV fl (snd (GetPixel pImageIn y x REPEAT))
  else pixel_at s r c.
Proof.
  intros Hcs Hsome Hfr. cbv zeta. split.
  - eapply same_frame_trans; [exact Hfr | apply SetPixel_frame].
  - destruct Hfr as (Hc & Hh & Hw & _ & Hs & _).
    rewrite pixel_at_SetPixel by (rewrite ?Hc, ?Hs; auto).
    unfold in_bounds. rewrite Hh, Hw.
    destruct (Z.geb_spec y 0), (Z.leb_spec 0 y), (Z.geb_spec x 0),
      (Z.leb_spec 0 x); try lia; simpl;
      destruct (y <? height out0), (x <? width out0); reflexivity.
Qed.

(** Into a YUV444 image, [RGBImage2YUV] stores at every pixel of the
    output the conversion of the pixel that [GetPixel] reads there. *)
Lemma RGBImage2YUV_444_pixels (fl : RowRounding)
  (pImageIn pImageOut : IMAGE) :
  colorSpace pImageOut = YUV444 ->
  precision pImageIn = BPP8 -> precision pImageOut = BPP8 ->
  is_some (pixArray pImageOut) = true ->
  let res := RGBImage2YUV fl pImageIn pImageOut in
  fst res = true /\ same_frame pImageOut (snd res) /\
  forall y x,
    pixel_at (snd res) y x =
    if in_bounds pImageOut y x
    then RGBPixel2YUV fl (snd (GetPixel pImageIn y x REPEAT))
    else pixel_at pImageOut y x.
Proof.
  intros Hcs Hpi Hpo Hsome. cbv zeta.
  unfold RGBImage2YUV. rewrite Hcs, Hpi, Hpo. simpl. 
  split; [reflexivity|]. unfold RGB2YUV444_loop.
  set (H := height pImageOut). set (W := width pImageOut).
  set (val := fun y x =>
                RGBPixel2YUV fl (snd (GetPixel pImageIn y x REPEAT))).
  assert (Hib : forall y x,
            in_bounds pImageOut y x =
            (0 <=? y) && (y <? H) && (0 <=? x) && (x <? W)).
  { intros y x. unfold in_bounds. fold H W.
    destruct (Z.geb_spec y 0), (Z.leb_spec 0 y), (Z.geb_spec x 0),
      (Z.leb_spec 0 x); try lia; simpl;
      destruct (y <? H), (x <? W); reflexivity. }
  assert (Hcell : forall s y x r c, same_frame pImageOut s ->
            same_frame pImageOut (SetPixel s y x (val y x)) /\
            pixel_at (SetPixel s y x (val y x)) r c =
            if (0 <=? y) && (y <? H) && (0 <=? x) && (x <? W)
               && (r =? y) && (c =? x)
            then val y x else pixel_at s r c).
  { intros s y x r c Hs. now apply RGB2YUV444_at_spec. }
  destruct (block_loop (fun s => same_frame pImageOut s) pixel_at val
              H W 1 1 (fun y x s => SetPixel s y x (val y x))
              pImageOut) as (Hfr & Hpix);
    [now left | now left | apply same_frame_refl | |].
  - intros y x s Hs Hy Hx. split; [now apply Hcell|]. intros r c.
    destruct (Hcell s y x r c Hs) as (_ & ->).
    destruct (cell_cond_spec H W y x r c) as [C1 | C1];
      destruct (block_cond_spec H W 1 1 y x r c) as [B | B];
      first [reflexivity | f_equal; lia | exfalso; lia].
  - split; [exact Hfr|]. intros y x. rewrite Hpix, Hib. reflexivity.
Qed.

Lemma GetPixel_no_subsampling (im : IMAGE) (y x : Z) (m : EdgeMethod) :
  colorSpace im = RGB \/ colorSpace im = YUV444 ->
  is_some (pixArray im) = true ->
  0 <= y < height im -> 0 <= x < width im ->
  snd (GetPixel im y x m) = pixel_at im y x.
Proof.
  intros Hcs Hsome Hy Hx.
  rewrite (GetPixel_inside im y x m Hsome Hy Hx). cbn [snd].
  unfold chroma_cell, pixel_at.
  destruct Hcs as [-> | ->]; reflexivity.
Qed.

(** [ConvertImage] from RGB to YUV444 and from there back to RGB succeeds
    in both directions and returns, at every pixel, red and green within 1
    and blue within 2 of the 8-bit original. *)
Theorem ConvertImage_RGB_YUV444_RGB (fl : RowRounding)
  (rgb yuv back : IMAGE)
  (Hfl : accurate fl)
  (Hcs : colorSpace rgb = RGB /\ colorSpace yuv = YUV444
         /\ colorSpace back = RGB)
  (Hprec : precision rgb = BPP8 /\ precision yuv = BPP8
           /\ precision back = BPP8)
  (Hbuf : pixArray rgb <> None /\ pixArray yuv <> None
          /\ pixArray back <> None)
  (Hdim : width rgb = width yuv /\ height rgb = height yuv
          /\ width yuv = width back /\ height yuv = height back)
  (H8 : forall y x, is_pixel (pixel_at rgb y x)) :
  let there := ConvertImage fl rgb yuv in
  let again := ConvertImage fl (snd there) back in
  fst there = true /\ fst again = true /\
  forall y x, 0 <= y < height rgb -> 0 <= x < width rgb ->
    let '(r, g, b) := pixel_at rgb y x in
    let '(r', g', b') := pixel_at (snd again) y x in
    Z.abs (r' - r) <= 1 /\ Z.abs (g' - g) <= 1 /\ Z.abs (b' - b) <= 2.
Proof.
  destruct Hcs as (C1 & C2 & C3). destruct Hprec as (P1 & P2 & P3).
  destruct Hbuf as (B1 & B2 & B3). destruct Hdim as (W1 & H1 & W2 & H2).
  assert (S1 : is_some (pixArray rgb) = true)
    by (destruct (pixArray rgb); [reflexivity | now elim B1]).
  assert (S2 : is_some (pixArray yuv) = true)
    by (destruct (pixArray yuv); [reflexivity | now elim B2]).
  assert (S3 : is_some (pixArray back) = true)
    by (destruct (pixArray back); [reflexivity | now elim B3]).
  destruct (RGBImage2YUV_444_pixels fl rgb yuv C2 P1 P2 S2)
    as (R1 & F1 & X1).
  assert (Ethere : ConvertImage fl rgb yuv =
                   (true, snd (RGBImage2YUV fl rgb yuv))).
  { unfold ConvertImage. rewrite W1, H1, !Z.eqb_refl, C1, C2. simpl.
    rewrite R1. reflexivity. }
  cbv zeta. rewrite Ethere. cbn [fst snd].
  set (yuv' := snd (RGBImage2YUV fl rgb yuv)) in *.
  destruct F1 as (Fc & Fh & Fw & Fp & Fs & _).
  assert (S2' : is_some (pixArray yuv') = true) by (now rewrite Fs).
  assert (Hne : colorSpace yuv' <> RGB) by (rewrite Fc, C2; discriminate).
  destruct (YUVImage2RGB_pixels fl yuv' back Hne
              ltac:(now rewrite Fp) P3 C3 S3) as (R2 & F2 & X2).
  assert (Eagain : ConvertImage fl yuv' back =
                   (true, snd (YUVImage2RGB fl yuv' back))).
  { unfold ConvertImage. rewrite Fw, Fh, W2, H2, !Z.eqb_refl, Fc, C2, C3.
    simpl. rewrite R2. reflexivity. }
  rewrite Eagain. cbn [fst snd].
  split; [reflexivity|]. split; [reflexivity|].
  intros y x Hy Hx.
  assert (Hb3 : in_bounds back y x = true)
    by (apply in_bounds_true; lia).
  assert (Hb2 : in_bounds yuv y x = true)
    by (apply in_bounds_true; lia).
  rewrite X2, Hb3.
  rewrite GetPixel_no_subsampling;
    [| right; now rewrite Fc | exact S2' | rewrite Fh; lia | rewrite Fw; lia].
  rewrite X1, Hb2.
  rewrite GetPixel_no_subsampling; [| now left | exact S1 | lia | lia].
  specialize (H8 y x).
  destruct (pixel_at rgb y x) as [[r g] b].
  now apply RGB_YUV_RGB_bounds.
Qed.

Lemma ConvertImage_RGB_YUV444_RGB_witness :
  let rgb :=
    with_pixArray (CreateImage RGB 3 2 BPP8)
      (fun p y x => (97 * p + 31 * y + 13 * x + 5) mod 256) in
  let yuv := CreateImage YUV444 3 2 BPP8 in
  let back := CreateImage RGB 3 2 BPP8 in
  accurate exact_rows /\
  (colorSpace rgb = RGB /\ colorSpace yuv = YUV444
   /\ colorSpace back = RGB) /\
  (precision rgb = BPP8 /\ precision yuv = BPP8 /\ precision back = BPP8) /\
  (pixArray rgb <> None /\ pixArray yuv <> None /\ pixArray back <> None) /\
  (width rgb = width yuv /\ height rgb = height yuv
   /\ width yuv = width back /\ height yuv = height back) /\
  (forall y x, is_pixel (pixel_at rgb y x)) /\
  let there := ConvertImage exact_rows rgb yuv in
  let again := ConvertImage exact_rows (snd there) back in
  fst there = true /\ fst again = true /\
  forall y x, 0 <= y < height rgb -> 0 <= x < width rgb ->
    let '(r, g, b) := pixel_at rgb y x in
    let '(r', g', b') := pixel_at (snd again) y x in
    Z.abs (r' - r) <= 1 /\ Z.abs (g' - g) <= 1 /\ Z.abs (b' - b) <= 2.
Proof.
  intros rgb yuv back.
  assert (H0 : accurate exact_rows) by (intros p k; split; reflexivity).
  assert (H1 : colorSpace rgb = RGB /\ colorSpace yuv = YUV444
               /\ colorSpace back = RGB) by (repeat split).
  assert (H2 : precision rgb = BPP8 /\ precision yuv = BPP8
               /\ precision back = BPP8) by (repeat split).
  assert (H3 : pixArray rgb <> None /\ pixArray yuv <> None
               /\ pixArray back <> None)
    by (repeat split; simpl; discriminate).
  assert (H4 : width rgb = width yuv /\ height rgb = height yuv
               /\ width yuv = width back /\ height yuv = height back)
    by (repeat split).
  assert (H5 : forall y x, is_pixel (pixel_at rgb y x)).
  { intros y x. unfold is_pixel, pixel_at.
    change (pix rgb Y_PLANE y x) with ((97 * 0 + 31 * y + 13 * x + 5) mod 256).
    change (pix rgb U_PLANE y x) with ((97 * 1 + 31 * y + 13 * x + 5) mod 256).
    change (pix rgb V_PLANE y x) with ((97 * 2 + 31 * y + 13 * x + 5) mod 256).
    pose proof (Z.mod_pos_bound (97 * 0 + 31 * y + 13 * x + 5) 256).
    pose proof (Z.mod_pos_bound (97 * 1 + 31 * y + 13 * x + 5) 256).
    pose proof (Z.mod_pos_bound (97 * 2 + 31 * y + 13 * x + 5) 256).
    lia. }
  repeat (split; [assumption|]).
  exact (ConvertImage_RGB_YUV444_RGB exact_rows rgb yuv back
           H0 H1 H2 H3 H4 H5).
Defined.
